(** * resource-pool: self-replenishing pools and pool groups

    A shallow embedding of [lib/ResourcePool.js], [lib/ResourceGroup.js],
    [lib/ErrorMessages.js] and [lib/utils.js].

    The JavaScript objects live in a heap keyed by identity: the source keeps
    every private field in a [WeakMap] keyed by [this]; here the five side
    tables of a pool are the five fields of the pool's heap cell.  The host's
    timer queue ([setTimeout] / [clearTimeout]) is part of the state, and the
    delivery of an elapsed timeout is an explicit operation, so that all
    interleavings of calls and timer deliveries are covered.

    A finite JavaScript number is given by its exact value, a rational; the
    counters of a constructed pool are integers.  The one arithmetic
    operation of the code, [remaining - 1], is the subtraction of IEEE
    doubles: exact up to 2^53, rounded to the nearest double above.
    Comparisons and [Math.min] are exact on doubles.  The timers are those of
    Node.js, which the package is written for.

    A JavaScript reference cannot dangle.  Here a method that is handed an
    identity the heap does not hold returns without doing anything; the
    theorems are about cells the heap holds.

    A caller's function is opaque.  The code calls it as the last step of a
    timer closure, so whatever it does to pools and groups is covered by the
    operations that follow the delivery of the timeout; its call is recorded
    in a trace together with the pools as it finds them. *)

From Stdlib Require Import ZArith QArith String List Lia Bool.
From stdpp Require Import base option list gmap strings.

Local Open Scope Z_scope.

Abbreviation PoolId := nat (only parsing).
Abbreviation GroupId := nat (only parsing).
Abbreviation TimerId := nat (only parsing).

(** ** JavaScript values and completions *)

(** A function value: one written by the caller (opaque, told apart by a
    name), or [replenishCallback.bind(group)] made by [ResourceGroup.add]. *)
Inductive Callback : Type :=
  | UserFn (name : nat)
  | Relay (group : GroupId).

(** A thrown value that is not one of the package's own errors: the
    engine's [TypeError], or whatever a conversion method written by the
    caller throws (told apart by a tag). *)
Inductive Exception : Type :=
  | JsTypeError
  | Thrown (tag : nat).

(** The outcome of a call: a value, [throw new Error(msg)], or another
    thrown value passing through. *)
Inductive Completion (A : Type) : Type :=
  | Normal (a : A)
  | Throw (msg : string)
  | Raise (e : Exception).

Arguments Normal {A} a.
Arguments Throw {A} msg.
Arguments Raise {A} e.

(** [c] ends by throwing, and [r] throws the same. *)
Definition propagates {A B : Type} (c : Completion A) (r : Completion B) : Prop :=
  match c with
  | Normal _ => False
  | Throw msg => r = Throw msg
  | Raise e => r = Raise e
  end.

(** Evaluation in sequence: what is thrown by the first step ends the
    whole. *)
Definition bindC {A B : Type} (c : Completion A) (k : A -> Completion B)
    : Completion B :=
  match c with
  | Normal a => k a
  | Throw msg => Throw msg
  | Raise e => Raise e
  end.

Notation "'let?' x ':=' c 'in' k" := (bindC c (fun x => k))
  (at level 10, x name, c at level 200, k at level 200).

(** How the conversion of a value ends: with a result, or with what the
    engine or the value's own conversion method throws. *)
Inductive Conversion (A : Type) : Type :=
  | Gives (a : A)
  | Fails (e : Exception).

Arguments Gives {A} a.
Arguments Fails {A} e.

Definition converted {A : Type} (c : Conversion A) : Completion A :=
  match c with
  | Gives a => Normal a
  | Fails e => Raise e
  end.

(** The values a caller passes to the constructors.  [Fn] is the kind of
    function value that can occur: callers only hold their own functions,
    the pool constructor also receives the group's bound relay.  [JsNumber]
    carries the value of a finite double.  [JsOther] stands for any value
    that is not a number, [undefined], a function or a symbol (a string, a
    boolean, [null], a BigInt, an object).  The code does two things with
    such a value: it compares it with zero, which converts it to a number,
    and it hands it to [parseInt], which converts it to a string.
    [positive] is the outcome of the comparison and [printed] the outcome of
    the conversion to a string; for an object either can throw, and each is
    taken to end the same way every time it is tried.  A conversion method
    written by the caller runs before the constructor has stored anything
    another object can reach, so whatever else it does is covered by the
    operations that come before the call.  [JsFunction] is a function with
    the conversions every function starts with; given as a size or an
    interval, a function whose conversion methods were replaced behaves like
    [JsOther]. *)
Inductive JsValue (Fn : Type) : Type :=
  | JsNumber (q : Q)
  | JsNaN
  | JsInfinity (negative : bool)
  | JsUndefined
  | JsFunction (f : Fn)
  | JsSymbol
  | JsOther (positive : Conversion bool) (printed : Conversion unit).

Arguments JsNumber {Fn} q.
Arguments JsNaN {Fn}.
Arguments JsInfinity {Fn} negative.
Arguments JsUndefined {Fn}.
Arguments JsFunction {Fn} f.
Arguments JsSymbol {Fn}.
Arguments JsOther {Fn} positive printed.

(** [x - 1] on doubles, for an integer [x].  Every integer up to 2^53 is a
    double, and there the difference is exact.  Above 2^53 the doubles are
    the multiples of 2 (below 2^54) or of a larger power of two; [x - 1] is
    none of them and is rounded to the nearest one, a tie going to the double
    with the even significand.  From 2^54 on the nearest double is [x]
    itself.  Between 2^53 and 2^54, [x - 1] lies half-way between [x - 2]
    and [x], whose significands are [x / 2 - 1] and [x / 2]: the result is
    [x - 2] when [x / 2] is odd and [x] when it is even. *)
Definition doubleMinusOne (x : Z) : Z :=
  if x <=? 2 ^ 53 then x - 1
  else if (x <? 2 ^ 54) && Z.odd (x / 2) then x - 2
  else x.

Arguments doubleMinusOne : simpl never.

(** The double nearest to an integer [a] that is not negative (and below
    2^1024): [a] itself up to 2^53; above, [a] cut to a significand [q] of 53
    bits and an exponent [e], and rounded up when the part cut off is more
    than half a unit of [q], or exactly half and [q] is odd.  This is the
    rounding that ends every arithmetic operation on doubles; the lemma
    [doubleMinusOne_rounds] checks [doubleMinusOne] against it. *)
Definition roundToDouble (a : Z) : Z :=
  if a <=? 2 ^ 53 then a
  else
    let e := Z.log2 a - 52 in
    let q := a / 2 ^ e in
    let r := a mod 2 ^ e in
    let half := 2 ^ (e - 1) in
    if (half <? r) || ((r =? half) && Z.odd q) then (q + 1) * 2 ^ e
    else q * 2 ^ e.

(** An integer that is the value of a double. *)
Definition isDouble (x : Z) : Prop := roundToDouble x = x.

(** ** lib/utils.js *)
Module utils.

(** [num > 0]: the operand is converted to a number; [NaN > 0] is false
    ([undefined] and functions convert to [NaN]).  A symbol cannot be
    converted: the comparison throws a [TypeError]. *)
Definition isPositive {Fn} (num : JsValue Fn) : Completion bool :=
  match num with
  | JsNumber q => Normal (negb (Qle_bool q 0))
  | JsInfinity negative => Normal (negb negative)
  | JsNaN | JsUndefined | JsFunction _ => Normal false
  | JsSymbol => Raise JsTypeError
  | JsOther positive _ => converted positive
  end.

(** A number cut at its decimal point: truncation towards zero. *)
Definition truncate (q : Q) : Z := Z.quot (Qnum q) (Zpos (Qden q)).

(** JavaScript prints a number that is not zero in exponent notation
    ([1e+21], [5e-7]) when its magnitude is at least 10^21, or below the
    double nearest to 10^-6 (the least one printed as [0.000001]); otherwise
    in plain decimal notation. *)
Definition exponentFrom : Q := inject_Z (10 ^ 21).

Definition decimalFrom : Q := 4722366482869645 # 4722366482869645213696.

Definition exponentNotation (q : Q) : bool :=
  Qle_bool exponentFrom q || Qle_bool q (- exponentFrom) ||
  (negb (Qeq_bool q 0) && negb (Qle_bool decimalFrom q)
     && negb (Qle_bool q (- decimalFrom))).

(** What [parseInt] reads from the string of a finite number: the digits up
    to the first character that is not one.  In decimal notation these make
    up the number truncated; in exponent notation they stop at the point or
    at the [e], after the one leading digit, which is between 1 and 9. *)
Inductive Parsed : Type :=
  | Integer (z : Z)
  | LeadingDigit.

(** [parseInt(num, 10)] on a finite number: [num] is converted to a string
    first. *)
Definition parseInt (q : Q) : Parsed :=
  if exponentNotation q then LeadingDigit else Integer (truncate q).

(** [num === parsed] for a finite [num].  A number in exponent notation is
    at least 10^21 or below 1 in magnitude: it differs from its leading
    digit. *)
Definition strictEquals (q : Q) (parsed : Parsed) : bool :=
  match parsed with
  | Integer z => Qeq_bool q (inject_Z z)
  | LeadingDigit => false
  end.

(** [num === parseInt(num, 10)]: [parseInt] yields a number or [NaN], which
    is never strictly equal to a [num] that is not a finite number.  The
    conversion to a string throws a [TypeError] for a symbol, and can throw
    for an object. *)
Definition isInt {Fn} (num : JsValue Fn) : Completion bool :=
  match num with
  | JsNumber q => Normal (strictEquals q (parseInt q))
  | JsNaN | JsInfinity _ | JsUndefined | JsFunction _ => Normal false
  | JsSymbol => Raise JsTypeError
  | JsOther _ printed => let? _ := converted printed in Normal false
  end.

(** [typeof fn === 'function'] *)
Definition isFunction {Fn} (fn : JsValue Fn) : bool :=
  match fn with
  | JsFunction _ => true
  | _ => false
  end.

End utils.

(** ** lib/ErrorMessages.js *)
Module ErrorMessages.

Definition INVALID_POOL_SIZE_VALUE : string :=
  "Invalid poolSize value. Must be positive.".

Definition INVALID_POOL_SIZE_TYPE : string :=
  "Invalid poolSize value. Must be integer.".

Definition INVALID_INTERVAL_VALUE : string :=
  "Invalid interval value. Must be positive.".

Definition INVALID_CALLBACK_TYPE : string :=
  "Invalid callback value. Must be function.".

Definition NO_RESOURCE_POOLS_FOUND : string :=
  "No resource pools found.".

End ErrorMessages.

(** ** The heap and the host *)

(** A [ResourcePool] instance: one field per [WeakMap] of ResourcePool.js. *)
Record PoolObj : Type := mkPool {
  poolSizes : Z;
  intervals : Z;
  callbacks : Callback;
  cycles : option TimerId;
  currentPoolSize : Z
}.

(** A [ResourceGroup] instance: the [pools] and [callbacks] tables of
    ResourceGroup.js.  The array holds references to the member pools. *)
Record GroupObj : Type := mkGroup {
  groupPools : list PoolId;
  groupCallbacks : nat
}.

(** A pending [setTimeout]: the closure made by [startCycle] (it captures the
    pool) and the delay the host gives it. *)
Record Timeout : Type := mkTimeout {
  target : PoolId;
  delay : Z
}.

(** What can be seen from outside: the run of a pool's cycle closure, the
    call of a caller's function together with the pools as that function sees
    them, and an error escaping from a timer closure. *)
Inductive Event : Type :=
  | Elapsed (pool : PoolId)
  | Called (name : nat) (seen : gmap nat PoolObj)
  | Uncaught (msg : string)
  | UncaughtException (e : Exception).

Record World : Type := mkWorld {
  poolHeap : gmap nat PoolObj;
  groupHeap : gmap nat GroupObj;
  timers : gmap nat Timeout;
  nextTimer : TimerId;
  trace : list Event
}.

Definition init : World := mkWorld ∅ ∅ ∅ 0%nat [].

Definition setPool (p : PoolId) (o : PoolObj) (w : World) : World :=
  mkWorld (<[p := o]> (poolHeap w)) (groupHeap w) (timers w) (nextTimer w) (trace w).

Definition setGroup (g : GroupId) (G : GroupObj) (w : World) : World :=
  mkWorld (poolHeap w) (<[g := G]> (groupHeap w)) (timers w) (nextTimer w) (trace w).

Definition log (e : Event) (w : World) : World :=
  mkWorld (poolHeap w) (groupHeap w) (timers w) (nextTimer w) (trace w ++ [e]).

(** The longest delay of a Node.js timer. *)
Definition TIMEOUT_MAX : Z := 2 ^ 31 - 1.

(** The delay a Node.js timer is given: a requested delay that is not
    between 1 and [TIMEOUT_MAX] is replaced by 1. *)
Definition timerDelay (ms : Z) : Z :=
  if (1 <=? ms) && (ms <=? TIMEOUT_MAX) then ms else 1.

Arguments timerDelay : simpl never.

(** [setTimeout(closure, ms)]: the host hands out a handle it never reuses. *)
Definition setTimeout (p : PoolId) (ms : Z) (w : World) : TimerId * World :=
  (nextTimer w,
   mkWorld (poolHeap w) (groupHeap w)
           (<[nextTimer w := mkTimeout p (timerDelay ms)]> (timers w))
           (S (nextTimer w)) (trace w)).

(** [clearTimeout(id)]: nothing happens when [id] is not pending. *)
Definition clearTimeout (t : TimerId) (w : World) : World :=
  mkWorld (poolHeap w) (groupHeap w) (delete t (timers w)) (nextTimer w) (trace w).

(** A caller's function is opaque; its call is recorded with what it can
    observe of the pools. *)
Definition callUser (name : nat) (w : World) : World :=
  log (Called name (poolHeap w)) w.

(** ** lib/ResourcePool.js *)
Module ResourcePool.

Definition setCurrent (o : PoolObj) (n : Z) : PoolObj :=
  mkPool (poolSizes o) (intervals o) (callbacks o) (cycles o) n.

Definition setCycle (o : PoolObj) (c : option TimerId) : PoolObj :=
  mkPool (poolSizes o) (intervals o) (callbacks o) c (currentPoolSize o).

(** [replenish(pool)] *)
Definition replenish (o : PoolObj) : PoolObj :=
  let resourceAmount := poolSizes o in
  setCurrent o resourceAmount.

(** [get remaining()] *)
Definition remaining (o : PoolObj) : Z := currentPoolSize o.

(** [get exhausted()] *)
Definition exhausted (o : PoolObj) : bool := remaining o <=? 0.

(** [startCycle(pool)]: registers the cycle closure with the host; the body
    of the closure is [Host.cycleElapsed]. *)
Definition startCycle (p : PoolId) (o : PoolObj) (w : World) : TimerId * World :=
  setTimeout p (intervals o) w.

(** The number stored by the constructor once [isInt] has accepted it. *)
Definition toInteger {Fn} (v : JsValue Fn) : Z :=
  match v with
  | JsNumber q => utils.truncate q
  | _ => 0
  end.

(** The three validation blocks of the constructor, in source order. *)
Definition validate {Fn} (poolSize interval : JsValue Fn)
    (callback : JsValue Callback) : Completion (Z * Z * Callback) :=
  let? sizePositive := utils.isPositive poolSize in
  if negb sizePositive then
    Throw ErrorMessages.INVALID_POOL_SIZE_VALUE
  else
  let? sizeInt := utils.isInt poolSize in
  if negb sizeInt then
    Throw ErrorMessages.INVALID_POOL_SIZE_TYPE
  else
  let? intervalPositive := utils.isPositive interval in
  if negb intervalPositive then
    Throw ErrorMessages.INVALID_INTERVAL_VALUE
  else
  let? intervalInt := utils.isInt interval in
  if negb intervalInt then
    Throw ErrorMessages.INVALID_INTERVAL_VALUE
  else
    match callback with
    | JsFunction f => Normal (toInteger poolSize, toInteger interval, f)
    | _ => Throw ErrorMessages.INVALID_CALLBACK_TYPE
    end.

(** [new ResourcePool(poolSize, interval, callback)].  A constructor that
    throws leaves an object nobody can reach: the heap is unchanged. *)
Definition constructor {Fn} (poolSize interval : JsValue Fn)
    (callback : JsValue Callback) (w : World) : Completion PoolId * World :=
  match validate poolSize interval callback with
  | Throw msg => (Throw msg, w)
  | Raise e => (Raise e, w)
  | Normal (size, ms, f) =>
      let this := fresh (dom (poolHeap w)) in
      (Normal this, setPool this (replenish (mkPool size ms f None 0)) w)
  end.

(** [consume()] *)
Definition consume (p : PoolId) (w : World) : bool * World :=
  match poolHeap w !! p with
  | None => (false, w)
  | Some o =>
      if exhausted o then (false, w)
      else
        let o1 := setCurrent o (doubleMinusOne (remaining o)) in
        let w1 := setPool p o1 w in
        match cycles o1 with
        | Some _ => (true, w1)
        | None =>
            let '(cycleId, w2) := startCycle p o1 w1 in
            (true, setPool p (setCycle o1 (Some cycleId)) w2)
        end
  end.

(** [destroy()] *)
Definition destroy (p : PoolId) (w : World) : World :=
  match poolHeap w !! p with
  | None => w
  | Some o =>
      match cycles o with
      | Some cycleId => clearTimeout cycleId w
      | None => w
      end
  end.

(** [consume()] called [n] times in immediate succession; the results are
    listed first call first. *)
Fixpoint consumeTimes (n : nat) (p : PoolId) (w : World) : list bool * World :=
  match n with
  | O => ([], w)
  | S k =>
      let '(b, w1) := consume p w in
      let '(bs, w2) := consumeTimes k p w1 in
      (b :: bs, w2)
  end.

End ResourcePool.

(** ** lib/ResourceGroup.js *)
Module ResourceGroup.

(** [pool.remaining] through a reference held in the group's array. *)
Definition poolRemaining (w : World) (p : PoolId) : Z :=
  match poolHeap w !! p with
  | Some o => ResourcePool.remaining o
  | None => 0
  end.

(** [Math.min(...list)] on a list that is not empty. *)
Definition Math_min (l : list Z) : Z :=
  match l with
  | [] => 0
  | x :: xs => fold_left Z.min xs x
  end.

(** [get remaining()] *)
Definition remaining (G : GroupObj) (w : World) : Completion Z :=
  let poolList := groupPools G in
  if (length poolList =? 0)%nat then
    Throw ErrorMessages.NO_RESOURCE_POOLS_FOUND
  else
    let poolRemainingList := map (poolRemaining w) poolList in
    Normal (Math_min poolRemainingList).

(** [get exhausted()] *)
Definition exhausted (G : GroupObj) (w : World) : Completion bool :=
  let? r := remaining G w in Normal (r <=? 0).

(** [poolList.forEach(pool => pool.consume())] *)
Definition consumeEach (poolList : list PoolId) (w : World) : World :=
  fold_left (fun acc pool => snd (ResourcePool.consume pool acc)) poolList w.

(** [poolList.forEach(pool => pool.destroy())] *)
Definition destroyEach (poolList : list PoolId) (w : World) : World :=
  fold_left (fun acc pool => ResourcePool.destroy pool acc) poolList w.

(** [consume()] *)
Definition consume (g : GroupId) (w : World) : Completion bool * World :=
  match groupHeap w !! g with
  | None => (Normal false, w)
  | Some G =>
      match exhausted G w with
      | Throw msg => (Throw msg, w)
      | Raise e => (Raise e, w)
      | Normal true => (Normal false, w)
      | Normal false => (Normal true, consumeEach (groupPools G) w)
      end
  end.

(** [destroy()] *)
Definition destroy (g : GroupId) (w : World) : World :=
  match groupHeap w !! g with
  | None => w
  | Some G => destroyEach (groupPools G) w
  end.

(** [new ResourceGroup(callback)] *)
Definition constructor (callback : JsValue nat) (w : World)
    : Completion GroupId * World :=
  match callback with
  | JsFunction name =>
      let this := fresh (dom (groupHeap w)) in
      (Normal this, setGroup this (mkGroup [] name) w)
  | _ => (Throw ErrorMessages.INVALID_CALLBACK_TYPE, w)
  end.

(** The four guards at the head of [add], in source order. *)
Definition guards {Fn} (poolSize interval : JsValue Fn) : Completion unit :=
  let? sizePositive := utils.isPositive poolSize in
  if negb sizePositive then
    Throw ErrorMessages.INVALID_POOL_SIZE_VALUE
  else
  let? sizeInt := utils.isInt poolSize in
  if negb sizeInt then
    Throw ErrorMessages.INVALID_POOL_SIZE_TYPE
  else
  let? intervalPositive := utils.isPositive interval in
  if negb intervalPositive then
    Throw ErrorMessages.INVALID_INTERVAL_VALUE
  else
  let? intervalInt := utils.isInt interval in
  if negb intervalInt then
    Throw ErrorMessages.INVALID_INTERVAL_VALUE
  else
    Normal tt.

(** [add(poolSize, interval)]: the four guards, then a new member whose
    callback is the relay bound to this group, pushed at the end. *)
Definition add {Fn} (g : GroupId) (poolSize interval : JsValue Fn) (w : World)
    : Completion GroupId * World :=
  match guards poolSize interval with
  | Throw msg => (Throw msg, w)
  | Raise e => (Raise e, w)
  | Normal _ =>
    match groupHeap w !! g with
    | None => (Normal g, w)
    | Some G =>
        match ResourcePool.constructor poolSize interval (JsFunction (Relay g)) w with
        | (Throw msg, w1) => (Throw msg, w1)
        | (Raise e, w1) => (Raise e, w1)
        | (Normal pool, w1) =>
            (Normal g,
             setGroup g (mkGroup (groupPools G ++ [pool]) (groupCallbacks G)) w1)
        end
    end
  end.

(** [replenishCallback], with [this] bound to group [g]. *)
Definition replenishCallback (g : GroupId) (w : World) : World :=
  match groupHeap w !! g with
  | None => w
  | Some G =>
      match exhausted G w with
      | Normal false => callUser (groupCallbacks G) w
      | Normal true => w
      | Throw msg => log (Uncaught msg) w
      | Raise e => log (UncaughtException e) w
      end
  end.

End ResourceGroup.

(** ** The host: calling function values and delivering timeouts *)
Module Host.

(** [callback()] *)
Definition call (f : Callback) (w : World) : World :=
  match f with
  | UserFn name => callUser name w
  | Relay g => ResourceGroup.replenishCallback g w
  end.

(** The closure that [startCycle] hands to [setTimeout]. *)
Definition cycleElapsed (p : PoolId) (w : World) : World :=
  match poolHeap w !! p with
  | None => w
  | Some o =>
      let o1 := ResourcePool.setCycle o None in
      let poolLasExhausted := ResourcePool.exhausted o1 in
      let w1 := setPool p (ResourcePool.replenish o1) (log (Elapsed p) w) in
      if poolLasExhausted then call (callbacks o1) w1 else w1
  end.

(** The host delivers timeout [t]: it leaves the queue and its closure
    runs.  A handle that is not pending delivers nothing. *)
Definition fire (t : TimerId) (w : World) : World :=
  match timers w !! t with
  | None => w
  | Some to => cycleElapsed (target to) (clearTimeout t w)
  end.

End Host.

(** ** Programs: sequences of calls and timer deliveries *)

Inductive Op : Type :=
  | NewPool (poolSize interval : JsValue Callback) (callback : JsValue Callback)
  | Consume (p : PoolId)
  | Destroy (p : PoolId)
  | Fire (t : TimerId)
  | NewGroup (callback : JsValue nat)
  | Add (g : GroupId) (poolSize interval : JsValue Callback)
  | GroupConsume (g : GroupId)
  | GroupDestroy (g : GroupId).

Definition exec (op : Op) (w : World) : World :=
  match op with
  | NewPool poolSize interval callback =>
      snd (ResourcePool.constructor poolSize interval callback w)
  | Consume p => snd (ResourcePool.consume p w)
  | Destroy p => ResourcePool.destroy p w
  | Fire t => Host.fire t w
  | NewGroup callback => snd (ResourceGroup.constructor callback w)
  | Add g poolSize interval => snd (ResourceGroup.add g poolSize interval w)
  | GroupConsume g => snd (ResourceGroup.consume g w)
  | GroupDestroy g => ResourceGroup.destroy g w
  end.

Definition run (ops : list Op) (w : World) : World :=
  fold_left (fun acc op => exec op acc) ops w.

Definition isDestroy (op : Op) : bool :=
  match op with
  | Destroy _ | GroupDestroy _ => true
  | _ => false
  end.

(** The states a program can reach from the empty heap. *)
Definition reachable (w : World) : Prop :=
  exists ops, w = run ops init.

(** The states reached by programs that never call [destroy]. *)
Definition reachableWithoutDestroy (w : World) : Prop :=
  exists ops, forallb (fun op => negb (isDestroy op)) ops = true /\ w = run ops init.

(** A cycle is armed for pool [p]: the host holds a pending timeout whose
    closure captured [p]. *)
Definition armed (w : World) (p : PoolId) : Prop :=
  exists t to, timers w !! t = Some to /\ target to = p.

(** ** Elementary moves *)

Definition isCallEvent (e : Event) : Prop :=
  match e with
  | Elapsed _ => False
  | Called _ _ | Uncaught _ | UncaughtException _ => True
  end.

(** What one call or one timer delivery does to the heap and to the host, one
    elementary move at a time.  The flag tells a cancellation from the rest. *)
Inductive prim : bool -> World -> World -> Prop :=
  | prim_alloc w p o :
      poolHeap w !! p = None ->
      cycles o = None ->
      currentPoolSize o = poolSizes o ->
      0 < poolSizes o ->
      0 < intervals o ->
      prim false w (setPool p o w)
  | prim_draw w p o t :
      poolHeap w !! p = Some o ->
      0 < currentPoolSize o ->
      cycles o = Some t ->
      prim false w
        (setPool p (ResourcePool.setCurrent o (doubleMinusOne (currentPoolSize o))) w)
  | prim_arm w p o :
      poolHeap w !! p = Some o ->
      0 < currentPoolSize o ->
      cycles o = None ->
      prim false w
        (mkWorld
           (<[p := mkPool (poolSizes o) (intervals o) (callbacks o)
                          (Some (nextTimer w))
                          (doubleMinusOne (currentPoolSize o))]> (poolHeap w))
           (groupHeap w)
           (<[nextTimer w := mkTimeout p (timerDelay (intervals o))]> (timers w))
           (S (nextTimer w)) (trace w))
  | prim_elapse w t to o evs :
      timers w !! t = Some to ->
      poolHeap w !! target to = Some o ->
      Forall isCallEvent evs ->
      prim false w
        (mkWorld
           (<[target to := mkPool (poolSizes o) (intervals o) (callbacks o)
                                  None (poolSizes o)]> (poolHeap w))
           (groupHeap w) (delete t (timers w)) (nextTimer w)
           (trace w ++ Elapsed (target to) :: evs))
  | prim_cancel w p o t :
      poolHeap w !! p = Some o ->
      cycles o = Some t ->
      prim true w (clearTimeout t w)
  | prim_drop w t to :
      timers w !! t = Some to ->
      poolHeap w !! target to = None ->
      prim false w (clearTimeout t w)
  | prim_group w g name :
      groupHeap w !! g = None ->
      prim false w (setGroup g (mkGroup [] name) w)
  | prim_add w g G p o :
      groupHeap w !! g = Some G ->
      poolHeap w !! p = None ->
      cycles o = None ->
      currentPoolSize o = poolSizes o ->
      0 < poolSizes o ->
      0 < intervals o ->
      prim false w
        (setGroup g (mkGroup (groupPools G ++ [p]) (groupCallbacks G)) (setPool p o w)).

(** A run of elementary moves; [c = false] forbids cancellations. *)
Inductive trail (c : bool) : World -> World -> Prop :=
  | trail_refl w : trail c w w
  | trail_step b w1 w2 w3 :
      prim b w1 w2 -> (b = true -> c = true) -> trail c w2 w3 -> trail c w1 w3.

(** ** Invariants *)

(** [0 <= remaining <= capacity] for every pool. *)
Definition poolsBounded (w : World) : Prop :=
  forall p o, poolHeap w !! p = Some o ->
    0 <= currentPoolSize o <= poolSizes o.

(** Every pending timeout is the one its pool's [cycles] entry names. *)
Definition timersRecorded (w : World) : Prop :=
  forall t to, timers w !! t = Some to ->
    exists o, poolHeap w !! target to = Some o /\ cycles o = Some t.

(** A pool without a [cycles] entry is full. *)
Definition idleFull (w : World) : Prop :=
  forall p o, poolHeap w !! p = Some o -> cycles o = None ->
    currentPoolSize o = poolSizes o.

(** Every handle in use was handed out by the host. *)
Definition handlesIssued (w : World) : Prop :=
  (forall t to, timers w !! t = Some to -> (t < nextTimer w)%nat) /\
  (forall p o t, poolHeap w !! p = Some o -> cycles o = Some t -> (t < nextTimer w)%nat).

(** No two pools hold the same handle in their [cycles] entries. *)
Definition recordsDistinct (w : World) : Prop :=
  forall p q o o' t,
    poolHeap w !! p = Some o -> poolHeap w !! q = Some o' ->
    cycles o = Some t -> cycles o' = Some t -> p = q.

(** Every [cycles] entry names a pending timeout of its pool. *)
Definition recordsPending (w : World) : Prop :=
  forall p o t, poolHeap w !! p = Some o -> cycles o = Some t ->
    exists to, timers w !! t = Some to /\ target to = p.

(** The members of a group are distinct, existing pools. *)
Definition groupsOwnPools (w : World) : Prop :=
  forall g G, groupHeap w !! g = Some G ->
    NoDup (groupPools G) /\
    forall p, p ∈ groupPools G -> is_Some (poolHeap w !! p).

(** Pool [p] keeps a [cycles] entry although no timeout is pending for it. *)
Definition cancelled (w : World) (p : PoolId) : Prop :=
  (exists o t, poolHeap w !! p = Some o /\ cycles o = Some t) /\ ~ armed w p.

(** [w2] continues [w1] without any cycle of [p] elapsing. *)
Definition quietFor (p : PoolId) (w1 w2 : World) : Prop :=
  exists evs, trace w2 = trace w1 ++ evs /\ Elapsed p ∉ evs.

(** A pool with a [cycles] entry has been drawn down, when its capacity is
    in the range where [consume] counts exactly. *)
Definition recordedDrawn (w : World) : Prop :=
  forall p o t, poolHeap w !! p = Some o -> cycles o = Some t ->
    poolSizes o <= 2 ^ 53 ->
    currentPoolSize o < poolSizes o.

(** The least element of a list, by its defining property. *)
Definition isMinimumOf (m : Z) (l : list Z) : Prop :=
  m ∈ l /\ forall x, x ∈ l -> m <= x.

(** Every pool has a positive capacity. *)
Definition capacitiesPositive (w : World) : Prop :=
  forall p o, poolHeap w !! p = Some o -> 0 < poolSizes o.

(** Every pool has a positive interval. *)
Definition intervalsPositive (w : World) : Prop :=
  forall p o, poolHeap w !! p = Some o -> 0 < intervals o.

(** [group.consume()] called [n] times in immediate succession; the
    outcomes are listed first call first. *)
Fixpoint groupConsumeTimes (n : nat) (g : GroupId) (w : World)
    : list (Completion bool) * World :=
  match n with
  | O => ([], w)
  | S k =>
      let '(r, w1) := ResourceGroup.consume g w in
      let '(rs, w2) := groupConsumeTimes k g w1 in
      (r :: rs, w2)
  end.

(** Every pending timeout has the delay the host gives to the interval of
    its pool. *)
Definition delaysAreIntervals (w : World) : Prop :=
  forall t to, timers w !! t = Some to ->
    exists o, poolHeap w !! target to = Some o /\
      delay to = timerDelay (intervals o).

(** No pool is a member of two groups. *)
Definition groupsDisjoint (w : World) : Prop :=
  forall g1 g2 G1 G2 p,
    groupHeap w !! g1 = Some G1 -> groupHeap w !! g2 = Some G2 ->
    p ∈ groupPools G1 -> p ∈ groupPools G2 -> g1 = g2.

(** ** An earlier draft of ResourcePool.js

    The repository also holds an earlier draft of the pool.  It differs from
    the final file in four places: the error messages are written in the
    constructor, with a message of its own for an interval that is not an
    integer; the constructor does not fill the pool; [replenish] and
    [exausted] are members of the class; and the cycle closure looks its
    callback up under [this], which inside [startCycle] (a plain function,
    called without a receiver) is the global object or [undefined], never a
    pool.  There is no [destroy]. *)
Module Draft.

(** What [currentPoolSize.get(pool)] can yield: [undefined] when nothing was
    stored yet, or the stored number, which can be [NaN]. *)
Inductive Amount : Type :=
  | Undefined
  | NotANumber
  | Num (n : Z).

(** [x - 1]: [undefined] converts to [NaN], and [NaN - 1] is [NaN]. *)
Definition minusOne (x : Amount) : Amount :=
  match x with
  | Num n => Num (doubleMinusOne n)
  | Undefined | NotANumber => NotANumber
  end.

(** [x <= 0]: false when [x] converts to [NaN]. *)
Definition atMostZero (x : Amount) : bool :=
  match x with
  | Num n => n <=? 0
  | Undefined | NotANumber => false
  end.

(** The value of [this] in a lookup: a pool, or what a plain function call
    binds (the global object or [undefined]). *)
Inductive Receiver : Type :=
  | ThisPool (p : PoolId)
  | NoReceiver.

Record Pool : Type := mkPool {
  poolSizes : Z;
  intervals : Z;
  callbacks : nat;
  cycles : option TimerId;
  currentPoolSize : Amount
}.

Inductive Event : Type :=
  | Elapsed (pool : PoolId)
  | Called (name : nat)
  | TypeError (pool : PoolId).

Record World : Type := mkWorld {
  poolHeap : gmap nat Pool;
  timers : gmap nat Timeout;
  nextTimer : TimerId;
  trace : list Event
}.

Definition init : World := mkWorld ∅ ∅ 0%nat [].

Definition setPool (p : PoolId) (o : Pool) (w : World) : World :=
  mkWorld (<[p := o]> (poolHeap w)) (timers w) (nextTimer w) (trace w).

Definition log (e : Event) (w : World) : World :=
  mkWorld (poolHeap w) (timers w) (nextTimer w) (trace w ++ [e]).

Definition setCurrent (o : Pool) (x : Amount) : Pool :=
  mkPool (poolSizes o) (intervals o) (callbacks o) (cycles o) x.

Definition setCycle (o : Pool) (c : option TimerId) : Pool :=
  mkPool (poolSizes o) (intervals o) (callbacks o) c (currentPoolSize o).

(** [callbacks.get(key)]: only pools are ever keys of the table. *)
Definition callbacksGet (w : World) (key : Receiver) : option nat :=
  match key with
  | ThisPool p => callbacks <$> poolHeap w !! p
  | NoReceiver => None
  end.

(** The constructor's checks, with the draft's own messages. *)
Definition validate {Fn} (poolSize interval callback : JsValue Fn)
    : Completion (Z * Z * Fn) :=
  let? sizePositive := utils.isPositive poolSize in
  if negb sizePositive then
    Throw "Invalid poolSize value. Must be positive."
  else
  let? sizeInt := utils.isInt poolSize in
  if negb sizeInt then
    Throw "Invalid poolSize value. Must be integer."
  else
  let? intervalPositive := utils.isPositive interval in
  if negb intervalPositive then
    Throw "Invalid interval value. Must be positive."
  else
  let? intervalInt := utils.isInt interval in
  if negb intervalInt then
    Throw "Invalid interval value. Must be integer."
  else
    match callback with
    | JsFunction f =>
        Normal (ResourcePool.toInteger poolSize, ResourcePool.toInteger interval, f)
    | _ => Throw "Invalid callback value. Must be function."
    end.

(** [new ResourcePool(poolSize, interval, callback)]: nothing is stored in
    [currentPoolSize]. *)
Definition constructor (poolSize interval callback : JsValue nat) (w : World)
    : Completion PoolId * World :=
  match validate poolSize interval callback with
  | Throw msg => (Throw msg, w)
  | Raise e => (Raise e, w)
  | Normal (size, ms, f) =>
      let this := fresh (dom (poolHeap w)) in
      (Normal this, setPool this (mkPool size ms f None Undefined) w)
  end.

(** [replenish()] *)
Definition replenish (o : Pool) : Pool :=
  let resourceAmount := poolSizes o in
  setCurrent o (Num resourceAmount).

(** [get remaining()] *)
Definition remaining (o : Pool) : Amount := currentPoolSize o.

(** [get exausted()] *)
Definition exausted (o : Pool) : bool := atMostZero (remaining o).

(** [consume()] *)
Definition consume (p : PoolId) (w : World) : bool * World :=
  match poolHeap w !! p with
  | None => (false, w)
  | Some o =>
      if exausted o then (false, w)
      else
        let o1 := setCurrent o (minusOne (remaining o)) in
        match cycles o1 with
        | Some _ => (true, setPool p o1 w)
        | None =>
            let cycleId := nextTimer w in
            (true,
             mkWorld (<[p := setCycle o1 (Some cycleId)]> (poolHeap w))
                     (<[cycleId := mkTimeout p (timerDelay (intervals o1))]> (timers w))
                     (S cycleId) (trace w))
        end
  end.

(** The closure that [startCycle] hands to [setTimeout]. *)
Definition cycleElapsed (p : PoolId) (w : World) : World :=
  match poolHeap w !! p with
  | None => w
  | Some o =>
      let o1 := setCycle o None in
      let poolLasExausted := exausted o1 in
      let w1 := setPool p (replenish o1) (log (Elapsed p) w) in
      if poolLasExausted then
        match callbacksGet w1 NoReceiver with
        | Some name => log (Called name) w1
        | None => log (TypeError p) w1
        end
      else w1
  end.

(** The host delivers timeout [t]. *)
Definition fire (t : TimerId) (w : World) : World :=
  match timers w !! t with
  | None => w
  | Some to =>
      cycleElapsed (target to)
        (mkWorld (poolHeap w) (delete t (timers w)) (nextTimer w) (trace w))
  end.

(** [consume()] called [n] times in immediate succession. *)
Fixpoint consumeTimes (n : nat) (p : PoolId) (w : World) : list bool * World :=
  match n with
  | O => ([], w)
  | S k =>
      let '(b, w1) := consume p w in
      let '(bs, w2) := consumeTimes k p w1 in
      (b :: bs, w2)
  end.

Inductive Op : Type :=
  | NewPool (poolSize interval callback : JsValue nat)
  | Consume (p : PoolId)
  | Fire (t : TimerId).

Definition exec (op : Op) (w : World) : World :=
  match op with
  | NewPool poolSize interval callback => snd (constructor poolSize interval callback w)
  | Consume p => snd (consume p w)
  | Fire t => fire t w
  end.

Definition run (ops : list Op) (w : World) : World :=
  fold_left (fun acc op => exec op acc) ops w.

Definition isCalled (e : Event) : Prop :=
  match e with
  | Called _ => True
  | Elapsed _ | TypeError _ => False
  end.

End Draft.

(** ** Sample values and programs *)

Definition num {Fn} (z : Z) : JsValue Fn := JsNumber (inject_Z z).

Definition fn (name : nat) : JsValue Callback := JsFunction (UserFn name).

(** [new ResourcePool(1, 5, f7)] *)
Definition onePool : list Op := [NewPool (num 1) (num 5) (fn 7)].

(** [new ResourcePool(2, 5, f7)] *)
Definition twoPool : list Op := [NewPool (num 2) (num 5) (fn 7)].

(** [new ResourcePool(2 ** 54, 5, f7)] *)
Definition hugePool : list Op := [NewPool (num (2 ^ 54)) (num 5) (fn 7)].

(** [group = new ResourceGroup(f9); group.add(2, 10).add(5, 10)] *)
Definition twoMembers : list Op :=
  [NewGroup (JsFunction 9%nat); Add 0%nat (num 2) (num 10); Add 0%nat (num 5) (num 10)].

(** [group = new ResourceGroup(f9); group.add(2 ** 54, 10)] *)
Definition hugeMember : list Op :=
  [NewGroup (JsFunction 9%nat); Add 0%nat (num (2 ^ 54)) (num 10)].

(** Case analysis on a lookup in a heap after one cell was written. *)
Ltac heap_cases H :=
  apply lookup_insert_Some in H as [[<- <-] | [? H]].

(** * Theorems *)

(** ** What each method does, case by case *)

Lemma world_eta w :
  mkWorld (poolHeap w) (groupHeap w) (timers w) (nextTimer w) (trace w) = w.
Proof. by destruct w. Qed.

Lemma pool_eta o :
  mkPool (poolSizes o) (intervals o) (callbacks o) (cycles o) (currentPoolSize o) = o.
Proof. by destruct o. Qed.

Lemma exhausted_true o :
  ResourcePool.exhausted o = true <-> currentPoolSize o <= 0.
Proof. unfold ResourcePool.exhausted, ResourcePool.remaining. apply Z.leb_le. Qed.

Lemma exhausted_false o :
  ResourcePool.exhausted o = false <-> 0 < currentPoolSize o.
Proof.
  unfold ResourcePool.exhausted, ResourcePool.remaining.
  rewrite Z.leb_gt. lia.
Qed.

Lemma consume_dangling p w :
  poolHeap w !! p = None -> ResourcePool.consume p w = (false, w).
Proof. intros H. unfold ResourcePool.consume. by rewrite H. Qed.

Lemma consume_exhausted p o w :
  poolHeap w !! p = Some o -> currentPoolSize o <= 0 ->
  ResourcePool.consume p w = (false, w).
Proof.
  intros Hp Hle. unfold ResourcePool.consume. rewrite Hp.
  apply exhausted_true in Hle. by rewrite Hle.
Qed.

Lemma consume_recorded p o t w :
  poolHeap w !! p = Some o -> 0 < currentPoolSize o -> cycles o = Some t ->
  ResourcePool.consume p w =
    (true, setPool p (ResourcePool.setCurrent o (doubleMinusOne (currentPoolSize o))) w).
Proof.
  intros Hp Hlt Hc. unfold ResourcePool.consume. rewrite Hp.
  apply exhausted_false in Hlt. rewrite Hlt. cbn. by rewrite Hc.
Qed.

Lemma consume_idle p o w :
  poolHeap w !! p = Some o -> 0 < currentPoolSize o -> cycles o = None ->
  ResourcePool.consume p w =
    (true,
     mkWorld
       (<[p := mkPool (poolSizes o) (intervals o) (callbacks o)
                      (Some (nextTimer w))
                      (doubleMinusOne (currentPoolSize o))]> (poolHeap w))
       (groupHeap w)
       (<[nextTimer w := mkTimeout p (timerDelay (intervals o))]> (timers w))
       (S (nextTimer w)) (trace w)).
Proof.
  intros Hp Hlt Hc. unfold ResourcePool.consume. rewrite Hp.
  apply exhausted_false in Hlt. rewrite Hlt. cbn. rewrite Hc.
  unfold setPool. cbn. by rewrite insert_insert_eq.
Qed.

Lemma destroy_recorded p o t w :
  poolHeap w !! p = Some o -> cycles o = Some t ->
  ResourcePool.destroy p w = clearTimeout t w.
Proof. intros Hp Hc. unfold ResourcePool.destroy. by rewrite Hp, Hc. Qed.

Lemma destroy_idle p o w :
  poolHeap w !! p = Some o -> cycles o = None ->
  ResourcePool.destroy p w = w.
Proof. intros Hp Hc. unfold ResourcePool.destroy. by rewrite Hp, Hc. Qed.

Lemma destroy_dangling p w :
  poolHeap w !! p = None -> ResourcePool.destroy p w = w.
Proof. intros Hp. unfold ResourcePool.destroy. by rewrite Hp. Qed.

(** A call of a function value only adds call events to the trace. *)
Lemma call_shape f w :
  exists evs,
    Forall isCallEvent evs /\
    Host.call f w =
      mkWorld (poolHeap w) (groupHeap w) (timers w) (nextTimer w) (trace w ++ evs).
Proof.
  destruct f as [name | g]; cbn.
  - exists [Called name (poolHeap w)]. split; [by repeat constructor | done].
  - unfold ResourceGroup.replenishCallback.
    destruct (groupHeap w !! g) as [G |].
    + destruct (ResourceGroup.exhausted G w) as [[|] | msg | e].
      * exists []. split; [constructor |]. by rewrite app_nil_r, world_eta.
      * exists [Called (groupCallbacks G) (poolHeap w)].
        split; [by repeat constructor | done].
      * exists [Uncaught msg]. split; [by repeat constructor | done].
      * exists [UncaughtException e]. split; [by repeat constructor | done].
    + exists []. split; [constructor |]. by rewrite app_nil_r, world_eta.
Qed.

Lemma call_events f w :
  exists evs,
    Host.call f w =
      mkWorld (poolHeap w) (groupHeap w) (timers w) (nextTimer w) (trace w ++ evs) /\
    (forall name seen, Called name seen ∈ evs -> seen = poolHeap w) /\
    (forall name, f = UserFn name -> evs = [Called name (poolHeap w)]).
Proof.
  destruct f as [name | g]; cbn.
  - exists [Called name (poolHeap w)]. split; [done |]. split.
    + intros k seen Hin. by apply list_elem_of_singleton in Hin as [= _ <-].
    + by intros k [= <-].
  - unfold ResourceGroup.replenishCallback.
    destruct (groupHeap w !! g) as [G |].
    + destruct (ResourceGroup.exhausted G w) as [[|] | msg | e].
      * exists []. split; [by rewrite app_nil_r, world_eta |]. split; [| done].
        intros k seen Hin. by apply elem_of_nil in Hin.
      * exists [Called (groupCallbacks G) (poolHeap w)]. split; [done |].
        split; [| done].
        intros k seen Hin. by apply list_elem_of_singleton in Hin as [= _ <-].
      * exists [Uncaught msg]. split; [done |]. split; [| done].
        intros k seen Hin. by apply list_elem_of_singleton in Hin.
      * exists [UncaughtException e]. split; [done |]. split; [| done].
        intros k seen Hin. by apply list_elem_of_singleton in Hin.
    + exists []. split; [by rewrite app_nil_r, world_eta |]. split; [| done].
      intros k seen Hin. by apply elem_of_nil in Hin.
Qed.

Lemma fire_idle t w : timers w !! t = None -> Host.fire t w = w.
Proof. intros H. unfold Host.fire. by rewrite H. Qed.

Lemma fire_pending t to o w :
  timers w !! t = Some to -> poolHeap w !! target to = Some o ->
  Host.fire t w =
    let w1 :=
      mkWorld
        (<[target to := mkPool (poolSizes o) (intervals o) (callbacks o)
                               None (poolSizes o)]> (poolHeap w))
        (groupHeap w) (delete t (timers w)) (nextTimer w)
        (trace w ++ [Elapsed (target to)]) in
    if ResourcePool.exhausted o then Host.call (callbacks o) w1 else w1.
Proof.
  intros Ht Hp. unfold Host.fire. rewrite Ht.
  unfold Host.cycleElapsed. cbn. rewrite Hp. done.
Qed.

Lemma fire_dangling t to w :
  timers w !! t = Some to -> poolHeap w !! target to = None ->
  Host.fire t w = clearTimeout t w.
Proof.
  intros Ht Hp. unfold Host.fire. rewrite Ht.
  unfold Host.cycleElapsed. cbn. by rewrite Hp.
Qed.

(** ** Every method is a run of elementary moves *)

Lemma trail_one c b w1 w2 :
  prim b w1 w2 -> (b = true -> c = true) -> trail c w1 w2.
Proof. intros Hp Hb. eapply trail_step; [exact Hp | exact Hb | apply trail_refl]. Qed.

Lemma trail_app c w1 w2 w3 :
  trail c w1 w2 -> trail c w2 w3 -> trail c w1 w3.
Proof.
  induction 1 as [| b w1 w2 w2' Hp Hb _ IH]; [done |].
  intros H3. eapply trail_step; [exact Hp | exact Hb | by apply IH].
Qed.

Lemma trail_weaken w1 w2 : trail false w1 w2 -> trail true w1 w2.
Proof.
  induction 1 as [| b w1 w2 w3 Hp _ _ IH]; [apply trail_refl |].
  eapply trail_step; [exact Hp | done | exact IH].
Qed.

Lemma consume_trail p w : trail false w (snd (ResourcePool.consume p w)).
Proof.
  destruct (poolHeap w !! p) as [o |] eqn:Hp.
  - destruct (Z_lt_le_dec 0 (currentPoolSize o)) as [Hlt | Hle].
    + destruct (cycles o) as [t |] eqn:Hc.
      * rewrite (consume_recorded p o t w Hp Hlt Hc). cbn.
        eapply trail_one; [by eapply prim_draw | done].
      * rewrite (consume_idle p o w Hp Hlt Hc). cbn.
        eapply trail_one; [by eapply prim_arm | done].
    + rewrite (consume_exhausted p o w Hp Hle). apply trail_refl.
  - rewrite (consume_dangling p w Hp). apply trail_refl.
Qed.

Lemma destroy_trail p w : trail true w (ResourcePool.destroy p w).
Proof.
  destruct (poolHeap w !! p) as [o |] eqn:Hp.
  - destruct (cycles o) as [t |] eqn:Hc.
    + rewrite (destroy_recorded p o t w Hp Hc).
      eapply trail_one; [by eapply prim_cancel | done].
    + rewrite (destroy_idle p o w Hp Hc). apply trail_refl.
  - rewrite (destroy_dangling p w Hp). apply trail_refl.
Qed.

Lemma fire_trail t w : trail false w (Host.fire t w).
Proof.
  destruct (timers w !! t) as [to |] eqn:Ht.
  - destruct (poolHeap w !! target to) as [o |] eqn:Hp.
    + rewrite (fire_pending t to o w Ht Hp). cbn zeta.
      destruct (ResourcePool.exhausted o).
      * match goal with |- context [Host.call ?f ?w1] =>
          destruct (call_shape f w1) as (evs & Hevs & ->) end.
        cbn. rewrite <- app_assoc. cbn.
        eapply trail_one; [by eapply prim_elapse | done].
      * eapply trail_one; [| done].
        by apply (prim_elapse w t to o []).
    + rewrite (fire_dangling t to w Ht Hp).
      eapply trail_one; [by eapply prim_drop | done].
  - rewrite (fire_idle t w Ht). apply trail_refl.
Qed.

Lemma fresh_pool_free (w : World) : poolHeap w !! fresh (dom (poolHeap w)) = None.
Proof. apply not_elem_of_dom. apply is_fresh. Qed.

Lemma fresh_group_free (w : World) : groupHeap w !! fresh (dom (groupHeap w)) = None.
Proof. apply not_elem_of_dom. apply is_fresh. Qed.

(** *** Numbers *)

Lemma doubleMinusOne_exact x : x <= 2 ^ 53 -> doubleMinusOne x = x - 1.
Proof.
  intros H. unfold doubleMinusOne.
  destruct (Z.leb_spec x (2 ^ 53)); [done | lia].
Qed.

Lemma doubleMinusOne_bounds x : 0 < x -> 0 <= doubleMinusOne x <= x.
Proof.
  intros H. unfold doubleMinusOne.
  destruct (Z.leb_spec x (2 ^ 53)); [lia |].
  destruct ((x <? 2 ^ 54) && Z.odd (x / 2)); lia.
Qed.

Lemma pow2_pos e : 0 <= e -> 0 < 2 ^ e.
Proof. intros. apply Z.pow_pos_nonneg; lia. Qed.

(** Above 2^53: significand, exponent and what is cut off. *)
Lemma roundToDouble_shape a :
  2 ^ 53 < a ->
  exists e P q r,
    1 <= e /\ P = 2 ^ e /\ 2 ^ (e - 1) * 2 = P /\ Z.log2 a = e + 52 /\
    a = q * P + r /\ 0 <= r < P /\ 2 ^ 52 <= q < 2 ^ 53 /\
    roundToDouble a =
      if (2 ^ (e - 1) <? r) || ((r =? 2 ^ (e - 1)) && Z.odd q) then (q + 1) * P
      else q * P.
Proof.
  intros Ha.
  assert (0 < a) as Hpos by lia.
  pose proof (Z.log2_spec a Hpos) as [Hlo Hhi].
  assert (53 <= Z.log2 a) as HL.
  { apply Z.log2_le_pow2; lia. }
  set (e := Z.log2 a - 52) in *.
  assert (1 <= e) as He by lia.
  assert (0 < 2 ^ e) as HP by (apply pow2_pos; lia).
  assert (2 ^ Z.log2 a = 2 ^ 52 * 2 ^ e) as E1.
  { rewrite <- Z.pow_add_r by lia. f_equal. lia. }
  assert (2 ^ Z.succ (Z.log2 a) = 2 ^ 53 * 2 ^ e) as E2.
  { rewrite <- Z.pow_add_r by lia. f_equal. lia. }
  assert (2 ^ (e - 1) * 2 = 2 ^ e) as E3.
  { replace e with (Z.succ (e - 1)) at 2 by lia. rewrite Z.pow_succ_r by lia. lia. }
  exists e, (2 ^ e), (a / 2 ^ e), (a mod 2 ^ e).
  pose proof (Z.div_mod a (2 ^ e)) as Hdm.
  pose proof (Z.mod_pos_bound a (2 ^ e) HP) as Hr.
  split; [easy|]. split; [easy|]. split; [easy|]. split; [lia|].
  split; [lia|]. split; [easy|]. split.
  - rewrite E1 in Hlo. rewrite E2 in Hhi. nia.
  - unfold roundToDouble. destruct (Z.leb_spec a (2 ^ 53)); [lia|]. reflexivity.
Qed.

Lemma isDouble_shape x :
  2 ^ 53 < x -> isDouble x ->
  exists e q, 1 <= e /\ Z.log2 x = e + 52 /\ x = q * 2 ^ e /\ 2 ^ 52 <= q < 2 ^ 53.
Proof.
  intros Hx Hd.
  destruct (roundToDouble_shape x Hx)
    as (e & P & q & r & He & -> & Hhalf & Hlog & Hxq & Hr & Hq & Hround).
  assert (0 < 2 ^ (e - 1)) as Hh by (apply pow2_pos; lia).
  exists e, q. split; [easy |]. split; [easy |]. split; [| easy].
  rewrite Hd in Hround.
  destruct ((2 ^ (e - 1) <? r) || ((r =? 2 ^ (e - 1)) && Z.odd q)) eqn:Hup.
  - apply orb_true_iff in Hup as [Hup | Hup].
    + apply Z.ltb_lt in Hup. nia.
    + apply andb_true_iff in Hup as [Hup _]. apply Z.eqb_eq in Hup. nia.
  - lia.
Qed.

Lemma odd_minus_one q : Z.odd (q - 1) = negb (Z.odd q).
Proof.
  replace (q - 1) with (Z.pred q) by lia.
  rewrite Z.odd_pred. symmetry; apply Z.negb_odd.
Qed.

(** On the value of a double that is at least 1, [doubleMinusOne] is the
    subtraction of doubles: the exact difference, rounded. *)
Lemma doubleMinusOne_rounds x :
  1 <= x -> isDouble x -> doubleMinusOne x = roundToDouble (x - 1).
Proof.
  intros H1 Hd. unfold doubleMinusOne.
  destruct (Z.leb_spec x (2 ^ 53)) as [Hsmall | Hbig].
  { unfold roundToDouble. destruct (Z.leb_spec (x - 1) (2 ^ 53)); [easy | lia]. }
  destruct (isDouble_shape x Hbig Hd) as (e & q & He & Hlog & Hxq & Hq).
  assert (0 < 2 ^ e) as HP by (apply pow2_pos; lia).
  assert (2 ^ (e - 1) * 2 = 2 ^ e) as Hhalf.
  { replace e with (Z.succ (e - 1)) at 2 by lia. rewrite Z.pow_succ_r by lia. lia. }
  assert (2 ^ 53 < x - 1) as Hbig1 by nia.
  destruct (roundToDouble_shape (x - 1) Hbig1)
    as (e' & P' & q' & r' & He' & -> & Hhalf' & Hlog' & Hxq' & Hr' & Hq' & ->).
  assert (0 < 2 ^ e') as HP' by (apply pow2_pos; lia).
  assert (0 < 2 ^ (e' - 1)) as Hh' by (apply pow2_pos; lia).
  assert (e' = e \/ e' = e - 1) as [-> | ->].
  { assert (Z.log2 (x - 1) <= Z.log2 x) by (apply Z.log2_le_mono; lia).
    assert (Z.log2 x <= Z.log2 (2 * (x - 1))) by (apply Z.log2_le_mono; lia).
    rewrite Z.log2_double in * by lia. lia. }
  - assert (q - q' = 1) as Hqq.
    { assert ((q - q') * 2 ^ e = r' + 1) as Hm by lia.
      assert (0 < q - q') by nia. assert (q - q' < 2) by nia. lia. }
    assert (q' = q - 1 /\ r' = 2 ^ e - 1) as [-> ->] by nia.
    destruct (Z.eq_dec e 1) as [-> | Hne].
    + change (2 ^ 1) with 2 in *. change (2 ^ (1 - 1)) with 1.
      change (2 - 1) with 1. change (1 <? 1) with false.
      change (1 =? 1) with true. cbn [orb andb].
      rewrite odd_minus_one.
      assert (x / 2 = q) as -> by (symmetry; apply Z.div_unique with 0; lia).
      destruct (Z.ltb_spec x (2 ^ 54)); [| lia]. cbn [andb].
      destruct (Z.odd q); cbn [negb]; lia.
    + assert (2 <= e) as He2 by lia.
      assert (4 <= 2 ^ e).
      { change 4 with (2 ^ 2). apply Z.pow_le_mono_r; lia. }
      destruct (Z.ltb_spec x (2 ^ 54)); [nia |]. cbn [andb].
      destruct (Z.ltb_spec (2 ^ (e - 1)) (2 ^ e - 1)); [| lia].
      cbn [orb]. lia.
  - assert (2 ^ (e - 1) * 2 = 2 ^ e) as Hhalf2 by exact Hhalf.
    assert (2 * q - q' = 1) as Hqq.
    { assert ((2 * q - q') * 2 ^ (e - 1) = r' + 1) as Hm by lia.
      assert (0 < 2 * q - q') by nia. assert (2 * q - q' < 2) by nia. lia. }
    assert (q' = 2 * q - 1 /\ r' = 2 ^ (e - 1) - 1) as [-> ->] by nia.
    assert (q = 2 ^ 52) as -> by lia.
    destruct (Z.ltb_spec x (2 ^ 54)); [nia |]. cbn [andb].
    destruct (Z.eq_dec e 2) as [-> | Hne].
    + subst x. vm_compute. reflexivity.
    + assert (4 <= 2 ^ (e - 1)).
      { change 4 with (2 ^ 2). apply Z.pow_le_mono_r; lia. }
      destruct (Z.ltb_spec (2 ^ (e - 1 - 1)) (2 ^ (e - 1) - 1)); [| lia].
      cbn [orb]. lia.
Qed.

(** The counter stays the value of a double. *)
Lemma doubleMinusOne_isDouble x :
  1 <= x -> isDouble x -> isDouble (doubleMinusOne x).
Proof.
  intros H1 Hd. unfold doubleMinusOne.
  destruct (Z.leb_spec x (2 ^ 53)) as [Hsmall | Hbig].
  { unfold isDouble, roundToDouble.
    destruct (Z.leb_spec (x - 1) (2 ^ 53)); [easy | lia]. }
  destruct ((x <? 2 ^ 54) && Z.odd (x / 2)) eqn:Hcase; [| exact Hd].
  apply andb_true_iff in Hcase as [Hlt _]. apply Z.ltb_lt in Hlt.
  destruct (isDouble_shape x Hbig Hd) as (e & q & He & Hlog & Hxq & Hq).
  assert (e = 1) as ->.
  { assert (Z.log2 x = 53) as Hl; [| lia].
    apply Z.log2_unique; [lia |]. change (Z.succ 53) with 54. lia. }
  change (2 ^ 1) with 2 in Hxq.
  unfold isDouble, roundToDouble.
  destruct (Z.leb_spec (x - 2) (2 ^ 53)) as [| Hbig2]; [easy |].
  assert (Z.log2 (x - 2) = 53) as ->.
  { apply Z.log2_unique; [lia |]. change (Z.succ 53) with 54. lia. }
  change (53 - 52) with 1. change (2 ^ 1) with 2. change (2 ^ (1 - 1)) with 1.
  assert ((x - 2) mod 2 = 0) as ->.
  { symmetry. apply Z.mod_unique with (q - 1); lia. }
  change (1 <? 0) with false. change (0 =? 1) with false. cbn [orb andb].
  assert ((x - 2) / 2 = q - 1) as ->.
  { symmetry. apply Z.div_unique with 0; lia. }
  lia.
Qed.

Lemma timerDelay_in_range ms :
  1 <= ms <= TIMEOUT_MAX -> timerDelay ms = ms.
Proof.
  intros [H1 H2]. unfold timerDelay.
  apply Z.leb_le in H1, H2. by rewrite H1, H2.
Qed.

Lemma timerDelay_above ms : TIMEOUT_MAX < ms -> timerDelay ms = 1.
Proof.
  intros H. unfold timerDelay.
  apply Z.leb_gt in H. rewrite H. by rewrite andb_false_r.
Qed.

Lemma Qle_bool_false (a b : Q) : Qle_bool a b = false <-> (b < a)%Q.
Proof.
  split.
  - intros H. apply Qnot_le_lt. intros Hle.
    apply Qle_bool_iff in Hle. congruence.
  - intros H. destruct (Qle_bool a b) eqn:E; [| done].
    apply Qle_bool_iff in E. exfalso. by apply (Qlt_not_le _ _ H).
Qed.

Lemma isPositive_number {Fn} (q : Q) :
  utils.isPositive (Fn:=Fn) (JsNumber q) = Normal true <-> (0 < q)%Q.
Proof.
  cbn. rewrite <- Qle_bool_false. split.
  - intros [= H]. by apply negb_true_iff.
  - intros ->. done.
Qed.

Lemma truncate_integer (q : Q) (z : Z) :
  (q == inject_Z z)%Q -> utils.truncate q = z.
Proof.
  unfold utils.truncate, Qeq, inject_Z. cbn. intros Hz.
  rewrite Z.mul_1_r in Hz. rewrite Hz.
  rewrite Z.quot_mul; lia.
Qed.

Lemma exponentNotation_integer (q : Q) (z : Z) :
  (q == inject_Z z)%Q ->
  utils.exponentNotation q = false <-> - 10 ^ 21 < z < 10 ^ 21.
Proof.
  intros Hz. unfold utils.exponentNotation.
  rewrite !orb_false_iff, !Qle_bool_false.
  unfold utils.exponentFrom, utils.decimalFrom.
  split.
  - intros [[H1 H2] _]. rewrite Hz in H1, H2.
    unfold Qlt in H1, H2. cbn in H1, H2. lia.
  - intros [H1 H2]. split; [split |].
    + rewrite Hz. unfold Qlt. cbn. lia.
    + rewrite Hz. unfold Qlt. cbn. lia.
    + destruct (Z.eq_dec z 0) as [-> | Hne].
      * apply Qeq_bool_iff in Hz. change (inject_Z 0) with 0%Q in Hz.
        by rewrite Hz.
      * rewrite !andb_false_iff, !negb_false_iff.
        destruct (Z_lt_le_dec 0 z) as [Hpos | Hneg].
        -- left. right. apply Qle_bool_iff.
           rewrite Hz. unfold Qle. cbn. lia.
        -- right. apply Qle_bool_iff.
           rewrite Hz. unfold Qle. cbn. lia.
Qed.

(** [isInt] accepts a finite number exactly when it is an integer below
    10^21 in magnitude. *)
Lemma isInt_number {Fn} (q : Q) :
  utils.isInt (Fn:=Fn) (JsNumber q) = Normal true <->
  exists z : Z, (q == inject_Z z)%Q /\ - 10 ^ 21 < z < 10 ^ 21.
Proof.
  cbn. unfold utils.parseInt. split.
  - intros [= H].
    destruct (utils.exponentNotation q) eqn:E; [done |]. cbn in H.
    apply Qeq_bool_iff in H.
    exists (utils.truncate q). split; [done |].
    by apply (exponentNotation_integer q).
  - intros (z & Hz & Hb).
    apply (exponentNotation_integer q z Hz) in Hb. rewrite Hb. cbn.
    rewrite (truncate_integer q z Hz). f_equal. by apply Qeq_bool_iff.
Qed.

(** The checks themselves throw none of the package's errors. *)
Lemma isPositive_not_Throw {Fn} (v : JsValue Fn) msg :
  utils.isPositive v <> Throw msg.
Proof. destruct v as [| | | | | | [|] ?]; done. Qed.

Lemma isInt_not_Throw {Fn} (v : JsValue Fn) msg : utils.isInt v <> Throw msg.
Proof. destruct v as [| | | | | | ? [|]]; done. Qed.

Lemma isInt_accepts_numbers_only {Fn} (v : JsValue Fn) :
  utils.isInt v = Normal true -> exists q, v = JsNumber q.
Proof.
  destruct v as [q | | | | | | positive printed]; try done; [by exists q |].
  cbn. by destruct printed.
Qed.

Lemma accepted_number {Fn} (v : JsValue Fn) :
  utils.isPositive v = Normal true -> utils.isInt v = Normal true ->
  exists q, v = JsNumber q /\
    (q == inject_Z (ResourcePool.toInteger v))%Q /\
    0 < ResourcePool.toInteger v < 10 ^ 21.
Proof.
  intros Hpos Hint.
  destruct (isInt_accepts_numbers_only v Hint) as [q ->].
  apply isPositive_number in Hpos.
  apply isInt_number in Hint as (z & Hz & Hb).
  exists q. cbn. rewrite (truncate_integer q z Hz).
  split; [done |]. split; [done |].
  rewrite Hz in Hpos. unfold Qlt in Hpos. cbn in Hpos. lia.
Qed.

Lemma accepts_number {Fn} (q : Q) (z : Z) :
  (q == inject_Z z)%Q -> 0 < z < 10 ^ 21 ->
  utils.isPositive (Fn:=Fn) (JsNumber q) = Normal true /\
  utils.isInt (Fn:=Fn) (JsNumber q) = Normal true /\
  ResourcePool.toInteger (Fn:=Fn) (JsNumber q) = z.
Proof.
  intros Hz Hb. split; [| split].
  - apply isPositive_number. rewrite Hz. unfold Qlt. cbn. lia.
  - apply isInt_number. exists z. split; [done | lia].
  - cbn. by apply truncate_integer.
Qed.

Lemma validate_ok {Fn} (poolSize interval : JsValue Fn) callback size ms f :
  ResourcePool.validate poolSize interval callback = Normal (size, ms, f) ->
  exists q r,
    poolSize = JsNumber q /\ interval = JsNumber r /\ callback = JsFunction f /\
    (q == inject_Z size)%Q /\ (r == inject_Z ms)%Q /\ 0 < size /\ 0 < ms /\
    size < 10 ^ 21 /\ ms < 10 ^ 21.
Proof.
  unfold ResourcePool.validate.
  destruct (utils.isPositive poolSize) as [[|] | |] eqn:E1; cbn; try done.
  destruct (utils.isInt poolSize) as [[|] | |] eqn:E2; cbn; try done.
  destruct (utils.isPositive interval) as [[|] | |] eqn:E3; cbn; try done.
  destruct (utils.isInt interval) as [[|] | |] eqn:E4; cbn; try done.
  destruct callback as [| | | | f' | |]; try done.
  intros [= <- <- <-].
  destruct (accepted_number poolSize E1 E2) as (q & -> & Hq & Hqb).
  destruct (accepted_number interval E3 E4) as (r & -> & Hr & Hrb).
  exists q, r. repeat split; try done; lia.
Qed.

Lemma constructor_trail {Fn} (poolSize interval : JsValue Fn) callback w :
  trail false w (snd (ResourcePool.constructor poolSize interval callback w)).
Proof.
  unfold ResourcePool.constructor.
  destruct (ResourcePool.validate poolSize interval callback)
    as [[[size ms] f] | msg | e] eqn:E; cbn; [| apply trail_refl ..].
  apply validate_ok in E as (q & r & _ & _ & _ & _ & _ & Hsize & Hms & _).
  eapply trail_one; [| done].
  apply prim_alloc; [apply fresh_pool_free | done | done | done | done].
Qed.

Lemma consumeEach_trail l w : trail false w (ResourceGroup.consumeEach l w).
Proof.
  revert w. induction l as [| p l IH]; intros w; [apply trail_refl |].
  cbn. eapply trail_app; [apply consume_trail | apply IH].
Qed.

Lemma destroyEach_trail l w : trail true w (ResourceGroup.destroyEach l w).
Proof.
  revert w. induction l as [| p l IH]; intros w; [apply trail_refl |].
  cbn. eapply trail_app; [apply destroy_trail | apply IH].
Qed.

Lemma group_consume_trail g w : trail false w (snd (ResourceGroup.consume g w)).
Proof.
  unfold ResourceGroup.consume.
  destruct (groupHeap w !! g) as [G |]; [| apply trail_refl].
  destruct (ResourceGroup.exhausted G w) as [[|] | msg | e]; cbn;
    [apply trail_refl | apply consumeEach_trail | apply trail_refl ..].
Qed.

Lemma group_destroy_trail g w : trail true w (ResourceGroup.destroy g w).
Proof.
  unfold ResourceGroup.destroy.
  destruct (groupHeap w !! g) as [G |]; [apply destroyEach_trail | apply trail_refl].
Qed.

Lemma group_constructor_trail callback w :
  trail false w (snd (ResourceGroup.constructor callback w)).
Proof.
  destruct callback as [| | | | name | |]; cbn; try apply trail_refl.
  eapply trail_one; [| done]. apply prim_group, fresh_group_free.
Qed.

Lemma group_add_trail {Fn} g (poolSize interval : JsValue Fn) w :
  trail false w (snd (ResourceGroup.add g poolSize interval w)).
Proof.
  unfold ResourceGroup.add.
  destruct (ResourceGroup.guards poolSize interval); cbn; [| apply trail_refl ..].
  destruct (groupHeap w !! g) as [G |] eqn:Hg; [| apply trail_refl].
  unfold ResourcePool.constructor.
  destruct (ResourcePool.validate poolSize interval (JsFunction (Relay g)))
    as [[[size ms] f] | msg | e] eqn:E; cbn; [| apply trail_refl ..].
  apply validate_ok in E as (q & r & _ & _ & _ & _ & _ & Hsize & Hms & _).
  eapply trail_one; [| done].
  apply prim_add; [done | apply fresh_pool_free | done | done | done | done].
Qed.

Lemma exec_trail op w : trail (isDestroy op) w (exec op w).
Proof.
  destruct op; cbn [exec isDestroy].
  - apply constructor_trail.
  - apply consume_trail.
  - apply destroy_trail.
  - apply fire_trail.
  - apply group_constructor_trail.
  - apply group_add_trail.
  - apply group_consume_trail.
  - apply group_destroy_trail.
Qed.

Lemma run_snoc ops op w : run (ops ++ [op]) w = exec op (run ops w).
Proof. unfold run. by rewrite fold_left_app. Qed.

Lemma run_app ops1 ops2 w : run (ops1 ++ ops2) w = run ops2 (run ops1 w).
Proof. unfold run. by rewrite fold_left_app. Qed.

Lemma run_trail ops w : trail true w (run ops w).
Proof.
  revert w. induction ops as [| op ops IH]; intros w; [apply trail_refl |].
  cbn. eapply trail_app; [| apply IH].
  destruct (isDestroy op) eqn:E.
  - rewrite <- E. apply exec_trail.
  - apply trail_weaken. rewrite <- E. apply exec_trail.
Qed.

Lemma run_trail_without_destroy ops w :
  forallb (fun op => negb (isDestroy op)) ops = true ->
  trail false w (run ops w).
Proof.
  revert w. induction ops as [| op ops IH]; intros w H; [apply trail_refl |].
  cbn in H. apply andb_true_iff in H as [H1 H2].
  cbn. eapply trail_app; [| by apply IH].
  apply negb_true_iff in H1. rewrite <- H1. apply exec_trail.
Qed.

(** ** The invariants are kept by every elementary move *)

Lemma poolsBounded_prim b w w' :
  prim b w w' -> poolsBounded w -> poolsBounded w'.
Proof.
  unfold poolsBounded.
  destruct 1 as [w p o Hp Hc Hfull Hpos Hms | w p o t Hp Hlt Hc | w p o Hp Hlt Hc
    | w t to o evs Ht Hp Hevs | w p o t Hp Hc | w t to Ht Hp | w g name Hg
    | w g G p o Hg Hp Hc Hfull Hpos Hms];
    intros Inv q oq Hq; cbn in Hq; try (by apply (Inv q));
    heap_cases Hq; try (by apply (Inv q)); cbn.
  - lia.
  - specialize (Inv _ _ Hp). pose proof (doubleMinusOne_bounds _ Hlt). lia.
  - specialize (Inv _ _ Hp). pose proof (doubleMinusOne_bounds _ Hlt). lia.
  - specialize (Inv _ _ Hp). lia.
  - lia.
Qed.

Lemma idleFull_prim b w w' :
  prim b w w' -> idleFull w -> idleFull w'.
Proof.
  unfold idleFull.
  destruct 1 as [w p o Hp Hc Hfull Hpos Hms | w p o t Hp Hlt Hc | w p o Hp Hlt Hc
    | w t to o evs Ht Hp Hevs | w p o t Hp Hc | w t to Ht Hp | w g name Hg
    | w g G p o Hg Hp Hc Hfull Hpos Hms];
    intros Inv q oq Hq Hnone; cbn in Hq; try (by apply (Inv q));
    heap_cases Hq; try (by apply (Inv q)); cbn in *; congruence.
Qed.

Lemma timersRecorded_prim b w w' :
  prim b w w' -> timersRecorded w -> timersRecorded w'.
Proof.
  unfold timersRecorded.
  destruct 1 as [w p o Hp Hc Hfull Hpos Hms | w p o t Hp Hlt Hc | w p o Hp Hlt Hc
    | w t to o evs Ht Hp Hevs | w p o t Hp Hc | w t to Ht Hp | w g name Hg
    | w g G p o Hg Hp Hc Hfull Hpos Hms];
    intros Inv u tu Hu; cbn in *.
  - destruct (Inv _ _ Hu) as (ou & Hou & Hcu).
    exists ou. split; [| done]. rewrite lookup_insert_ne; [done | congruence].
  - destruct (Inv _ _ Hu) as (ou & Hou & Hcu).
    destruct (decide (p = target tu)) as [Heq | Hne].
    + rewrite <- Heq in *. rewrite lookup_insert_eq.
      eexists. split; [done |]. cbn. congruence.
    + exists ou. by rewrite lookup_insert_ne.
  - apply lookup_insert_Some in Hu as [[<- <-] | [Hne Hu]]; cbn.
    + rewrite lookup_insert_eq. by eexists.
    + destruct (Inv _ _ Hu) as (ou & Hou & Hcu).
      exists ou. split; [| done].
      rewrite lookup_insert_ne; [done | congruence].
  - apply lookup_delete_Some in Hu as [Hne Hu].
    destruct (Inv _ _ Hu) as (ou & Hou & Hcu).
    destruct (Inv _ _ Ht) as (ot & Hot & Hct).
    exists ou. split; [| done].
    rewrite lookup_insert_ne; [done | congruence].
  - apply lookup_delete_Some in Hu as [Hne Hu]. by apply Inv.
  - apply lookup_delete_Some in Hu as [Hne Hu]. by apply Inv.
  - by apply Inv.
  - destruct (Inv _ _ Hu) as (ou & Hou & Hcu).
    exists ou. split; [| done]. rewrite lookup_insert_ne; [done | congruence].
Qed.

Lemma handlesIssued_prim b w w' :
  prim b w w' -> handlesIssued w -> handlesIssued w'.
Proof.
  unfold handlesIssued.
  destruct 1 as [w p o Hp Hc Hfull Hpos Hms | w p o t Hp Hlt Hc | w p o Hp Hlt Hc
    | w t to o evs Ht Hp Hevs | w p o t Hp Hc | w t to Ht Hp | w g name Hg
    | w g G p o Hg Hp Hc Hfull Hpos Hms];
    intros [InvT InvR]; cbn; (split; [intros u tu Hu | intros q oq u Hq Hu]);
    try (by eapply InvT); try (by eapply InvR).
  - heap_cases Hq; [congruence | by eapply InvR].
  - heap_cases Hq; [cbn in Hu; by eapply InvR; [exact Hp | congruence] | by eapply InvR].
  - apply lookup_insert_Some in Hu as [[<- <-] | [Hne Hu]]; [lia |].
    specialize (InvT _ _ Hu). lia.
  - heap_cases Hq; [cbn in Hu; injection Hu as <-; lia |].
    specialize (InvR _ _ _ Hq Hu). lia.
  - apply lookup_delete_Some in Hu as [Hne Hu]. by eapply InvT.
  - heap_cases Hq; [done | by eapply InvR].
  - apply lookup_delete_Some in Hu as [Hne Hu]. by eapply InvT.
  - apply lookup_delete_Some in Hu as [Hne Hu]. by eapply InvT.
  - heap_cases Hq; [congruence | by eapply InvR].
Qed.

Lemma recordsPending_prim w w' :
  prim false w w' -> handlesIssued w -> recordsPending w -> recordsPending w'.
Proof.
  unfold recordsPending, handlesIssued.
  intros Hprim. remember false as b eqn:Hb. revert Hb.
  destruct Hprim as [w p o Hp Hc Hfull Hpos Hms | w p o t Hp Hlt Hc | w p o Hp Hlt Hc
    | w t to o evs Ht Hp Hevs | w p o t Hp Hc | w t to Ht Hp | w g name Hg
    | w g G p o Hg Hp Hc Hfull Hpos Hms];
    intros Hb [InvT InvR] Inv q oq u Hq Hu; try discriminate; cbn in *.
  - heap_cases Hq; [congruence | by eapply Inv].
  - heap_cases Hq; [| by eapply Inv].
    cbn in Hu. eapply Inv; [exact Hp | congruence].
  - heap_cases Hq.
    + cbn in Hu. injection Hu as <-. rewrite lookup_insert_eq. by eexists.
    + specialize (InvR _ _ _ Hq Hu).
      rewrite lookup_insert_ne; [by eapply Inv | lia].
  - heap_cases Hq; [done |].
    destruct (Inv _ _ _ Hq Hu) as (tu & Htu & Htarget).
    exists tu. split; [| done].
    rewrite lookup_delete_ne; [done | congruence].
  - destruct (Inv _ _ _ Hq Hu) as (tu & Htu & Htarget).
    exists tu. split; [| done].
    rewrite lookup_delete_ne; [done | congruence].
  - by eapply Inv.
  - heap_cases Hq; [congruence | by eapply Inv].
Qed.

Lemma groupsOwnPools_prim b w w' :
  prim b w w' -> groupsOwnPools w -> groupsOwnPools w'.
Proof.
  unfold groupsOwnPools.
  destruct 1 as [w p o Hp Hc Hfull Hpos Hms | w p o t Hp Hlt Hc | w p o Hp Hlt Hc
    | w t to o evs Ht Hp Hevs | w p o t Hp Hc | w t to Ht Hp | w g name Hg
    | w g G p o Hg Hp Hc Hfull Hpos Hms];
    intros Inv h H Hh; cbn in *; try (by apply (Inv _ _ Hh)).
  - destruct (Inv _ _ Hh) as [Hnd Hin]. split; [done |].
    intros q Hq. apply lookup_insert_is_Some'. right. by apply Hin.
  - destruct (Inv _ _ Hh) as [Hnd Hin]. split; [done |].
    intros q Hq. apply lookup_insert_is_Some'. right. by apply Hin.
  - destruct (Inv _ _ Hh) as [Hnd Hin]. split; [done |].
    intros q Hq. apply lookup_insert_is_Some'. right. by apply Hin.
  - destruct (Inv _ _ Hh) as [Hnd Hin]. split; [done |].
    intros q Hq. apply lookup_insert_is_Some'. right. by apply Hin.
  - apply lookup_insert_Some in Hh as [[<- <-] | [Hne Hh]]; [| by apply (Inv _ _ Hh)].
    cbn. split; [constructor |]. intros q Hq. by apply elem_of_nil in Hq.
  - apply lookup_insert_Some in Hh as [[<- <-] | [Hne Hh]]; cbn.
    + destruct (Inv _ _ Hg) as [Hnd Hin]. split.
      * apply NoDup_app. split; [done |]. split; [| apply NoDup_singleton].
        intros q Hq Hq'. apply list_elem_of_singleton in Hq' as ->.
        destruct (Hin _ Hq) as [x Hx]. congruence.
      * intros q Hq. apply lookup_insert_is_Some'.
        apply elem_of_app in Hq as [Hq | Hq]; [right; by apply Hin |].
        left. by apply list_elem_of_singleton in Hq.
    + destruct (Inv _ _ Hh) as [Hnd Hin]. split; [done |].
      intros q Hq. apply lookup_insert_is_Some'. right. by apply Hin.
Qed.

Lemma armed_insert_other (w : World) p q t ms ph gh n tr :
  p <> q ->
  ~ armed w p ->
  ~ armed (mkWorld ph gh (<[t := mkTimeout q ms]> (timers w)) n tr) p.
Proof.
  intros Hne Hna (u & tu & Hu & Htarget). cbn in Hu.
  apply lookup_insert_Some in Hu as [[<- <-] | [_ Hu]]; [by cbn in Htarget |].
  apply Hna. by exists u, tu.
Qed.

Lemma armed_delete (w : World) p t ph gh n tr :
  ~ armed w p ->
  ~ armed (mkWorld ph gh (delete t (timers w)) n tr) p.
Proof.
  intros Hna (u & tu & Hu & Htarget). cbn in Hu.
  apply lookup_delete_Some in Hu as [_ Hu].
  apply Hna. by exists u, tu.
Qed.

Lemma quietFor_refl p w : quietFor p w w.
Proof. exists []. split; [by rewrite app_nil_r | apply not_elem_of_nil]. Qed.

Lemma quietFor_same p w w' : trace w' = trace w -> quietFor p w w'.
Proof.
  intros H. exists []. split; [by rewrite app_nil_r | apply not_elem_of_nil].
Qed.

Lemma quietFor_trans p w1 w2 w3 :
  quietFor p w1 w2 -> quietFor p w2 w3 -> quietFor p w1 w3.
Proof.
  intros (e1 & H1 & N1) (e2 & H2 & N2). exists (e1 ++ e2). split.
  - by rewrite H2, H1, app_assoc.
  - rewrite elem_of_app. tauto.
Qed.

(** Once cancelled, a pool stays cancelled, its counter never goes up and
    its cycle never elapses. *)
Lemma cancelled_prim b w w' p :
  prim b w w' -> cancelled w p ->
  cancelled w' p /\
  ResourceGroup.poolRemaining w' p <= ResourceGroup.poolRemaining w p /\
  quietFor p w w'.
Proof.
  unfold cancelled, ResourceGroup.poolRemaining, ResourcePool.remaining.
  destruct 1 as [w q o Hq Hc Hfull Hpos Hms | w q o t Hq Hlt Hc | w q o Hq Hlt Hc
    | w t to o evs Ht Hq Hevs | w q o t Hq Hc | w t to Ht Hq | w g name Hg
    | w g G q o Hg Hq Hc Hfull Hpos Hms];
    intros [(op & tp & Hp & Hcp) Hna]; cbn.
  - assert (q <> p) by congruence. rewrite lookup_insert_ne by done. rewrite Hp.
    split; [| split; [lia | by apply quietFor_same]].
    split; [by exists op, tp |].
    intros (u & tu & Hu & Htarget). apply Hna. by exists u, tu.
  - split; [split |].
    + destruct (decide (q = p)) as [-> | Hne].
      * rewrite lookup_insert_eq. eexists _, tp. split; [done |]. cbn. congruence.
      * rewrite lookup_insert_ne by done. by exists op, tp.
    + intros (u & tu & Hu & Htarget). apply Hna. by exists u, tu.
    + split; [| by apply quietFor_same].
      destruct (decide (q = p)) as [-> | Hne].
      * rewrite lookup_insert_eq, Hp. cbn.
        assert (o = op) as -> by congruence.
        pose proof (doubleMinusOne_bounds _ Hlt). lia.
      * rewrite lookup_insert_ne by done. rewrite Hp. lia.
  - assert (q <> p) by congruence. rewrite lookup_insert_ne by done. rewrite Hp.
    split; [| split; [lia | by apply quietFor_same]].
    split; [by exists op, tp |].
    apply (armed_insert_other w p q); [congruence | done].
  - assert (target to <> p) as Hne.
    { intros Heq. apply Hna. by exists t, to. }
    rewrite lookup_insert_ne by done. rewrite Hp.
    split; [| split; [lia |]].
    + split; [by exists op, tp |]. by apply armed_delete.
    + eexists. split; [done |]. cbn. rewrite elem_of_cons. intros [He | He].
      * congruence.
      * rewrite Forall_forall in Hevs. by apply Hevs in He.
  - rewrite Hp. split; [| split; [lia | by apply quietFor_same]].
    split; [by exists op, tp |]. by apply armed_delete.
  - rewrite Hp. split; [| split; [lia | by apply quietFor_same]].
    split; [by exists op, tp |]. by apply armed_delete.
  - rewrite Hp. split; [| split; [lia | by apply quietFor_same]].
    split; [by exists op, tp |].
    intros (u & tu & Hu & Htarget). apply Hna. by exists u, tu.
  - assert (q <> p) by congruence. rewrite lookup_insert_ne by done. rewrite Hp.
    split; [| split; [lia | by apply quietFor_same]].
    split; [by exists op, tp |].
    intros (u & tu & Hu & Htarget). apply Hna. by exists u, tu.
Qed.

Lemma cancelled_trail c w w' p :
  trail c w w' -> cancelled w p ->
  cancelled w' p /\
  ResourceGroup.poolRemaining w' p <= ResourceGroup.poolRemaining w p /\
  quietFor p w w'.
Proof.
  induction 1 as [w | b w1 w2 w3 Hp Hb _ IH]; intros Hc.
  - split; [done |]. split; [lia | apply quietFor_refl].
  - destruct (cancelled_prim _ _ _ _ Hp Hc) as (Hc2 & Hle2 & Hq2).
    destruct (IH Hc2) as (Hc3 & Hle3 & Hq3).
    split; [done |]. split; [lia | by eapply quietFor_trans].
Qed.

(** ** The invariants hold in every reachable state *)

Lemma poolsBounded_trail c w w' :
  trail c w w' -> poolsBounded w -> poolsBounded w'.
Proof. induction 1; eauto using poolsBounded_prim. Qed.

Lemma idleFull_trail c w w' : trail c w w' -> idleFull w -> idleFull w'.
Proof. induction 1; eauto using idleFull_prim. Qed.

Lemma timersRecorded_trail c w w' :
  trail c w w' -> timersRecorded w -> timersRecorded w'.
Proof. induction 1; eauto using timersRecorded_prim. Qed.

Lemma handlesIssued_trail c w w' :
  trail c w w' -> handlesIssued w -> handlesIssued w'.
Proof. induction 1; eauto using handlesIssued_prim. Qed.

Lemma groupsOwnPools_trail c w w' :
  trail c w w' -> groupsOwnPools w -> groupsOwnPools w'.
Proof. induction 1; eauto using groupsOwnPools_prim. Qed.

Lemma recordsPending_trail w w' :
  trail false w w' -> handlesIssued w -> recordsPending w -> recordsPending w'.
Proof.
  induction 1 as [| b w1 w2 w3 Hp Hb _ IH]; [done |].
  intros Hi Hr. destruct b; [by specialize (Hb eq_refl) |].
  apply IH; [by eapply handlesIssued_prim | by eapply recordsPending_prim].
Qed.

Lemma poolsBounded_init : poolsBounded init.
Proof. intros p o H. cbn [init poolHeap] in H. by rewrite lookup_empty in H. Qed.

Lemma idleFull_init : idleFull init.
Proof. intros p o H. cbn [init poolHeap] in H. by rewrite lookup_empty in H. Qed.

Lemma timersRecorded_init : timersRecorded init.
Proof. intros t to H. cbn [init timers] in H. by rewrite lookup_empty in H. Qed.

Lemma handlesIssued_init : handlesIssued init.
Proof. split; intros *; cbn [init poolHeap timers]; by rewrite lookup_empty. Qed.

Lemma recordsPending_init : recordsPending init.
Proof. intros p o t H. cbn [init poolHeap] in H. by rewrite lookup_empty in H. Qed.

Lemma groupsOwnPools_init : groupsOwnPools init.
Proof. intros g G H. cbn [init groupHeap] in H. by rewrite lookup_empty in H. Qed.

Lemma reachable_poolsBounded w : reachable w -> poolsBounded w.
Proof.
  intros [ops ->]. eapply poolsBounded_trail;
    [apply run_trail | apply poolsBounded_init].
Qed.

Lemma reachable_idleFull w : reachable w -> idleFull w.
Proof.
  intros [ops ->]. eapply idleFull_trail; [apply run_trail | apply idleFull_init].
Qed.

Lemma reachable_timersRecorded w : reachable w -> timersRecorded w.
Proof.
  intros [ops ->]. eapply timersRecorded_trail;
    [apply run_trail | apply timersRecorded_init].
Qed.

Lemma reachable_groupsOwnPools w : reachable w -> groupsOwnPools w.
Proof.
  intros [ops ->]. eapply groupsOwnPools_trail;
    [apply run_trail | apply groupsOwnPools_init].
Qed.

Lemma reachableWithoutDestroy_recordsPending w :
  reachableWithoutDestroy w -> recordsPending w.
Proof.
  intros (ops & Hops & ->). eapply recordsPending_trail;
    [by apply run_trail_without_destroy | apply handlesIssued_init
    | apply recordsPending_init].
Qed.


Lemma recordedDrawn_prim b w w' :
  prim b w w' -> poolsBounded w -> recordedDrawn w -> recordedDrawn w'.
Proof.
  unfold recordedDrawn, poolsBounded.
  destruct 1 as [w p o Hp Hc Hfull Hpos Hms | w p o t Hp Hlt Hc | w p o Hp Hlt Hc
    | w t to o evs Ht Hp Hevs | w p o t Hp Hc | w t to Ht Hp | w g name Hg
    | w g G p o Hg Hp Hc Hfull Hpos Hms];
    intros Hb Inv q oq u Hq Hu Hsafe; cbn in Hq;
    try (by apply (Inv _ _ _ Hq Hu Hsafe));
    heap_cases Hq; try (by apply (Inv _ _ _ Hq Hu Hsafe)); cbn in *;
    try congruence.
  - specialize (Inv _ _ _ Hp Hu Hsafe).
    pose proof (doubleMinusOne_bounds _ Hlt). lia.
  - specialize (Hb _ _ Hp). rewrite doubleMinusOne_exact; lia.
Qed.

Lemma recordedDrawn_trail c w w' :
  trail c w w' -> poolsBounded w -> recordedDrawn w -> recordedDrawn w'.
Proof.
  induction 1 as [| b w1 w2 w3 Hp Hb _ IH]; [done |].
  intros Hpb Hr.
  apply IH; [by eapply poolsBounded_prim | by eapply recordedDrawn_prim].
Qed.

Lemma reachable_recordedDrawn w : reachable w -> recordedDrawn w.
Proof.
  intros [ops ->]. eapply recordedDrawn_trail;
    [apply run_trail | apply poolsBounded_init |].
  intros p o t H. cbn [init poolHeap] in H. by rewrite lookup_empty in H.
Qed.

Lemma recordsDistinct_prim b w w' :
  prim b w w' -> handlesIssued w -> recordsDistinct w -> recordsDistinct w'.
Proof.
  unfold recordsDistinct, handlesIssued.
  destruct 1 as [w p o Hp Hc Hfull Hpos Hms | w p o t Hp Hlt Hc | w p o Hp Hlt Hc
    | w t to o evs Ht Hp Hevs | w p o t Hp Hc | w t to Ht Hp | w g name Hg
    | w g G p o Hg Hp Hc Hfull Hpos Hms];
    intros [InvT InvR] Inv q1 q2 o1 o2 u H1 H2 Hu1 Hu2; cbn in H1, H2;
    try (by apply (Inv _ _ _ _ _ H1 H2 Hu1 Hu2));
    apply lookup_insert_Some in H1 as [[<- <-] | [Hne1 H1]];
    apply lookup_insert_Some in H2 as [[<- <-] | [Hne2 H2]];
    try done; try (by apply (Inv _ _ _ _ _ H1 H2 Hu1 Hu2));
    cbn in *; try congruence.
  - by apply (Inv _ _ _ _ _ Hp H2 Hu1 Hu2).
  - by apply (Inv _ _ _ _ _ H1 Hp Hu1 Hu2).
  - injection Hu1 as <-. specialize (InvR _ _ _ H2 Hu2). lia.
  - injection Hu2 as <-. specialize (InvR _ _ _ H1 Hu1). lia.
Qed.

Lemma recordsDistinct_trail c w w' :
  trail c w w' -> handlesIssued w -> recordsDistinct w -> recordsDistinct w'.
Proof.
  induction 1 as [| b w1 w2 w3 Hp Hb _ IH]; [done |].
  intros Hi Hr.
  apply IH; [by eapply handlesIssued_prim | by eapply recordsDistinct_prim].
Qed.

Lemma reachable_recordsDistinct w : reachable w -> recordsDistinct w.
Proof.
  intros [ops ->]. eapply recordsDistinct_trail;
    [apply run_trail | apply handlesIssued_init |].
  intros p q o o' t H. cbn [init poolHeap] in H. by rewrite lookup_empty in H.
Qed.

(** In a reachable state the handle in a pool's [cycles] entry is pending
    only if a cycle is armed for that same pool. *)
Lemma stale_record_not_pending w p o t :
  reachable w -> poolHeap w !! p = Some o -> cycles o = Some t ->
  ~ armed w p -> timers w !! t = None.
Proof.
  intros Hreach Hp Hc Hna.
  destruct (timers w !! t) as [to |] eqn:Ht; [| done].
  destruct (reachable_timersRecorded w Hreach t to Ht) as (o' & Ho' & Hc').
  pose proof (reachable_recordsDistinct w Hreach _ _ _ _ _ Hp Ho' Hc Hc') as Heq.
  exfalso. apply Hna. by exists t, to.
Qed.

(** ** ResourcePool.consume *)

Lemma consume_draws p o w :
  poolHeap w !! p = Some o -> 0 < currentPoolSize o ->
  exists w' o',
    ResourcePool.consume p w = (true, w') /\
    poolHeap w' !! p = Some o' /\
    currentPoolSize o' = doubleMinusOne (currentPoolSize o) /\
    poolSizes o' = poolSizes o.
Proof.
  intros Hp Hlt. destruct (cycles o) as [t |] eqn:Hc.
  - rewrite (consume_recorded p o t w Hp Hlt Hc).
    eexists _, _. split; [done |]. cbn. by rewrite lookup_insert_eq.
  - rewrite (consume_idle p o w Hp Hlt Hc).
    eexists _, _. split; [done |]. cbn. by rewrite lookup_insert_eq.
Qed.

Lemma consume_subtracts_doubles x :
  0 < x -> isDouble x ->
  doubleMinusOne x = roundToDouble (x - 1) /\ isDouble (doubleMinusOne x).
Proof.
  intros Hx Hd. split.
  - apply doubleMinusOne_rounds; [lia | done].
  - apply doubleMinusOne_isDouble; [lia | done].
Qed.

Lemma consumeTimes_drains p (c : nat) :
  forall w o,
    poolHeap w !! p = Some o -> currentPoolSize o = Z.of_nat c ->
    currentPoolSize o <= 2 ^ 53 ->
    exists w' o',
      ResourcePool.consumeTimes c p w = (repeat true c, w') /\
      poolHeap w' !! p = Some o' /\ currentPoolSize o' = 0.
Proof.
  induction c as [| c IH]; intros w o Hp Hcur Hsafe.
  - exists w, o. by cbn.
  - destruct (consume_draws p o w Hp) as (w1 & o1 & E1 & Hp1 & Hcur1 & _); [lia |].
    rewrite doubleMinusOne_exact in Hcur1 by done.
    destruct (IH w1 o1 Hp1) as (w2 & o2 & E2 & Hp2 & Hcur2); [lia | lia |].
    exists w2, o2. cbn [ResourcePool.consumeTimes repeat]. by rewrite E1, E2.
Qed.

(** C1, as the code has it.  An exhausted pool refuses and nothing changes.
    Otherwise [consume()] returns [true] and stores [remaining - 1], a
    subtraction of doubles (the exact difference rounded to the nearest
    double): it takes exactly one unit whenever [remaining] is at most
    2^53.  It arms a timeout exactly when the pool has no
    timer-handle record (no [cycles] entry): with a record, also one left
    behind by [destroy()], the host's queue is untouched.  From a full pool of
    capacity [c], at most 2^53, [c] calls in a row return [true] and leave
    [remaining = 0], and one more call returns [false] and changes nothing. *)
Theorem consume_takes_one_and_arms_without_record (w : World) (p : PoolId) (o : PoolObj) :
  poolHeap w !! p = Some o ->
  (ResourcePool.remaining o <= 0 -> ResourcePool.consume p w = (false, w)) /\
  (0 < ResourcePool.remaining o ->
     exists w' o',
       ResourcePool.consume p w = (true, w') /\
       poolHeap w' !! p = Some o' /\
       ResourcePool.remaining o' = doubleMinusOne (ResourcePool.remaining o) /\
       (isDouble (ResourcePool.remaining o) ->
          ResourcePool.remaining o' = roundToDouble (ResourcePool.remaining o - 1) /\
          isDouble (ResourcePool.remaining o')) /\
       (ResourcePool.remaining o <= 2 ^ 53 ->
          ResourcePool.remaining o' = ResourcePool.remaining o - 1) /\
       poolSizes o' = poolSizes o /\
       (cycles o = None ->
          cycles o' = Some (nextTimer w) /\
          timers w' =
            <[nextTimer w := mkTimeout p (timerDelay (intervals o))]> (timers w)) /\
       (forall t, cycles o = Some t ->
          cycles o' = Some t /\ timers w' = timers w)) /\
  (forall c : nat,
     poolSizes o = Z.of_nat c -> poolSizes o <= 2 ^ 53 ->
     ResourcePool.remaining o = poolSizes o ->
     exists w' o',
       ResourcePool.consumeTimes c p w = (repeat true c, w') /\
       poolHeap w' !! p = Some o' /\
       ResourcePool.remaining o' = 0 /\
       ResourcePool.consume p w' = (false, w')).
Proof.
  intros Hp. unfold ResourcePool.remaining. split; [| split].
  - intros Hle. by apply (consume_exhausted p o).
  - intros Hlt. destruct (cycles o) as [t |] eqn:Hc.
    + rewrite (consume_recorded p o t w Hp Hlt Hc).
      eexists _, _. split; [done |]. cbn. rewrite lookup_insert_eq.
      split; [done |]. cbn. split; [done |].
      split; [by apply consume_subtracts_doubles |].
      split; [apply doubleMinusOne_exact |].
      repeat split; try done. congruence.
    + rewrite (consume_idle p o w Hp Hlt Hc).
      eexists _, _. split; [done |]. cbn. rewrite lookup_insert_eq.
      split; [done |]. cbn. split; [done |].
      split; [by apply consume_subtracts_doubles |].
      split; [apply doubleMinusOne_exact |].
      repeat split; done.
  - intros c Hsize Hsafe Hfull.
    destruct (consumeTimes_drains p c w o Hp) as (w' & o' & E & Hp' & Hcur');
      [lia | lia |].
    exists w', o'. repeat split; try done.
    apply (consume_exhausted p o'); [done | lia].
Qed.

Lemma consume_takes_one_witness :
  poolHeap (run onePool init) !! 0%nat = Some (mkPool 1 5 (UserFn 7) None 1) /\
  exists w' o',
    ResourcePool.consumeTimes 1 0%nat (run onePool init) = ([true], w') /\
    poolHeap w' !! 0%nat = Some o' /\
    ResourcePool.remaining o' = 0 /\
    ResourcePool.consume 0%nat w' = (false, w').
Proof.
  assert (poolHeap (run onePool init) !! 0%nat = Some (mkPool 1 5 (UserFn 7) None 1))
    as Hp by (vm_compute; reflexivity).
  split; [exact Hp |].
  destruct (consume_takes_one_and_arms_without_record _ _ _ Hp) as (_ & _ & Hfull).
  apply (Hfull 1%nat); [reflexivity | by cbn | reflexivity].
Defined.

Lemma not_armed_empty (w : World) p : timers w = ∅ -> ~ armed w p.
Proof. intros E (t & to & H & _). rewrite E in H. by rewrite lookup_empty in H. Qed.

(** C1 as stated fails in two places.  After [destroy()]: on the pool made
    by [new ResourcePool(2, 5, f)], after [consume()] and [destroy()] no
    timeout is armed; the next [consume()] succeeds and still arms none.
    Above 2^53: on the pool made by [new ResourcePool(2 ** 54, 5, f)],
    [consume()] returns [true] and [remaining] is what it was. *)
Lemma consume_after_destroy_or_above_2_53 :
  (let w := run (twoPool ++ [Consume 0%nat; Destroy 0%nat]) init in
   (exists o, poolHeap w !! 0%nat = Some o /\ 0 < ResourcePool.remaining o) /\
   ~ armed w 0%nat /\
   fst (ResourcePool.consume 0%nat w) = true /\
   ~ armed (snd (ResourcePool.consume 0%nat w)) 0%nat) /\
  (let w := run hugePool init in
   ResourceGroup.poolRemaining w 0%nat = 2 ^ 54 /\
   fst (ResourcePool.consume 0%nat w) = true /\
   ResourceGroup.poolRemaining (snd (ResourcePool.consume 0%nat w)) 0%nat = 2 ^ 54).
Proof.
  cbv zeta. split; [split; [| split; [| split]] | split; [| split]].
  - exists (mkPool 2 5 (UserFn 7) (Some 0%nat) 1).
    split; [vm_compute; reflexivity | by cbn].
  - apply not_armed_empty. vm_compute. reflexivity.
  - vm_compute. reflexivity.
  - apply not_armed_empty. vm_compute. reflexivity.
  - vm_compute. reflexivity.
  - vm_compute. reflexivity.
  - vm_compute. reflexivity.
Qed.

(** ** Cycle firing *)

(** C2.  When the host delivers the timeout [t] of pool [p]: the timeout
    leaves the queue, the pool's [cycles] entry is deleted, [remaining] is
    reset to the capacity, and the pool's callback is called exactly when the
    pool was exhausted before the reset.  The call happens on the state after
    the reset: whatever caller function ends up being called sees the pool
    with [remaining = capacity] and no [cycles] entry. *)
Theorem cycle_firing_resets_then_notifies (w : World) (t : TimerId) (to : Timeout) (o : PoolObj) :
  timers w !! t = Some to ->
  poolHeap w !! target to = Some o ->
  let p := target to in
  let full := mkPool (poolSizes o) (intervals o) (callbacks o) None (poolSizes o) in
  let w1 :=
    mkWorld (<[p := full]> (poolHeap w)) (groupHeap w) (delete t (timers w))
            (nextTimer w) (trace w ++ [Elapsed p]) in
  Host.fire t w = (if ResourcePool.exhausted o then Host.call (callbacks o) w1 else w1) /\
  poolHeap (Host.fire t w) !! p = Some full /\
  ResourcePool.remaining full = poolSizes o /\
  timers (Host.fire t w) = delete t (timers w) /\
  exists evs,
    trace (Host.fire t w) = trace w ++ Elapsed p :: evs /\
    (ResourcePool.exhausted o = false -> evs = []) /\
    (forall name, ResourcePool.exhausted o = true -> callbacks o = UserFn name ->
       evs = [Called name (<[p := full]> (poolHeap w))]) /\
    (forall name seen, Called name seen ∈ evs -> seen !! p = Some full).
Proof.
  intros Ht Hp p full w1.
  rewrite (fire_pending t to o w Ht Hp). cbv zeta. fold p full w1.
  split; [done |].
  destruct (ResourcePool.exhausted o) eqn:Hex.
  - destruct (call_events (callbacks o) w1) as (evs & -> & Hseen & Huser).
    cbn [poolHeap timers trace w1]. rewrite lookup_insert_eq.
    repeat split. exists evs. rewrite <- app_assoc.
    split; [done |]. split; [done |]. split.
    + intros name _ Hcb. by apply Huser.
    + intros name seen Hin. rewrite (Hseen _ _ Hin). apply lookup_insert_eq.
  - cbn [poolHeap timers trace w1]. rewrite lookup_insert_eq.
    repeat split. exists []. repeat split; try done.
    intros name seen Hin. by apply elem_of_nil in Hin.
Qed.

Lemma cycle_firing_witness :
  let w := run (onePool ++ [Consume 0%nat]) init in
  timers w !! 0%nat = Some (mkTimeout 0%nat 5) /\
  poolHeap w !! 0%nat = Some (mkPool 1 5 (UserFn 7) (Some 0%nat) 0) /\
  poolHeap (Host.fire 0%nat w) !! 0%nat = Some (mkPool 1 5 (UserFn 7) None 1) /\
  timers (Host.fire 0%nat w) = delete 0%nat (timers w).
Proof.
  cbv zeta.
  assert (timers (run (onePool ++ [Consume 0%nat]) init) !! 0%nat
          = Some (mkTimeout 0%nat 5)) as Ht by (vm_compute; reflexivity).
  assert (poolHeap (run (onePool ++ [Consume 0%nat]) init) !! target (mkTimeout 0%nat 5)
          = Some (mkPool 1 5 (UserFn 7) (Some 0%nat) 0)) as Hp by (vm_compute; reflexivity).
  split; [exact Ht |]. split; [exact Hp |].
  destruct (cycle_firing_resets_then_notifies _ _ _ _ Ht Hp) as (_ & Hfull & _ & Htimers & _).
  split; [exact Hfull | exact Htimers].
Defined.

(** ** ResourceGroup: remaining, exhausted, consume *)

Lemma fold_min_spec xs : forall x, isMinimumOf (fold_left Z.min xs x) (x :: xs).
Proof.
  induction xs as [| y xs IH]; intros x; cbn.
  - split; [apply list_elem_of_here |].
    intros z Hz. apply list_elem_of_singleton in Hz. lia.
  - destruct (IH (Z.min x y)) as [Hin Hle]. split.
    + apply elem_of_cons in Hin as [-> | Hin].
      * destruct (Z.min_spec x y) as [[_ ->] | [_ ->]];
          [apply list_elem_of_here | apply list_elem_of_further, list_elem_of_here].
      * by do 2 apply list_elem_of_further.
    + intros z Hz.
      assert (fold_left Z.min xs (Z.min x y) <= Z.min x y) as Hm
        by apply Hle, list_elem_of_here.
      apply elem_of_cons in Hz as [-> | Hz]; [lia |].
      apply elem_of_cons in Hz as [-> | Hz]; [lia |].
      by apply Hle, list_elem_of_further.
Qed.

Lemma Math_min_spec l : l <> [] -> isMinimumOf (ResourceGroup.Math_min l) l.
Proof. destruct l as [| x xs]; [done |]. intros _. apply fold_min_spec. Qed.

Lemma group_remaining_members G w :
  groupPools G <> [] ->
  ResourceGroup.remaining G w =
    Normal (ResourceGroup.Math_min (map (ResourceGroup.poolRemaining w) (groupPools G))).
Proof.
  intros Hne. unfold ResourceGroup.remaining.
  destruct (groupPools G) as [| p l]; [done | by cbn].
Qed.

Lemma group_remaining_empty G w :
  groupPools G = [] ->
  ResourceGroup.remaining G w = Throw ErrorMessages.NO_RESOURCE_POOLS_FOUND.
Proof. intros E. unfold ResourceGroup.remaining. by rewrite E. Qed.

Lemma consume_other p q w :
  p <> q ->
  poolHeap (snd (ResourcePool.consume q w)) !! p = poolHeap w !! p.
Proof.
  intros Hne. destruct (poolHeap w !! q) as [o |] eqn:Hq.
  - destruct (Z_lt_le_dec 0 (currentPoolSize o)) as [Hlt | Hle].
    + destruct (cycles o) as [t |] eqn:Hc.
      * rewrite (consume_recorded q o t w Hq Hlt Hc). cbn.
        by rewrite lookup_insert_ne.
      * rewrite (consume_idle q o w Hq Hlt Hc). cbn.
        by rewrite lookup_insert_ne.
    + by rewrite (consume_exhausted q o w Hq Hle).
  - by rewrite (consume_dangling q w Hq).
Qed.

Lemma consumeEach_other l : forall w p,
  p ∉ l -> poolHeap (ResourceGroup.consumeEach l w) !! p = poolHeap w !! p.
Proof.
  induction l as [| q l IH]; intros w p Hp; [done |].
  apply not_elem_of_cons in Hp as [Hne Hp]. cbn.
  rewrite IH by done. by apply consume_other.
Qed.

Lemma poolRemaining_lookup w p o :
  poolHeap w !! p = Some o -> ResourceGroup.poolRemaining w p = currentPoolSize o.
Proof. intros H. unfold ResourceGroup.poolRemaining. by rewrite H. Qed.

Lemma consumeEach_members l : forall w,
  NoDup l ->
  (forall p, p ∈ l -> is_Some (poolHeap w !! p) /\ 0 < ResourceGroup.poolRemaining w p) ->
  forall p, p ∈ l ->
    ResourceGroup.poolRemaining (ResourceGroup.consumeEach l w) p =
    doubleMinusOne (ResourceGroup.poolRemaining w p).
Proof.
  induction l as [| q l IH]; intros w Hnd Hall p Hp; [by apply elem_of_nil in Hp |].
  apply NoDup_cons in Hnd as [Hq Hnd]. cbn.
  destruct (Hall q (list_elem_of_here _ _)) as [[o Ho] Hpos].
  rewrite (poolRemaining_lookup _ _ _ Ho) in Hpos.
  destruct (consume_draws q o w Ho Hpos) as (w1 & o1 & E & Ho1 & Hcur & _).
  rewrite E. cbn.
  apply elem_of_cons in Hp as [-> | Hp].
  - unfold ResourceGroup.poolRemaining at 1.
    rewrite consumeEach_other by done. rewrite Ho1.
    rewrite (poolRemaining_lookup _ _ _ Ho). exact Hcur.
  - assert (p <> q) as Hne by (intros ->; contradiction).
    assert (poolHeap w1 !! p = poolHeap w !! p) as Hsame.
    { replace w1 with (snd (ResourcePool.consume q w)) by (by rewrite E).
      by apply consume_other. }
    assert (forall r, r ∈ l ->
              ResourceGroup.poolRemaining w1 r = ResourceGroup.poolRemaining w r
              /\ poolHeap w1 !! r = poolHeap w !! r) as Hkeep.
    { intros r Hr. assert (r <> q) by (intros ->; contradiction).
      assert (poolHeap w1 !! r = poolHeap w !! r) as Hr1.
      { replace w1 with (snd (ResourcePool.consume q w)) by (by rewrite E).
        by apply consume_other. }
      split; [| done]. unfold ResourceGroup.poolRemaining. by rewrite Hr1. }
    rewrite IH; [| done | | done].
    + by rewrite (proj1 (Hkeep p Hp)).
    + intros r Hr. destruct (Hkeep r Hr) as [-> ->].
      apply Hall. by apply list_elem_of_further.
Qed.

Lemma NoDup_take_lookup (l : list nat) i p :
  NoDup l -> l !! i = Some p -> p ∉ take i l.
Proof.
  intros Hnd Hi Hin.
  apply list_elem_of_lookup in Hin as [j Hj].
  assert ((j < i)%nat) as Hlt.
  { apply lookup_lt_Some in Hj. rewrite length_take in Hj. lia. }
  rewrite lookup_take_lt in Hj by done.
  pose proof (NoDup_lookup _ _ _ _ Hnd Hi Hj). lia.
Qed.

(** C3, as the code has it.  In every reachable state, for a group with at
    least one member: [remaining] is the least of the members' [remaining];
    if some member is exhausted, [consume()] returns [false] and the state is
    unchanged; otherwise [consume()] returns [true], it is the members'
    [consume()] run in insertion order, each of these calls returns [true],
    and every member's counter [r] has become [r - 1] as doubles subtract:
    down by exactly one when [r] is at most 2^53. *)
Theorem group_consume_all_or_nothing (w : World) (g : GroupId) (G : GroupObj) :
  reachable w ->
  groupHeap w !! g = Some G ->
  groupPools G <> [] ->
  (exists m,
     ResourceGroup.remaining G w = Normal m /\
     isMinimumOf m (map (ResourceGroup.poolRemaining w) (groupPools G))) /\
  ((exists p, p ∈ groupPools G /\ ResourceGroup.poolRemaining w p <= 0) ->
     ResourceGroup.consume g w = (Normal false, w)) /\
  ((forall p, p ∈ groupPools G -> 0 < ResourceGroup.poolRemaining w p) ->
     exists w',
       ResourceGroup.consume g w = (Normal true, w') /\
       w' = ResourceGroup.consumeEach (groupPools G) w /\
       (forall i p, groupPools G !! i = Some p ->
          fst (ResourcePool.consume p
                 (ResourceGroup.consumeEach (take i (groupPools G)) w)) = true) /\
       (forall p, p ∈ groupPools G ->
          ResourceGroup.poolRemaining w' p =
            doubleMinusOne (ResourceGroup.poolRemaining w p) /\
          (ResourceGroup.poolRemaining w p <= 2 ^ 53 ->
             ResourceGroup.poolRemaining w' p =
               ResourceGroup.poolRemaining w p - 1))).
Proof.
  intros Hreach Hg Hne.
  destruct (reachable_groupsOwnPools w Hreach g G Hg) as [Hnd Hown].
  pose proof (group_remaining_members G w Hne) as Hrem.
  assert (map (ResourceGroup.poolRemaining w) (groupPools G) <> []) as Hne'.
  { intros E. apply Hne. by apply map_eq_nil in E. }
  destruct (Math_min_spec _ Hne') as [Hin Hleast].
  split; [| split].
  - eexists. split; [exact Hrem |]. by split.
  - intros (p & Hp & Hle).
    unfold ResourceGroup.consume, ResourceGroup.exhausted, bindC. rewrite Hg, Hrem.
    assert (ResourceGroup.Math_min
              (map (ResourceGroup.poolRemaining w) (groupPools G)) <= 0) as Hmin.
    { etrans; [| exact Hle]. apply Hleast.
      apply list_elem_of_In, in_map, list_elem_of_In, Hp. }
    apply Z.leb_le in Hmin. by rewrite Hmin.
  - intros Hall.
    unfold ResourceGroup.consume, ResourceGroup.exhausted, bindC. rewrite Hg, Hrem.
    assert (0 < ResourceGroup.Math_min
                  (map (ResourceGroup.poolRemaining w) (groupPools G))) as Hmin.
    { apply list_elem_of_In, in_map_iff in Hin as (p & <- & Hp).
      apply Hall. by apply list_elem_of_In. }
    apply Z.leb_gt in Hmin. rewrite Hmin.
    eexists. split; [done |]. split; [done |]. split.
    + intros i p Hi.
      assert (p ∈ groupPools G) as Hp by (apply list_elem_of_lookup; eauto).
      destruct (Hown p Hp) as [o Ho].
      pose proof (Hall p Hp) as Hpos.
      rewrite (poolRemaining_lookup _ _ _ Ho) in Hpos.
      pose proof (NoDup_take_lookup _ _ _ Hnd Hi) as Hnotin.
      pose proof (consumeEach_other (take i (groupPools G)) w p Hnotin) as Hsame.
      rewrite Ho in Hsame.
      destruct (consume_draws p o _ Hsame Hpos) as (w1 & o1 & E & _).
      by rewrite E.
    + intros p Hp.
      assert (ResourceGroup.poolRemaining
                (ResourceGroup.consumeEach (groupPools G) w) p =
              doubleMinusOne (ResourceGroup.poolRemaining w p)) as Hdraw.
      { apply consumeEach_members; [done | | done].
        intros q Hq. split; [by apply Hown | by apply Hall]. }
      split; [exact Hdraw |].
      intros Hsafe. rewrite Hdraw. by apply doubleMinusOne_exact.
Qed.

Lemma group_consume_witness :
  let w := run twoMembers init in
  reachable w /\
  groupHeap w !! 0%nat = Some (mkGroup [0%nat; 1%nat] 9%nat) /\
  ResourceGroup.remaining (mkGroup [0%nat; 1%nat] 9%nat) w = Normal 2 /\
  exists w',
    ResourceGroup.consume 0%nat w = (Normal true, w') /\
    ResourceGroup.poolRemaining w' 0%nat = 1 /\
    ResourceGroup.poolRemaining w' 1%nat = 4.
Proof.
  cbv zeta.
  assert (reachable (run twoMembers init)) as Hreach by (by exists twoMembers).
  assert (groupHeap (run twoMembers init) !! 0%nat = Some (mkGroup [0%nat; 1%nat] 9%nat))
    as Hg by (vm_compute; reflexivity).
  assert (groupPools (mkGroup [0%nat; 1%nat] 9%nat) <> []) as Hne by done.
  split; [exact Hreach |]. split; [exact Hg |].
  destruct (group_consume_all_or_nothing _ _ _ Hreach Hg Hne) as (_ & _ & Hok).
  split; [vm_compute; reflexivity |].
  destruct Hok as (w' & E & _ & _ & Hdec).
  { intros p Hp. cbn in Hp.
    apply elem_of_cons in Hp as [-> | Hp]; [by vm_compute |].
    apply list_elem_of_singleton in Hp as ->. by vm_compute. }
  exists w'. split; [exact E |]. split.
  - rewrite (proj1 (Hdec 0%nat (list_elem_of_here _ _))). by vm_compute.
  - rewrite (proj1 (Hdec 1%nat (list_elem_of_further _ _ _ (list_elem_of_here _ _)))).
    by vm_compute.
Defined.

(** C3 as stated fails above 2^53: in the group made by
    [new ResourceGroup(f).add(2 ** 54, 10)] no member is exhausted,
    [consume()] returns [true], and the member's counter is what it was. *)
Lemma group_consume_stalls_above_2_53 :
  let w := run hugeMember init in
  groupHeap w !! 0%nat = Some (mkGroup [0%nat] 9%nat) /\
  ResourceGroup.poolRemaining w 0%nat = 2 ^ 54 /\
  fst (ResourceGroup.consume 0%nat w) = Normal true /\
  ResourceGroup.poolRemaining (snd (ResourceGroup.consume 0%nat w)) 0%nat = 2 ^ 54.
Proof. cbv zeta. repeat split; vm_compute; reflexivity. Qed.

(** C4.  Reading [remaining] of a group, and hence [exhausted], throws
    exactly when the group has no member, and the error is
    [NO_RESOURCE_POOLS_FOUND]; with at least one member both reads return a
    value.  The two getters only read: they are functions of the state and
    hand back no new state. *)
Theorem group_reads_fail_iff_no_members (G : GroupObj) (w : World) :
  ((exists msg, ResourceGroup.remaining G w = Throw msg) <-> groupPools G = []) /\
  ((exists msg, ResourceGroup.exhausted G w = Throw msg) <-> groupPools G = []) /\
  (forall msg, ResourceGroup.remaining G w = Throw msg ->
     msg = ErrorMessages.NO_RESOURCE_POOLS_FOUND) /\
  (forall msg, ResourceGroup.exhausted G w = Throw msg ->
     msg = ErrorMessages.NO_RESOURCE_POOLS_FOUND) /\
  (groupPools G = [] ->
     ResourceGroup.remaining G w = Throw ErrorMessages.NO_RESOURCE_POOLS_FOUND /\
     ResourceGroup.exhausted G w = Throw ErrorMessages.NO_RESOURCE_POOLS_FOUND) /\
  (groupPools G <> [] ->
     exists r,
       ResourceGroup.remaining G w = Normal r /\
       ResourceGroup.exhausted G w = Normal (r <=? 0) /\
       isMinimumOf r (map (ResourceGroup.poolRemaining w) (groupPools G))).
Proof.
  unfold ResourceGroup.exhausted, bindC.
  destruct (groupPools G) as [| p l] eqn:E.
  - rewrite (group_remaining_empty G w E).
    repeat split; try done; try (by intros msg [= <-]); by eexists.
  - assert (groupPools G <> []) as Hne by (by rewrite E).
    rewrite (group_remaining_members G w Hne).
    repeat split; try done; try (by intros [msg ?]).
    intros _. eexists. split; [done |]. split; [done |].
    rewrite <- E. apply Math_min_spec. rewrite E. done.
Qed.

(** ** ResourcePool.destroy and ResourceGroup.destroy *)

Lemma destroy_poolHeap p w : poolHeap (ResourcePool.destroy p w) = poolHeap w.
Proof.
  unfold ResourcePool.destroy.
  destruct (poolHeap w !! p) as [o |]; [| done].
  by destruct (cycles o).
Qed.

Lemma destroy_timers_gone p w t :
  timers w !! t = None -> timers (ResourcePool.destroy p w) !! t = None.
Proof.
  intros H. unfold ResourcePool.destroy.
  destruct (poolHeap w !! p) as [o |]; [| done].
  destruct (cycles o) as [u |]; [| done].
  cbn. apply lookup_delete_None. by right.
Qed.

Lemma destroy_cancels p o t w :
  poolHeap w !! p = Some o -> cycles o = Some t ->
  timers (ResourcePool.destroy p w) !! t = None.
Proof.
  intros Hp Hc. rewrite (destroy_recorded p o t w Hp Hc). cbn.
  apply lookup_delete_eq.
Qed.

Lemma destroyEach_poolHeap l : forall w,
  poolHeap (ResourceGroup.destroyEach l w) = poolHeap w.
Proof.
  induction l as [| q l IH]; intros w; [done |].
  cbn. by rewrite IH, destroy_poolHeap.
Qed.

Lemma destroyEach_timers_gone l : forall w t,
  timers w !! t = None -> timers (ResourceGroup.destroyEach l w) !! t = None.
Proof.
  induction l as [| q l IH]; intros w t H; [done |].
  cbn. by apply IH, destroy_timers_gone.
Qed.

Lemma destroyEach_cancels l : forall w p o t,
  p ∈ l -> poolHeap w !! p = Some o -> cycles o = Some t ->
  timers (ResourceGroup.destroyEach l w) !! t = None.
Proof.
  induction l as [| q l IH]; intros w p o t Hin Hp Hc; [by apply elem_of_nil in Hin |].
  cbn. apply elem_of_cons in Hin as [-> | Hin].
  - apply destroyEach_timers_gone. by eapply destroy_cancels.
  - eapply IH; [exact Hin | by rewrite destroy_poolHeap | done].
Qed.

(** C5 as stated fails on a group without members: [consume()] reads
    [exhausted], which throws. *)
Lemma group_consume_throws_without_members :
  ResourceGroup.consume 0%nat (run [NewGroup (JsFunction 9%nat)] init) =
    (Throw ErrorMessages.NO_RESOURCE_POOLS_FOUND,
     run [NewGroup (JsFunction 9%nat)] init).
Proof. vm_compute. reflexivity. Qed.

(** C5, as the code has it.  [consume()] of a pool returns a boolean in every
    state, and so does [consume()] of a group with at least one member; on a
    group without members [consume()] throws [NO_RESOURCE_POOLS_FOUND] and
    changes nothing.  [destroy()] never throws, for a pool and for a group
    with or without members, and completes its cleanup: the timeout named by
    the [cycles] entry of the pool, or of any member, is no longer pending,
    and no pool is touched. *)
Theorem consume_and_destroy_outcomes :
  (forall p w, exists b w', ResourcePool.consume p w = (b, w')) /\
  (forall g G w, groupHeap w !! g = Some G -> groupPools G <> [] ->
     exists b w', ResourceGroup.consume g w = (Normal b, w')) /\
  (forall g G w, groupHeap w !! g = Some G -> groupPools G = [] ->
     ResourceGroup.consume g w = (Throw ErrorMessages.NO_RESOURCE_POOLS_FOUND, w)) /\
  (forall p o t w, poolHeap w !! p = Some o -> cycles o = Some t ->
     timers (ResourcePool.destroy p w) !! t = None /\
     poolHeap (ResourcePool.destroy p w) = poolHeap w) /\
  (forall g G w, groupHeap w !! g = Some G ->
     poolHeap (ResourceGroup.destroy g w) = poolHeap w /\
     forall p o t, p ∈ groupPools G -> poolHeap w !! p = Some o -> cycles o = Some t ->
       timers (ResourceGroup.destroy g w) !! t = None) /\
  (forall g G w, groupHeap w !! g = Some G -> groupPools G = [] ->
     ResourceGroup.destroy g w = w).
Proof.
  split; [| split; [| split; [| split; [| split]]]].
  - intros p w. by destruct (ResourcePool.consume p w) as [b w']; exists b, w'.
  - intros g G w Hg Hne. unfold ResourceGroup.consume, ResourceGroup.exhausted, bindC.
    rewrite Hg, (group_remaining_members G w Hne).
    destruct (_ <=? 0); by eexists _, _.
  - intros g G w Hg E. unfold ResourceGroup.consume, ResourceGroup.exhausted, bindC.
    by rewrite Hg, (group_remaining_empty G w E).
  - intros p o t w Hp Hc. split; [by eapply destroy_cancels | apply destroy_poolHeap].
  - intros g G w Hg. unfold ResourceGroup.destroy. rewrite Hg.
    split; [apply destroyEach_poolHeap |].
    intros p o t Hin Hp Hc. by eapply destroyEach_cancels.
  - intros g G w Hg E. unfold ResourceGroup.destroy. by rewrite Hg, E.
Qed.

(** ** The counter stays within the capacity *)

Lemma constructor_ok {Fn} (poolSize interval : JsValue Fn) callback w p w' :
  ResourcePool.constructor poolSize interval callback w = (Normal p, w') ->
  exists o c i f,
    w' = setPool p o w /\ poolHeap w !! p = None /\
    poolSize = JsNumber c /\ (c == inject_Z (poolSizes o))%Q /\
    interval = JsNumber i /\ (i == inject_Z (intervals o))%Q /\
    callback = JsFunction f /\ callbacks o = f /\
    cycles o = None /\ currentPoolSize o = poolSizes o /\
    0 < poolSizes o /\ 0 < intervals o /\
    poolSizes o < 10 ^ 21 /\ intervals o < 10 ^ 21.
Proof.
  unfold ResourcePool.constructor.
  destruct (ResourcePool.validate poolSize interval callback)
    as [[[size ms] f] | msg | e] eqn:E; [| done ..].
  intros [= <- <-].
  apply validate_ok in E
    as (c & i & -> & -> & -> & Hc & Hi & Hsize & Hms & Hsizeb & Hmsb).
  eexists _, c, i, f. split; [done |]. split; [apply fresh_pool_free |].
  cbn. repeat split; done.
Qed.

(** C6.  A pool that was constructed with capacity [c] starts with
    [remaining = c], so [0 <= remaining <= capacity] holds for it; the bound,
    taken over all pools of the heap, holds in the empty heap and is kept by
    [consume()], by a cycle firing, by [destroy()] and by every other
    operation, hence it holds in every reachable state. *)
Theorem remaining_within_capacity :
  (forall (poolSize interval callback : JsValue Callback) w p w',
     ResourcePool.constructor poolSize interval callback w = (Normal p, w') ->
     exists o c,
       poolHeap w' !! p = Some o /\
       poolSize = JsNumber c /\ (c == inject_Z (poolSizes o))%Q /\
       ResourcePool.remaining o = poolSizes o /\
       0 <= ResourcePool.remaining o <= poolSizes o) /\
  poolsBounded init /\
  (forall p w, poolsBounded w -> poolsBounded (snd (ResourcePool.consume p w))) /\
  (forall t w, poolsBounded w -> poolsBounded (Host.fire t w)) /\
  (forall p w, poolsBounded w -> poolsBounded (ResourcePool.destroy p w)) /\
  (forall op w, poolsBounded w -> poolsBounded (exec op w)) /\
  (forall w p o, reachable w -> poolHeap w !! p = Some o ->
     0 <= ResourcePool.remaining o <= poolSizes o).
Proof.
  split; [| split; [| split; [| split; [| split; [| split]]]]].
  - intros poolSize interval callback w p w' E.
    apply constructor_ok in E
      as (o & c & i & f & -> & _ & -> & Hc & _ & _ & _ & _ & _ & Hfull & Hpos & _).
    exists o, c. cbn. rewrite lookup_insert_eq.
    unfold ResourcePool.remaining. repeat split; try done; lia.
  - apply poolsBounded_init.
  - intros p w. apply poolsBounded_trail with (c := false), consume_trail.
  - intros t w. apply poolsBounded_trail with (c := false), fire_trail.
  - intros p w. apply poolsBounded_trail with (c := true), destroy_trail.
  - intros op w. eapply poolsBounded_trail, exec_trail.
  - intros w p o Hreach Hp. by apply (reachable_poolsBounded w Hreach p o).
Qed.

(** ** The timer-handle record and the armed cycle *)

Lemma reachable_run ops w : reachable w -> reachable (run ops w).
Proof. intros [ops0 ->]. exists (ops0 ++ ops). by rewrite run_app. Qed.

Lemma recorded_timer_unique w p o :
  timersRecorded w -> poolHeap w !! p = Some o ->
  forall t to, timers w !! t = Some to -> target to = p -> cycles o = Some t.
Proof.
  intros Inv Hp t to Ht Htarget.
  destruct (Inv t to Ht) as (o' & Ho' & Hc). congruence.
Qed.

(** C7 as stated fails after [destroy()]: on the pool made by
    [new ResourcePool(1, 5, f)], after [consume()] and [destroy()] the
    [cycles] entry is still there and no timeout is pending.  On the pool
    made by [new ResourcePool(2 ** 54, 5, f)] the same two calls leave a pool
    that is full and idle and has a [cycles] entry. *)
Lemma record_survives_destroy :
  (let w := run (onePool ++ [Consume 0%nat; Destroy 0%nat]) init in
   reachable w /\
   (exists o t, poolHeap w !! 0%nat = Some o /\ cycles o = Some t) /\
   ~ armed w 0%nat) /\
  (let w := run (hugePool ++ [Consume 0%nat; Destroy 0%nat]) init in
   reachable w /\
   (exists o t,
      poolHeap w !! 0%nat = Some o /\ cycles o = Some t /\
      ResourcePool.remaining o = poolSizes o) /\
   ~ armed w 0%nat).
Proof.
  cbv zeta. split.
  - split; [by eexists |]. split.
    + exists (mkPool 1 5 (UserFn 7) (Some 0%nat) 0), 0%nat.
      split; [vm_compute; reflexivity | done].
    + apply not_armed_empty. vm_compute. reflexivity.
  - split; [by eexists |]. split.
    + exists (mkPool (2 ^ 54) 5 (UserFn 7) (Some 0%nat) (2 ^ 54)), 0%nat.
      split; [vm_compute; reflexivity | done].
    + apply not_armed_empty. vm_compute. reflexivity.
Qed.

(** C7, as the code has it.  In every reachable state a pending timeout of
    the pool is the one its timer-handle record names, so an armed cycle
    implies the record and at most one timeout is armed per pool; a pool
    without a record has no armed cycle and is full, and a pool that has been
    drawn down has a record.  A pool that is full has no record, when its
    capacity is at most 2^53.  [destroy()] cancels the timeout the record
    names and leaves the record: after it the pool is as it was, record
    included, and no cycle is armed for it.  In the states reached without
    [destroy()] the record is present exactly when a cycle is armed, and a
    drawn-down pool has exactly one armed timeout. *)
Theorem record_present_when_cycle_armed (w : World) (p : PoolId) (o : PoolObj) :
  reachable w ->
  poolHeap w !! p = Some o ->
  (forall t to, timers w !! t = Some to -> target to = p -> cycles o = Some t) /\
  (armed w p -> is_Some (cycles o)) /\
  (cycles o = None -> ~ armed w p /\ ResourcePool.remaining o = poolSizes o) /\
  (ResourcePool.remaining o < poolSizes o -> is_Some (cycles o)) /\
  (poolSizes o <= 2 ^ 53 -> ResourcePool.remaining o = poolSizes o ->
     cycles o = None) /\
  (forall t, cycles o = Some t ->
     ResourcePool.destroy p w = clearTimeout t w /\
     poolHeap (ResourcePool.destroy p w) !! p = Some o /\
     timers (ResourcePool.destroy p w) !! t = None /\
     ~ armed (ResourcePool.destroy p w) p) /\
  (reachableWithoutDestroy w ->
     (is_Some (cycles o) <-> armed w p) /\
     (ResourcePool.remaining o < poolSizes o ->
        exists t to,
          timers w !! t = Some to /\ target to = p /\ cycles o = Some t /\
          forall u tu, timers w !! u = Some tu -> target tu = p -> u = t)).
Proof.
  intros Hreach Hp.
  pose proof (reachable_timersRecorded w Hreach) as Hrec.
  pose proof (reachable_idleFull w Hreach) as Hidle.
  pose proof (recorded_timer_unique w p o Hrec Hp) as Huniq.
  assert (armed w p -> is_Some (cycles o)) as Harmed.
  { intros (t & to & Ht & Htarget). exists t. by eapply Huniq. }
  assert (ResourcePool.remaining o < poolSizes o -> is_Some (cycles o)) as Hdrawn.
  { intros Hlt. destruct (cycles o) as [t |] eqn:Hc; [by eexists |].
    specialize (Hidle p o Hp Hc). unfold ResourcePool.remaining in Hlt. lia. }
  split; [done |]. split; [done |].
  split; [| split; [done |]; split; [| split]].
  - intros Hc. split; [| by apply (Hidle p o)].
    intros Ha. destruct (Harmed Ha) as [t Ht]. congruence.
  - intros Hsafe Hfull. destruct (cycles o) as [t |] eqn:Hc; [| done].
    pose proof (reachable_recordedDrawn w Hreach p o t Hp Hc Hsafe) as Hlt.
    unfold ResourcePool.remaining in Hfull. lia.
  - intros t Hc. split; [by apply (destroy_recorded p o) |].
    split; [by rewrite destroy_poolHeap |].
    split; [by apply (destroy_cancels p o) |].
    rewrite (destroy_recorded p o t w Hp Hc).
    intros (u & tu & Hu & Htarget). cbn in Hu.
    apply lookup_delete_Some in Hu as [Hne Hu].
    pose proof (Huniq u tu Hu Htarget). congruence.
  - intros Hnd.
    pose proof (reachableWithoutDestroy_recordsPending w Hnd) as Hpend.
    split.
    + split; [| done]. intros [t Hc].
      destruct (Hpend p o t Hp Hc) as (to & Ht & Htarget). by exists t, to.
    + intros Hlt. destruct (Hdrawn Hlt) as [t Hc].
      destruct (Hpend p o t Hp Hc) as (to & Ht & Htarget).
      exists t, to. repeat split; try done.
      intros u tu Hu Htu. specialize (Huniq u tu Hu Htu). congruence.
Qed.

Lemma record_present_witness :
  let w := run (onePool ++ [Consume 0%nat]) init in
  reachable w /\
  poolHeap w !! 0%nat = Some (mkPool 1 5 (UserFn 7) (Some 0%nat) 0) /\
  reachableWithoutDestroy w /\
  armed w 0%nat /\
  ~ armed (ResourcePool.destroy 0%nat w) 0%nat.
Proof.
  cbv zeta.
  assert (reachable (run (onePool ++ [Consume 0%nat]) init)) as Hreach by (by eexists).
  assert (poolHeap (run (onePool ++ [Consume 0%nat]) init) !! 0%nat
          = Some (mkPool 1 5 (UserFn 7) (Some 0%nat) 0)) as Hp by (vm_compute; reflexivity).
  assert (reachableWithoutDestroy (run (onePool ++ [Consume 0%nat]) init)) as Hnd.
  { eexists. split; [| reflexivity]. reflexivity. }
  split; [exact Hreach |]. split; [exact Hp |]. split; [exact Hnd |].
  destruct (record_present_when_cycle_armed _ _ _ Hreach Hp)
    as (_ & _ & _ & _ & _ & Hdestroy & Hiff).
  split.
  - destruct (Hiff Hnd) as [[Harm _] _]. apply Harm. by eexists.
  - by destruct (Hdestroy 0%nat eq_refl) as (_ & _ & _ & Hna).
Defined.

(** ** After destroy() *)

Lemma destroy_recorded_cancelled w p o t :
  timersRecorded w -> poolHeap w !! p = Some o -> cycles o = Some t ->
  cancelled (ResourcePool.destroy p w) p.
Proof.
  intros Inv Hp Hc. rewrite (destroy_recorded p o t w Hp Hc). split.
  - by exists o, t.
  - intros (u & tu & Hu & Htarget). cbn in Hu.
    apply lookup_delete_Some in Hu as [Hne Hu].
    pose proof (recorded_timer_unique w p o Inv Hp u tu Hu Htarget). congruence.
Qed.

Lemma destroy_idempotent p w :
  ResourcePool.destroy p (ResourcePool.destroy p w) = ResourcePool.destroy p w.
Proof.
  destruct (poolHeap w !! p) as [o |] eqn:Hp.
  - destruct (cycles o) as [t |] eqn:Hc.
    + rewrite (destroy_recorded p o t w Hp Hc).
      rewrite (destroy_recorded p o t (clearTimeout t w) Hp Hc).
      unfold clearTimeout. cbn. by rewrite delete_delete_eq.
    + by rewrite !(destroy_idle p o w Hp Hc).
  - by rewrite !(destroy_dangling p w Hp).
Qed.

Lemma cancelled_run ops w p :
  cancelled w p ->
  cancelled (run ops w) p /\
  ResourceGroup.poolRemaining (run ops w) p <= ResourceGroup.poolRemaining w p /\
  quietFor p w (run ops w).
Proof. apply cancelled_trail with (c := true), run_trail. Qed.

(** C8 as stated fails when [destroy()] finds no timer-handle record: on
    the untouched pool made by [new ResourcePool(1, 5, f7)], after
    [destroy()] a [consume()] arms a cycle; when it elapses the pool is
    replenished and [f7] is called. *)
Lemma destroy_of_idle_pool_stops_nothing :
  let wd := ResourcePool.destroy 0%nat (run onePool init) in
  trace wd = [] /\
  trace (run [Consume 0%nat; Fire 0%nat] wd) =
    [Elapsed 0%nat; Called 7%nat {[0%nat := mkPool 1 5 (UserFn 7) None 1]}].
Proof. cbv zeta. split; vm_compute; reflexivity. Qed.

(** C8, as the code has it.  If a cycle is armed for the pool, [destroy()]
    cancels it: the timeout named by the timer-handle record leaves the
    host's queue and no cycle is armed for the pool afterwards.  If none is
    armed, [destroy()] changes nothing.  The cycles of other pools are not
    touched, and a second [destroy()] changes nothing.  When [destroy()]
    found a timer-handle record, then whatever happens next (calls on this or
    other pools and groups, timer deliveries) the pool's cycle never elapses,
    so it is never replenished and its callback is never called: no cycle is
    armed for it again and its counter never goes up. *)
Theorem destroy_stops_recorded_cycle (w : World) (p : PoolId) (o : PoolObj) :
  reachable w ->
  poolHeap w !! p = Some o ->
  (armed w p ->
     exists t to,
       cycles o = Some t /\ timers w !! t = Some to /\ target to = p /\
       ResourcePool.destroy p w = clearTimeout t w /\
       ~ armed (ResourcePool.destroy p w) p) /\
  (~ armed w p -> ResourcePool.destroy p w = w) /\
  (forall q, q <> p -> armed (ResourcePool.destroy p w) q <-> armed w q) /\
  ResourcePool.destroy p (ResourcePool.destroy p w) = ResourcePool.destroy p w /\
  (is_Some (cycles o) ->
     forall ops,
       quietFor p (ResourcePool.destroy p w) (run ops (ResourcePool.destroy p w)) /\
       ~ armed (run ops (ResourcePool.destroy p w)) p /\
       ResourceGroup.poolRemaining (run ops (ResourcePool.destroy p w)) p
         <= ResourcePool.remaining o).
Proof.
  intros Hreach Hp.
  pose proof (reachable_timersRecorded w Hreach) as Hrec.
  split; [| split; [| split; [| split]]].
  - intros (t & to & Ht & Htarget).
    pose proof (recorded_timer_unique w p o Hrec Hp t to Ht Htarget) as Hc.
    exists t, to. repeat split; try done.
    + by apply (destroy_recorded p o).
    + by destruct (destroy_recorded_cancelled w p o t Hrec Hp Hc).
  - intros Hna. destruct (cycles o) as [t |] eqn:Hc.
    + rewrite (destroy_recorded p o t w Hp Hc). unfold clearTimeout.
      rewrite delete_id by (by eapply stale_record_not_pending).
      apply world_eta.
    + by apply (destroy_idle p o).
  - intros q Hne. destruct (cycles o) as [t |] eqn:Hc.
    + rewrite (destroy_recorded p o t w Hp Hc). split.
      * intros (u & tu & Hu & Htarget). cbn in Hu.
        apply lookup_delete_Some in Hu as [_ Hu]. by exists u, tu.
      * intros (u & tu & Hu & Htarget). exists u, tu. split; [| done]. cbn.
        rewrite lookup_delete_ne; [done |]. intros <-.
        destruct (Hrec t tu Hu) as (oq & Hoq & Hcq). rewrite Htarget in Hoq.
        apply Hne. symmetry.
        by apply (reachable_recordsDistinct w Hreach p q o oq t).
    + by rewrite (destroy_idle p o w Hp Hc).
  - apply destroy_idempotent.
  - intros [t Hc] ops.
    pose proof (destroy_recorded_cancelled w p o t Hrec Hp Hc) as Hcan.
    destruct (cancelled_run ops _ p Hcan) as ([_ Hna] & Hle & Hquiet).
    split; [done |]. split; [done |].
    etrans; [exact Hle |].
    unfold ResourceGroup.poolRemaining. rewrite destroy_poolHeap, Hp. done.
Qed.

Lemma destroy_stops_witness :
  let w := run (onePool ++ [Consume 0%nat]) init in
  reachable w /\
  poolHeap w !! 0%nat = Some (mkPool 1 5 (UserFn 7) (Some 0%nat) 0) /\
  quietFor 0%nat (ResourcePool.destroy 0%nat w)
           (run [Fire 0%nat; Consume 0%nat] (ResourcePool.destroy 0%nat w)).
Proof.
  cbv zeta.
  assert (reachable (run (onePool ++ [Consume 0%nat]) init)) as Hreach by (by eexists).
  assert (poolHeap (run (onePool ++ [Consume 0%nat]) init) !! 0%nat
          = Some (mkPool 1 5 (UserFn 7) (Some 0%nat) 0)) as Hp by (vm_compute; reflexivity).
  split; [exact Hreach |]. split; [exact Hp |].
  destruct (destroy_stops_recorded_cycle _ _ _ Hreach Hp) as (_ & _ & _ & _ & Hquiet).
  apply Hquiet. by eexists.
Defined.

(** C10 as stated fails in two places.  When [destroy()] finds no
    timer-handle record: on the untouched pool made by
    [new ResourcePool(1, 5, f7)], [destroy()] leaves no record behind, the
    next [consume()] arms a cycle, and when it elapses [remaining] is back at
    the capacity.  Above 2^53: on the pool made by
    [new ResourcePool(2 ** 54, 5, f7)], after [consume()] and [destroy()] a
    [consume()] returns [true] and [remaining] is what it was, the
    capacity. *)
Lemma consume_after_destroy_rearms_or_stalls :
  (let w := run (onePool ++ [Destroy 0%nat; Consume 0%nat]) init in
   armed w 0%nat /\
   ResourceGroup.poolRemaining w 0%nat = 0 /\
   ResourceGroup.poolRemaining (Host.fire 0%nat w) 0%nat = 1) /\
  (let w := run (hugePool ++ [Consume 0%nat; Destroy 0%nat]) init in
   ResourceGroup.poolRemaining w 0%nat = 2 ^ 54 /\
   fst (ResourcePool.consume 0%nat w) = true /\
   ResourceGroup.poolRemaining (snd (ResourcePool.consume 0%nat w)) 0%nat = 2 ^ 54).
Proof.
  cbv zeta. split.
  - split; [| split; vm_compute; reflexivity].
    exists 0%nat, (mkTimeout 0%nat 5). split; [vm_compute; reflexivity | done].
  - repeat split; vm_compute; reflexivity.
Qed.

(** C10, as the code has it.  Let [destroy()] be called on a pool that has a
    timer-handle record.  From then on, whatever else happens, the pool keeps
    its record and no cycle is armed for it; a [consume()] on the pool, if it
    is not exhausted, still returns [true], stores [remaining - 1] as doubles
    subtract (exactly one unit less when [remaining] is at most 2^53), and
    arms nothing: the host's queue is untouched.  The counter never goes up
    again, and it stays below the capacity when the capacity is at most
    2^53. *)
Theorem consume_after_destroy_never_rearms (w : World) (p : PoolId) (o : PoolObj) (t : TimerId) :
  reachable w ->
  poolHeap w !! p = Some o ->
  cycles o = Some t ->
  forall ops,
    let wd := run ops (ResourcePool.destroy p w) in
    exists o',
      poolHeap wd !! p = Some o' /\
      is_Some (cycles o') /\
      ~ armed wd p /\
      (poolSizes o' <= 2 ^ 53 -> ResourcePool.remaining o' < poolSizes o') /\
      ResourcePool.remaining o' <= ResourcePool.remaining o /\
      (0 < ResourcePool.remaining o' ->
         exists w' o'',
           ResourcePool.consume p wd = (true, w') /\
           poolHeap w' !! p = Some o'' /\
           ResourcePool.remaining o'' = doubleMinusOne (ResourcePool.remaining o') /\
           (ResourcePool.remaining o' <= 2 ^ 53 ->
              ResourcePool.remaining o'' = ResourcePool.remaining o' - 1) /\
           cycles o'' = cycles o' /\
           timers w' = timers wd /\
           ~ armed w' p) /\
      (forall ops',
         ResourceGroup.poolRemaining (run ops' wd) p <= ResourcePool.remaining o').
Proof.
  intros Hreach Hp Hc ops wd.
  pose proof (reachable_timersRecorded w Hreach) as Hrec.
  pose proof (destroy_recorded_cancelled w p o t Hrec Hp Hc) as Hcan0.
  assert (reachable wd) as Hreachd.
  { apply reachable_run. destruct Hreach as [ops0 ->].
    exists (ops0 ++ [Destroy p]). by rewrite run_snoc. }
  destruct (cancelled_run ops _ p Hcan0) as (Hcan & Hle & _). fold wd in Hcan, Hle.
  pose proof Hcan as [(o' & t' & Hp' & Hc') Hna].
  exists o'. split; [done |]. split; [by eexists |]. split; [done |].
  unfold ResourcePool.remaining. split; [| split; [| split]].
  - by apply (reachable_recordedDrawn wd Hreachd p o' t').
  - rewrite (poolRemaining_lookup _ _ _ Hp') in Hle.
    etrans; [exact Hle |].
    unfold ResourceGroup.poolRemaining. by rewrite destroy_poolHeap, Hp.
  - intros Hlt. rewrite (consume_recorded p o' t' wd Hp' Hlt Hc').
    eexists _, _. split; [done |]. cbn. rewrite lookup_insert_eq.
    split; [done |]. cbn. split; [done |].
    split; [apply doubleMinusOne_exact |]. repeat split; done.
  - intros ops'.
    destruct (cancelled_run ops' wd p Hcan) as (_ & Hle' & _).
    etrans; [exact Hle' |]. by rewrite (poolRemaining_lookup _ _ _ Hp').
Qed.

Lemma consume_after_destroy_witness :
  let w := run (twoPool ++ [Consume 0%nat]) init in
  reachable w /\
  poolHeap w !! 0%nat = Some (mkPool 2 5 (UserFn 7) (Some 0%nat) 1) /\
  exists o',
    poolHeap (run [Fire 0%nat] (ResourcePool.destroy 0%nat w)) !! 0%nat = Some o' /\
    ResourcePool.remaining o' <= 1 /\
    ~ armed (run [Fire 0%nat] (ResourcePool.destroy 0%nat w)) 0%nat.
Proof.
  cbv zeta.
  assert (reachable (run (twoPool ++ [Consume 0%nat]) init)) as Hreach by (by eexists).
  assert (poolHeap (run (twoPool ++ [Consume 0%nat]) init) !! 0%nat
          = Some (mkPool 2 5 (UserFn 7) (Some 0%nat) 1)) as Hp by (vm_compute; reflexivity).
  split; [exact Hreach |]. split; [exact Hp |].
  destruct (consume_after_destroy_never_rearms _ _ _ 0%nat Hreach Hp eq_refl [Fire 0%nat])
    as (o' & Hp' & _ & Hna & _ & Hle & _).
  exists o'. repeat split; done.
Defined.

(** ** The constructor *)




(** * Further properties of the code *)

(** ** Capacities *)

Lemma capacitiesPositive_prim b w w' :
  prim b w w' -> capacitiesPositive w -> capacitiesPositive w'.
Proof.
  unfold capacitiesPositive.
  destruct 1 as [w p o Hp Hc Hfull Hpos Hms | w p o t Hp Hlt Hc | w p o Hp Hlt Hc
    | w t to o evs Ht Hp Hevs | w p o t Hp Hc | w t to Ht Hp | w g name Hg
    | w g G p o Hg Hp Hc Hfull Hpos Hms];
    intros Inv q oq Hq; cbn in Hq; try (by apply (Inv _ _ Hq));
    heap_cases Hq; try (by apply (Inv _ _ Hq)); cbn; try done;
    by apply (Inv _ _ Hp).
Qed.

Lemma reachable_capacitiesPositive w : reachable w -> capacitiesPositive w.
Proof.
  intros [ops ->]. generalize (run_trail ops init).
  assert (capacitiesPositive init) as Hinit.
  { intros p o H. cbn [init poolHeap] in H. by rewrite lookup_empty in H. }
  revert Hinit. generalize init (run ops init).
  intros w1 w2 H1 Htrail. induction Htrail; eauto using capacitiesPositive_prim.
Qed.

Lemma reachable_handlesIssued w : reachable w -> handlesIssued w.
Proof.
  intros [ops ->]. eapply handlesIssued_trail;
    [apply run_trail | apply handlesIssued_init].
Qed.

Lemma reachable_exec op w : reachable w -> reachable (exec op w).
Proof. intros H. by apply (reachable_run [op]). Qed.

(** ** The constructor accepts exactly the well-formed arguments *)

Lemma inject_Z_eq (a b : Z) : (inject_Z a == inject_Z b)%Q -> a = b.
Proof. unfold Qeq. cbn. lia. Qed.

Lemma validate_accepts {Fn} (qc qi : Q) (c i : Z) (f : Callback) :
  (qc == inject_Z c)%Q -> (qi == inject_Z i)%Q ->
  0 < c < 10 ^ 21 -> 0 < i < 10 ^ 21 ->
  ResourcePool.validate (Fn:=Fn) (JsNumber qc) (JsNumber qi) (JsFunction f)
    = Normal (c, i, f).
Proof.
  intros Hc Hi Hcb Hib. unfold ResourcePool.validate.
  destruct (accepts_number (Fn:=Fn) qc c Hc Hcb) as (-> & -> & ->).
  destruct (accepts_number (Fn:=Fn) qi i Hi Hib) as (-> & -> & ->).
  done.
Qed.

(** X1.  [new ResourcePool(poolSize, interval, callback)] succeeds exactly
    when [poolSize] and [interval] are numbers equal to positive integers
    below 10^21 and [callback] is a function; the new pool then holds exactly
    these integers as capacity and interval, is full, and has no timer-handle
    record. *)
Theorem constructor_accepts_positive_integers
    (poolSize interval callback : JsValue Callback) (w : World) :
  ((exists p, fst (ResourcePool.constructor poolSize interval callback w) = Normal p) <->
   (exists (qc qi : Q) (c i : Z) (f : Callback),
      poolSize = JsNumber qc /\ (qc == inject_Z c)%Q /\ 0 < c < 10 ^ 21 /\
      interval = JsNumber qi /\ (qi == inject_Z i)%Q /\ 0 < i < 10 ^ 21 /\
      callback = JsFunction f)) /\
  (forall (qc qi : Q) (c i : Z) (f : Callback),
     poolSize = JsNumber qc -> (qc == inject_Z c)%Q -> 0 < c < 10 ^ 21 ->
     interval = JsNumber qi -> (qi == inject_Z i)%Q -> 0 < i < 10 ^ 21 ->
     callback = JsFunction f ->
     exists p,
       poolHeap w !! p = None /\
       ResourcePool.constructor poolSize interval callback w =
         (Normal p, setPool p (mkPool c i f None c) w)).
Proof.
  split.
  - split.
    + intros [p Hp].
      destruct (ResourcePool.constructor poolSize interval callback w) as [r w'] eqn:E.
      cbn in Hp. subst r.
      apply constructor_ok in E
        as (o & qc & qi & f & _ & _ & -> & Hc & -> & Hi & -> & _ & _ & _
            & Hcpos & Hipos & Hcb & Hib).
      by exists qc, qi, (poolSizes o), (intervals o), f.
    + intros (qc & qi & c & i & f & -> & Hc & Hcb & -> & Hi & Hib & ->).
      unfold ResourcePool.constructor.
      rewrite (validate_accepts qc qi c i f Hc Hi Hcb Hib). by eexists.
  - intros qc qi c i f -> Hc Hcb -> Hi Hib ->.
    unfold ResourcePool.constructor.
    rewrite (validate_accepts qc qi c i f Hc Hi Hcb Hib).
    eexists. split; [apply fresh_pool_free | done].
Qed.

(** ** ResourceGroup.add *)

(** The guards of [add] are the first four checks of the constructor. *)
Lemma guards_validate {Fn} (poolSize interval : JsValue Fn) (f : Callback) :
  ResourcePool.validate poolSize interval (JsFunction f) =
    let? _ := ResourceGroup.guards poolSize interval in
    Normal (ResourcePool.toInteger poolSize, ResourcePool.toInteger interval, f).
Proof.
  unfold ResourcePool.validate, ResourceGroup.guards.
  destruct (utils.isPositive poolSize) as [[|] | |]; cbn; try done.
  destruct (utils.isInt poolSize) as [[|] | |]; cbn; try done.
  destruct (utils.isPositive interval) as [[|] | |]; cbn; try done.
  by destruct (utils.isInt interval) as [[|] | |].
Qed.

Lemma add_accepts {Fn} g G (qc qi : Q) (c i : Z) w :
  groupHeap w !! g = Some G ->
  (qc == inject_Z c)%Q -> (qi == inject_Z i)%Q ->
  0 < c < 10 ^ 21 -> 0 < i < 10 ^ 21 ->
  ResourceGroup.add (Fn:=Fn) g (JsNumber qc) (JsNumber qi) w =
    (Normal g,
     setGroup g (mkGroup (groupPools G ++ [fresh (dom (poolHeap w))]) (groupCallbacks G))
       (setPool (fresh (dom (poolHeap w))) (mkPool c i (Relay g) None c) w)).
Proof.
  intros Hg Hc Hi Hcb Hib.
  pose proof (validate_accepts (Fn:=Fn) qc qi c i (Relay g) Hc Hi Hcb Hib) as Hv.
  unfold ResourceGroup.add, ResourcePool.constructor. rewrite Hv.
  rewrite guards_validate in Hv.
  destruct (ResourceGroup.guards (JsNumber qc) (JsNumber qi)); [| done ..].
  by rewrite Hg.
Qed.

Lemma add_ok {Fn} g G (poolSize interval : JsValue Fn) w r w' :
  groupHeap w !! g = Some G ->
  ResourceGroup.add g poolSize interval w = (Normal r, w') ->
  exists (qc qi : Q) (c i : Z),
    poolSize = JsNumber qc /\ (qc == inject_Z c)%Q /\ 0 < c /\
    interval = JsNumber qi /\ (qi == inject_Z i)%Q /\ 0 < i /\
    c < 10 ^ 21 /\ i < 10 ^ 21.
Proof.
  intros Hg. unfold ResourceGroup.add.
  destruct (ResourceGroup.guards poolSize interval) as [[] | |] eqn:E; [| done ..].
  intros _.
  pose proof (guards_validate poolSize interval (Relay g)) as Hv.
  rewrite E in Hv. cbn in Hv.
  apply validate_ok in Hv
    as (qc & qi & -> & -> & _ & Hc & Hi & Hcpos & Hipos & Hcb & Hib).
  by eexists qc, qi, _, _.
Qed.

(** X2.  A successful [group.add(poolSize, interval)] returns the group
    itself and changes exactly two things: a pool that did not exist before
    is created, full, with the given capacity and interval, without a
    timer-handle record and with the relay bound to this group as its
    callback; and this pool is appended at the end of the group's members,
    whose order is kept.  No timeout is armed and nothing else changes. *)
Theorem add_appends_one_full_member
    (g : GroupId) (G : GroupObj) (poolSize interval : JsValue Callback)
    (w w' : World) (r : GroupId) :
  groupHeap w !! g = Some G ->
  ResourceGroup.add g poolSize interval w = (Normal r, w') ->
  r = g /\
  exists (p : PoolId) (qc qi : Q) (c i : Z),
    poolSize = JsNumber qc /\ (qc == inject_Z c)%Q /\ 0 < c /\
    interval = JsNumber qi /\ (qi == inject_Z i)%Q /\ 0 < i /\
    poolHeap w !! p = None /\
    poolHeap w' = <[p := mkPool c i (Relay g) None c]> (poolHeap w) /\
    groupHeap w' =
      <[g := mkGroup (groupPools G ++ [p]) (groupCallbacks G)]> (groupHeap w) /\
    timers w' = timers w /\ nextTimer w' = nextTimer w /\ trace w' = trace w.
Proof.
  intros Hg E.
  destruct (add_ok g G poolSize interval w r w' Hg E)
    as (qc & qi & c & i & -> & Hc & Hcpos & -> & Hi & Hipos & Hcb & Hib).
  rewrite (add_accepts g G qc qi c i w Hg Hc Hi (conj Hcpos Hcb) (conj Hipos Hib)) in E.
  injection E as <- <-. split; [done |].
  exists (fresh (dom (poolHeap w))), qc, qi, c, i.
  repeat split; try done. apply fresh_pool_free.
Qed.

Lemma add_appends_witness :
  let w := run [NewGroup (JsFunction 9%nat)] init in
  let w' := run [NewGroup (JsFunction 9%nat); Add 0%nat (num 2) (num 10)] init in
  groupHeap w !! 0%nat = Some (mkGroup [] 9%nat) /\
  ResourceGroup.add (Fn:=Callback) 0%nat (num 2) (num 10) w = (Normal 0%nat, w') /\
  exists p, groupHeap w' !! 0%nat = Some (mkGroup [p] 9%nat) /\ timers w' = timers w.
Proof.
  cbv zeta.
  assert (groupHeap (run [NewGroup (JsFunction 9%nat)] init) !! 0%nat
          = Some (mkGroup [] 9%nat)) as Hg by (vm_compute; reflexivity).
  assert (ResourceGroup.add (Fn:=Callback) 0%nat (num 2) (num 10)
            (run [NewGroup (JsFunction 9%nat)] init)
          = (Normal 0%nat,
             run [NewGroup (JsFunction 9%nat); Add 0%nat (num 2) (num 10)] init))
    as E by (vm_compute; reflexivity).
  split; [exact Hg |]. split; [exact E |].
  destruct (add_appends_one_full_member _ _ _ _ _ _ _ Hg E)
    as (_ & p & qc & qi & c & i & _ & _ & _ & _ & _ & _ & _ & _ & Hgh & Ht & _).
  exists p. split; [| exact Ht]. rewrite Hgh. by rewrite lookup_insert_eq.
Defined.

(** X3.  [group.add] rejects exactly the arguments that the pool constructor
    rejects, with the same message, before anything is changed; since the
    callback it passes on is its own relay, it never fails with
    [INVALID_CALLBACK_TYPE].  What a conversion of an argument throws passes
    through [add] as it passes through the constructor. *)
Theorem add_rejects_like_constructor
    (g : GroupId) (G : GroupObj) (poolSize interval : JsValue Callback) (w : World) :
  groupHeap w !! g = Some G ->
  (forall msg,
     fst (ResourceGroup.add g poolSize interval w) = Throw msg <->
     fst (ResourcePool.constructor poolSize interval (JsFunction (Relay g)) w) = Throw msg) /\
  (forall msg,
     fst (ResourceGroup.add g poolSize interval w) = Throw msg ->
     snd (ResourceGroup.add g poolSize interval w) = w /\
     msg <> ErrorMessages.INVALID_CALLBACK_TYPE) /\
  (forall e,
     fst (ResourceGroup.add g poolSize interval w) = Raise e <->
     fst (ResourcePool.constructor poolSize interval (JsFunction (Relay g)) w) = Raise e) /\
  (forall e,
     fst (ResourceGroup.add g poolSize interval w) = Raise e ->
     snd (ResourceGroup.add g poolSize interval w) = w).
Proof.
  intros Hg.
  unfold ResourceGroup.add, ResourcePool.constructor.
  rewrite guards_validate. unfold ResourceGroup.guards.
  destruct (utils.isPositive poolSize) as [[|] | msg1 | e1] eqn:E1; cbn;
    try (by repeat split; intros; simplify_eq);
    [| by apply isPositive_not_Throw in E1].
  destruct (utils.isInt poolSize) as [[|] | msg2 | e2] eqn:E2; cbn;
    try (by repeat split; intros; simplify_eq);
    [| by apply isInt_not_Throw in E2].
  destruct (utils.isPositive interval) as [[|] | msg3 | e3] eqn:E3; cbn;
    try (by repeat split; intros; simplify_eq);
    [| by apply isPositive_not_Throw in E3].
  destruct (utils.isInt interval) as [[|] | msg4 | e4] eqn:E4; cbn;
    try (by repeat split; intros; simplify_eq);
    [| by apply isInt_not_Throw in E4].
  rewrite Hg. cbn. done.
Qed.

Lemma add_rejects_witness :
  let w := run [NewGroup (JsFunction 9%nat)] init in
  groupHeap w !! 0%nat = Some (mkGroup [] 9%nat) /\
  (fst (ResourceGroup.add (Fn:=Callback) 0%nat (JsNumber (314 # 100)) (num 1) w)
     = Throw ErrorMessages.INVALID_POOL_SIZE_TYPE <->
   fst (ResourcePool.constructor (Fn:=Callback) (JsNumber (314 # 100)) (num 1)
          (JsFunction (Relay 0%nat)) w)
     = Throw ErrorMessages.INVALID_POOL_SIZE_TYPE).
Proof.
  cbv zeta.
  assert (groupHeap (run [NewGroup (JsFunction 9%nat)] init) !! 0%nat
          = Some (mkGroup [] 9%nat)) as Hg by (vm_compute; reflexivity).
  split; [exact Hg |].
  apply (add_rejects_like_constructor _ _ (JsNumber (314 # 100)) (num 1) _ Hg).
Defined.

Lemma Math_min_snoc l c :
  l <> [] ->
  ResourceGroup.Math_min (l ++ [c]) = Z.min (ResourceGroup.Math_min l) c.
Proof.
  destruct l as [| x xs]; [done |]. intros _. cbn.
  by rewrite fold_left_app.
Qed.

Lemma poolRemaining_after_alloc w p o g G q :
  poolHeap w !! p = None ->
  is_Some (poolHeap w !! q) ->
  ResourceGroup.poolRemaining (setGroup g G (setPool p o w)) q =
  ResourceGroup.poolRemaining w q.
Proof.
  intros Hfree [oq Hq]. unfold ResourceGroup.poolRemaining. cbn.
  rewrite lookup_insert_ne; [done | congruence].
Qed.

(** X4.  In a reachable state, after a successful [group.add(c, interval)]
    the group's [remaining] is [c] if the group had no member (where reading
    [remaining] threw before), and the smaller of the former [remaining] and
    [c] otherwise. *)
Theorem remaining_after_add
    (w w' : World) (g : GroupId) (G : GroupObj) (poolSize interval : JsValue Callback) :
  reachable w ->
  groupHeap w !! g = Some G ->
  ResourceGroup.add g poolSize interval w = (Normal g, w') ->
  exists (G' : GroupObj) (qc : Q) (c : Z),
    groupHeap w' !! g = Some G' /\
    poolSize = JsNumber qc /\ (qc == inject_Z c)%Q /\
    ResourceGroup.remaining G' w' =
      Normal (match ResourceGroup.remaining G w with
              | Normal m => Z.min m c
              | Throw _ | Raise _ => c
              end).
Proof.
  intros Hreach Hg E.
  destruct (reachable_groupsOwnPools w Hreach g G Hg) as [_ Hown].
  destruct (add_ok g G poolSize interval w g w' Hg E)
    as (qc & qi & c & i & -> & Hc & Hcpos & -> & Hi & Hipos & Hcb & Hib).
  rewrite (add_accepts g G qc qi c i w Hg Hc Hi (conj Hcpos Hcb) (conj Hipos Hib)) in E.
  injection E as <-.
  set (p := fresh (dom (poolHeap w))).
  pose proof (fresh_pool_free w) as Hfree. fold p in Hfree.
  exists (mkGroup (groupPools G ++ [p]) (groupCallbacks G)), qc, c.
  split; [cbn; by rewrite lookup_insert_eq |]. split; [done |]. split; [done |].
  rewrite group_remaining_members by (cbn; by destruct (groupPools G)).
  f_equal. cbn [groupPools]. rewrite map_app. cbn [map].
  assert (map (ResourceGroup.poolRemaining
                 (setGroup g (mkGroup (groupPools G ++ [p]) (groupCallbacks G))
                    (setPool p (mkPool c i (Relay g) None c) w)))
              (groupPools G)
          = map (ResourceGroup.poolRemaining w) (groupPools G)) as ->.
  { apply map_ext_in. intros q Hq. apply list_elem_of_In in Hq.
    apply (poolRemaining_after_alloc w p _ g _ q Hfree). by apply Hown. }
  assert (ResourceGroup.poolRemaining
            (setGroup g (mkGroup (groupPools G ++ [p]) (groupCallbacks G))
               (setPool p (mkPool c i (Relay g) None c) w)) p = c) as ->.
  { unfold ResourceGroup.poolRemaining. cbn. by rewrite lookup_insert_eq. }
  destruct (groupPools G) as [| q l] eqn:El.
  - by rewrite (group_remaining_empty G w El).
  - rewrite group_remaining_members by (by rewrite El).
    rewrite El. by apply Math_min_snoc.
Qed.

Lemma remaining_after_add_witness :
  let w := run [NewGroup (JsFunction 9%nat); Add 0%nat (num 2) (num 10)] init in
  let w' := run twoMembers init in
  reachable w /\
  groupHeap w !! 0%nat = Some (mkGroup [0%nat] 9%nat) /\
  ResourceGroup.add (Fn:=Callback) 0%nat (num 5) (num 10) w = (Normal 0%nat, w') /\
  exists G', groupHeap w' !! 0%nat = Some G' /\ ResourceGroup.remaining G' w' = Normal 2.
Proof.
  cbv zeta.
  assert (reachable (run [NewGroup (JsFunction 9%nat); Add 0%nat (num 2) (num 10)] init))
    as Hreach by (by eexists).
  assert (groupHeap (run [NewGroup (JsFunction 9%nat); Add 0%nat (num 2) (num 10)] init)
            !! 0%nat = Some (mkGroup [0%nat] 9%nat)) as Hg by (vm_compute; reflexivity).
  assert (ResourceGroup.add (Fn:=Callback) 0%nat (num 5) (num 10)
            (run [NewGroup (JsFunction 9%nat); Add 0%nat (num 2) (num 10)] init)
          = (Normal 0%nat, run twoMembers init)) as E by (vm_compute; reflexivity).
  split; [exact Hreach |]. split; [exact Hg |]. split; [exact E |].
  destruct (remaining_after_add _ _ _ _ _ _ Hreach Hg E)
    as (G' & qc & c & HG' & [= <-] & Hc & Hrem).
  exists G'. split; [exact HG' |]. rewrite Hrem.
  apply inject_Z_eq in Hc as <-. vm_compute. reflexivity.
Defined.

(** ** ResourceGroup.exhausted *)

Lemma exhausted_members (G : GroupObj) (w : World) :
  groupPools G <> [] ->
  (ResourceGroup.exhausted G w = Normal true <->
   exists p, p ∈ groupPools G /\ ResourceGroup.poolRemaining w p <= 0) /\
  (ResourceGroup.exhausted G w = Normal false <->
   forall p, p ∈ groupPools G -> 0 < ResourceGroup.poolRemaining w p).
Proof.
  intros Hne. unfold ResourceGroup.exhausted, bindC.
  rewrite (group_remaining_members G w Hne).
  assert (map (ResourceGroup.poolRemaining w) (groupPools G) <> []) as Hne'.
  { intros E. apply Hne. by apply map_eq_nil in E. }
  destruct (Math_min_spec _ Hne') as [Hin Hleast].
  apply list_elem_of_In, in_map_iff in Hin as (pm & Hpm & Hinm).
  apply list_elem_of_In in Hinm.
  assert (forall p, p ∈ groupPools G ->
            ResourceGroup.Math_min (map (ResourceGroup.poolRemaining w) (groupPools G))
              <= ResourceGroup.poolRemaining w p) as Hle.
  { intros p Hp. apply Hleast. apply list_elem_of_In, in_map, list_elem_of_In, Hp. }
  split; split.
  - intros [= Hb]. apply Z.leb_le in Hb. exists pm. split; [done | lia].
  - intros (p & Hp & Hp0). f_equal. apply Z.leb_le. specialize (Hle p Hp). lia.
  - intros [= Hb] p Hp. apply Z.leb_gt in Hb. specialize (Hle p Hp). lia.
  - intros Hall. f_equal. apply Z.leb_gt. rewrite <- Hpm. by apply Hall.
Qed.

(** X5.  A group with at least one member is exhausted exactly when at least
    one of its members has no resource left ([remaining <= 0]). *)
Theorem group_exhausted_iff_member_exhausted (G : GroupObj) (w : World) :
  groupPools G <> [] ->
  (ResourceGroup.exhausted G w = Normal true <->
   exists p, p ∈ groupPools G /\ ResourceGroup.poolRemaining w p <= 0) /\
  (ResourceGroup.exhausted G w = Normal false <->
   forall p, p ∈ groupPools G -> 0 < ResourceGroup.poolRemaining w p).
Proof. apply exhausted_members. Qed.

Lemma group_exhausted_witness :
  let w := run (twoMembers ++ [GroupConsume 0%nat; GroupConsume 0%nat]) init in
  groupPools (mkGroup [0%nat; 1%nat] 9%nat) <> [] /\
  ResourceGroup.poolRemaining w 0%nat = 0 /\
  ResourceGroup.poolRemaining w 1%nat = 3 /\
  ResourceGroup.exhausted (mkGroup [0%nat; 1%nat] 9%nat) w = Normal true.
Proof.
  cbv zeta.
  assert (groupPools (mkGroup [0%nat; 1%nat] 9%nat) <> []) as Hne by done.
  split; [exact Hne |].
  split; [vm_compute; reflexivity |]. split; [vm_compute; reflexivity |].
  apply (group_exhausted_iff_member_exhausted _ _ Hne).
  exists 0%nat. split; [apply list_elem_of_here | by vm_compute].
Defined.

(** ** replenishCallback: the group's notification *)





(** ** ResourceGroup.destroy *)

Lemma destroy_timers_spec q w u tu :
  timers (ResourcePool.destroy q w) !! u = Some tu <->
  timers w !! u = Some tu /\
  forall o, poolHeap w !! q = Some o -> cycles o <> Some u.
Proof.
  destruct (poolHeap w !! q) as [o |] eqn:Hq.
  - destruct (cycles o) as [t |] eqn:Hc.
    + rewrite (destroy_recorded q o t w Hq Hc). cbn. rewrite lookup_delete_Some.
      split.
      * intros [Hne Hu]. split; [done |]. intros o' [= <-]. congruence.
      * intros [Hu Hno]. split; [| done]. intros <-. by apply (Hno o).
    + rewrite (destroy_idle q o w Hq Hc). split; [| by intros [? _]].
      intros Hu. split; [done |]. intros o' [= <-]. congruence.
  - rewrite (destroy_dangling q w Hq). split; [| by intros [? _]].
    intros Hu. split; [done |]. by intros o'.
Qed.

Lemma destroyEach_timers_spec l : forall w u tu,
  timers (ResourceGroup.destroyEach l w) !! u = Some tu <->
  timers w !! u = Some tu /\
  forall p o, p ∈ l -> poolHeap w !! p = Some o -> cycles o <> Some u.
Proof.
  induction l as [| q l IH]; intros w u tu.
  - cbn. split; [| by intros [? _]].
    intros Hu. split; [done |]. intros p o Hp. by apply elem_of_nil in Hp.
  - cbn. rewrite IH, destroy_timers_spec, destroy_poolHeap. split.
    + intros [[Hu Hq] Hl]. split; [done |]. intros p o Hp Ho.
      apply elem_of_cons in Hp as [-> | Hp]; [by apply Hq | by apply (Hl p)].
    + intros [Hu Hall]. split; [split; [done |] |].
      * intros o. apply Hall, list_elem_of_here.
      * intros p o Hp. by apply Hall, list_elem_of_further.
Qed.

Lemma destroyEach_groupHeap l : forall w,
  groupHeap (ResourceGroup.destroyEach l w) = groupHeap w.
Proof.
  induction l as [| q l IH]; intros w; [done |].
  cbn. rewrite IH. unfold ResourcePool.destroy.
  destruct (poolHeap w !! q) as [o |]; [| done]. by destruct (cycles o).
Qed.

Lemma destroyEach_nothing_pending l : forall w,
  (forall p o t, p ∈ l -> poolHeap w !! p = Some o -> cycles o = Some t ->
     timers w !! t = None) ->
  ResourceGroup.destroyEach l w = w.
Proof.
  induction l as [| q l IH]; intros w Hall; [done |].
  cbn.
  assert (ResourcePool.destroy q w = w) as ->; [| apply IH].
  - destruct (poolHeap w !! q) as [o |] eqn:Hq.
    + destruct (cycles o) as [t |] eqn:Hc.
      * rewrite (destroy_recorded q o t w Hq Hc). unfold clearTimeout.
        rewrite delete_id; [apply world_eta |].
        apply (Hall q o t); [apply list_elem_of_here | done | done].
      * by apply (destroy_idle q o).
    + by apply destroy_dangling.
  - intros p o t Hp. apply Hall. by apply list_elem_of_further.
Qed.

(** X7.  In a reachable state [group.destroy()] touches no pool and no
    group; afterwards no cycle is armed for any member, while the cycles of
    the pools outside the group stay as they were; a second [destroy()]
    changes nothing.  Every member that had a timer-handle record is silent
    from then on: whatever happens next, its cycle never elapses (so it never
    relays a notification to the group) and no cycle is armed for it again. *)
Theorem group_destroy_cancels_every_member (w : World) (g : GroupId) (G : GroupObj) :
  reachable w ->
  groupHeap w !! g = Some G ->
  let wd := ResourceGroup.destroy g w in
  poolHeap wd = poolHeap w /\
  groupHeap wd = groupHeap w /\
  (forall p, p ∈ groupPools G -> ~ armed wd p) /\
  (forall q, q ∉ groupPools G -> armed wd q <-> armed w q) /\
  ResourceGroup.destroy g wd = wd /\
  (forall p o, p ∈ groupPools G -> poolHeap w !! p = Some o -> is_Some (cycles o) ->
     forall ops, quietFor p wd (run ops wd) /\ ~ armed (run ops wd) p).
Proof.
  intros Hreach Hg wd.
  pose proof (reachable_timersRecorded w Hreach) as Hrec.
  pose proof (reachable_recordsDistinct w Hreach) as Hdist.
  assert (wd = ResourceGroup.destroyEach (groupPools G) w) as Hwd
    by (unfold wd, ResourceGroup.destroy; by rewrite Hg).
  assert (poolHeap wd = poolHeap w) as Hheap
    by (rewrite Hwd; apply destroyEach_poolHeap).
  assert (groupHeap wd = groupHeap w) as Hgroups
    by (rewrite Hwd; apply destroyEach_groupHeap).
  assert (forall p, p ∈ groupPools G -> ~ armed wd p) as Hquiet.
  { intros p Hp (u & tu & Hu & Htarget). rewrite Hwd in Hu.
    apply destroyEach_timers_spec in Hu as [Hu Hno].
    destruct (Hrec u tu Hu) as (o & Ho & Hc). rewrite Htarget in Ho.
    by apply (Hno p o). }
  split; [done |]. split; [done |]. split; [done |]. split; [| split].
  - intros q Hq. split.
    + intros (u & tu & Hu & Htarget). rewrite Hwd in Hu.
      apply destroyEach_timers_spec in Hu as [Hu _]. by exists u, tu.
    + intros (u & tu & Hu & Htarget). exists u, tu. split; [| done].
      rewrite Hwd. apply destroyEach_timers_spec. split; [done |].
      intros p o Hp Ho Hc.
      destruct (Hrec u tu Hu) as (oq & Hoq & Hcq). rewrite Htarget in Hoq.
      apply Hq. by rewrite <- (Hdist p q o oq u Ho Hoq Hc Hcq).
  - unfold ResourceGroup.destroy. rewrite Hgroups, Hg.
    apply destroyEach_nothing_pending. intros p o t Hp Ho Hc.
    destruct (timers wd !! t) as [tu |] eqn:Hu; [| done]. exfalso.
    rewrite Hwd in Hu. apply destroyEach_timers_spec in Hu as [_ Hno].
    rewrite Hheap in Ho. by apply (Hno p o).
  - intros p o Hp Ho [t Hc] ops.
    assert (cancelled wd p) as Hcan.
    { split; [| by apply Hquiet]. exists o, t. by rewrite Hheap. }
    destruct (cancelled_run ops wd p Hcan) as ([_ Hna] & _ & Hq). by split.
Qed.

Lemma group_destroy_witness :
  let w := run (twoMembers ++ [GroupConsume 0%nat]) init in
  reachable w /\
  groupHeap w !! 0%nat = Some (mkGroup [0%nat; 1%nat] 9%nat) /\
  armed w 1%nat /\
  ~ armed (ResourceGroup.destroy 0%nat w) 1%nat.
Proof.
  cbv zeta.
  set (w := run (twoMembers ++ [GroupConsume 0%nat]) init).
  assert (reachable w) as Hreach by (by eexists).
  assert (groupHeap w !! 0%nat = Some (mkGroup [0%nat; 1%nat] 9%nat)) as Hg
    by (vm_compute; reflexivity).
  split; [exact Hreach |]. split; [exact Hg |]. split.
  - exists 1%nat, (mkTimeout 1%nat 10). split; [vm_compute; reflexivity | done].
  - destruct (group_destroy_cancels_every_member w _ _ Hreach Hg) as (_ & _ & Hnone & _).
    apply Hnone. apply list_elem_of_further, list_elem_of_here.
Defined.

(** ** One whole cycle of a pool *)

Lemma consumeTimes_recorded p (n : nat) : forall w o t,
  poolHeap w !! p = Some o -> cycles o = Some t ->
  Z.of_nat n <= currentPoolSize o ->
  currentPoolSize o <= 2 ^ 53 ->
  exists w',
    ResourcePool.consumeTimes n p w = (repeat true n, w') /\
    poolHeap w' =
      <[p := ResourcePool.setCurrent o (currentPoolSize o - Z.of_nat n)]> (poolHeap w) /\
    groupHeap w' = groupHeap w /\ timers w' = timers w /\
    nextTimer w' = nextTimer w /\ trace w' = trace w.
Proof.
  induction n as [| n IH]; intros w o t Hp Hc Hle Hsafe.
  - exists w. split; [done |]. split; [| done].
    rewrite Z.sub_0_r. unfold ResourcePool.setCurrent.
    rewrite pool_eta. by rewrite insert_id.
  - assert (0 < currentPoolSize o) as Hlt by lia.
    cbn [ResourcePool.consumeTimes repeat].
    rewrite (consume_recorded p o t w Hp Hlt Hc).
    rewrite (doubleMinusOne_exact _ Hsafe).
    destruct (IH (setPool p (ResourcePool.setCurrent o (currentPoolSize o - 1)) w)
                 (ResourcePool.setCurrent o (currentPoolSize o - 1)) t)
      as (w' & E & Hheap & Hgh & Htm & Hnt & Htr).
    + cbn. apply lookup_insert_eq.
    + done.
    + cbn. lia.
    + cbn. lia.
    + rewrite E. exists w'. split; [done |].
      split; [| done]. rewrite Hheap. cbn. rewrite insert_insert_eq.
      do 2 f_equal. lia.
Qed.

Lemma intervalsPositive_prim b w w' :
  prim b w w' -> intervalsPositive w -> intervalsPositive w'.
Proof.
  unfold intervalsPositive.
  destruct 1 as [w p o Hp Hc Hfull Hpos Hms | w p o t Hp Hlt Hc | w p o Hp Hlt Hc
    | w t to o evs Ht Hp Hevs | w p o t Hp Hc | w t to Ht Hp | w g name Hg
    | w g G p o Hg Hp Hc Hfull Hpos Hms];
    intros Inv q oq Hq; cbn in Hq; try (by apply (Inv _ _ Hq));
    heap_cases Hq; try (by apply (Inv _ _ Hq)); cbn; try done;
    by apply (Inv _ _ Hp).
Qed.

Lemma reachable_intervalsPositive w : reachable w -> intervalsPositive w.
Proof.
  intros [ops ->]. generalize (run_trail ops init).
  assert (intervalsPositive init) as Hinit.
  { intros p o H. cbn [init poolHeap] in H. by rewrite lookup_empty in H. }
  revert Hinit. generalize init (run ops init).
  intros w1 w2 H1 Htrail. induction Htrail; eauto using intervalsPositive_prim.
Qed.

(** X8.  In a reachable state take a pool without a timer-handle record (it
    is full), of a capacity of at most 2^53, and call [consume()] [k] times,
    [1 <= k <= capacity].  All calls return [true] and together they arm
    exactly one timeout, whose delay is the pool's interval, or 1 ms when the
    interval is above the host's limit of 2^31 - 1.  When that timeout is
    delivered, the pool, the other pools and the host's queue are exactly as
    before the first call; the pool's callback was called, seeing the pool
    full, if [k] was the whole capacity, and was not called if [k] was
    less. *)
Theorem consume_then_cycle_restores_pool (w : World) (p : PoolId) (o : PoolObj) (k : nat) :
  reachable w ->
  poolHeap w !! p = Some o ->
  cycles o = None ->
  (0 < k)%nat ->
  Z.of_nat k <= poolSizes o ->
  poolSizes o <= 2 ^ 53 ->
  exists w1 ms,
    ResourcePool.consumeTimes k p w = (repeat true k, w1) /\
    timers w !! nextTimer w = None /\
    timers w1 = <[nextTimer w := mkTimeout p ms]> (timers w) /\
    (intervals o <= TIMEOUT_MAX -> ms = intervals o) /\
    (TIMEOUT_MAX < intervals o -> ms = 1) /\
    ResourceGroup.poolRemaining w1 p = poolSizes o - Z.of_nat k /\
    poolHeap (Host.fire (nextTimer w) w1) = poolHeap w /\
    timers (Host.fire (nextTimer w) w1) = timers w /\
    groupHeap (Host.fire (nextTimer w) w1) = groupHeap w /\
    exists evs,
      trace (Host.fire (nextTimer w) w1) = trace w ++ Elapsed p :: evs /\
      (Z.of_nat k < poolSizes o -> evs = []) /\
      (forall name, Z.of_nat k = poolSizes o -> callbacks o = UserFn name ->
         evs = [Called name (poolHeap w)]).
Proof.
  intros Hreach Hp Hc Hk Hle Hsafe.
  pose proof (reachable_idleFull w Hreach p o Hp Hc) as Hfull.
  pose proof (reachable_intervalsPositive w Hreach p o Hp) as Hms.
  assert (timers w !! nextTimer w = None) as Hfree.
  { destruct (timers w !! nextTimer w) as [tu |] eqn:E; [| done].
    destruct (reachable_handlesIssued w Hreach) as [Hissued _].
    specialize (Hissued _ _ E). lia. }
  destruct k as [| k]; [lia |].
  assert (0 < currentPoolSize o) as Hlt by lia.
  cbn [ResourcePool.consumeTimes repeat].
  rewrite (consume_idle p o w Hp Hlt Hc).
  rewrite doubleMinusOne_exact by lia.
  set (ms := timerDelay (intervals o)).
  set (oa := mkPool (poolSizes o) (intervals o) (callbacks o)
                    (Some (nextTimer w)) (currentPoolSize o - 1)).
  set (wa := mkWorld (<[p := oa]> (poolHeap w)) (groupHeap w)
                     (<[nextTimer w := mkTimeout p ms]> (timers w))
                     (S (nextTimer w)) (trace w)).
  destruct (consumeTimes_recorded p k wa oa (nextTimer w))
    as (w1 & E & Hheap & Hgh & Htm & Hnt & Htr).
  { cbn. apply lookup_insert_eq. }
  { done. }
  { cbn. lia. }
  { cbn. lia. }
  rewrite E. exists w1, ms. split; [done |]. split; [done |].
  split; [by rewrite Htm |].
  split; [intros Hmax; apply timerDelay_in_range; lia |].
  split; [apply timerDelay_above |].
  set (o1 := ResourcePool.setCurrent oa (currentPoolSize oa - Z.of_nat k)) in *.
  assert (poolHeap w1 !! p = Some o1) as Hp1 by (rewrite Hheap; apply lookup_insert_eq).
  split; [rewrite (poolRemaining_lookup _ _ _ Hp1); cbn; lia |].
  assert (timers w1 !! nextTimer w = Some (mkTimeout p ms)) as Ht1
    by (rewrite Htm; cbn; apply lookup_insert_eq).
  rewrite (fire_pending (nextTimer w) (mkTimeout p ms) o1 w1 Ht1 Hp1).
  cbv zeta. cbn [target poolSizes intervals callbacks o1 oa ResourcePool.setCurrent].
  assert (mkPool (poolSizes o) (intervals o) (callbacks o) None (poolSizes o) = o) as Hsame.
  { clear -Hfull Hc. destruct o. cbn in *. by subst. }
  rewrite Hsame.
  assert (<[p := o]> (poolHeap w1) = poolHeap w) as Hback.
  { rewrite Hheap. cbn. rewrite !insert_insert_eq. by apply insert_id. }
  assert (delete (nextTimer w) (timers w1) = timers w) as Htback.
  { rewrite Htm. cbn. rewrite delete_insert_eq. by apply delete_id. }
  rewrite Hback, Htback, Hgh, Htr.
  assert (ResourcePool.exhausted o1 = true <-> Z.of_nat (S k) = poolSizes o) as Hex.
  { rewrite exhausted_true. cbn. lia. }
  destruct (ResourcePool.exhausted o1) eqn:Hex1.
  - match goal with |- context [Host.call ?f ?wx] =>
      destruct (call_events f wx) as (evs & -> & _ & Huser) end.
    cbn. repeat split. exists evs. rewrite <- app_assoc. split; [done |].
    split; [| by intros name _ Hcb; apply Huser].
    intros Hless. apply proj1 in Hex. specialize (Hex eq_refl). lia.
  - cbn. repeat split. exists []. split; [done |]. split; [done |].
    intros name Heq. apply proj2 in Hex. by specialize (Hex Heq).
Qed.

Lemma consume_then_cycle_witness :
  let w := run twoPool init in
  reachable w /\
  poolHeap w !! 0%nat = Some (mkPool 2 5 (UserFn 7) None 2) /\
  exists w1,
    ResourcePool.consumeTimes 2 0%nat w = ([true; true], w1) /\
    poolHeap (Host.fire (nextTimer w) w1) = poolHeap w /\
    timers (Host.fire (nextTimer w) w1) = timers w.
Proof.
  cbv zeta.
  assert (reachable (run twoPool init)) as Hreach by (by eexists).
  assert (poolHeap (run twoPool init) !! 0%nat = Some (mkPool 2 5 (UserFn 7) None 2))
    as Hp by (vm_compute; reflexivity).
  split; [exact Hreach |]. split; [exact Hp |].
  destruct (consume_then_cycle_restores_pool _ _ _ 2%nat Hreach Hp eq_refl)
    as (w1 & ms & E & _ & _ & _ & _ & _ & Hheap & Htimers & _);
    [lia | cbn; lia | by cbn |].
  exists w1. split; [exact E |]. split; [exact Hheap | exact Htimers].
Defined.

(** ** Draining a group *)

Lemma consume_groupHeap p w :
  groupHeap (snd (ResourcePool.consume p w)) = groupHeap w.
Proof.
  unfold ResourcePool.consume.
  destruct (poolHeap w !! p) as [o |]; [| done].
  destruct (ResourcePool.exhausted o); [done |]. cbn.
  by destruct (cycles o).
Qed.

Lemma consumeEach_groupHeap l : forall w,
  groupHeap (ResourceGroup.consumeEach l w) = groupHeap w.
Proof.
  induction l as [| q l IH]; intros w; [done |].
  cbn. by rewrite IH, consume_groupHeap.
Qed.

Lemma fold_min_pred xs : forall x,
  fold_left Z.min (map (fun r => r - 1) xs) (x - 1) = fold_left Z.min xs x - 1.
Proof.
  induction xs as [| y xs IH]; intros x; [done |].
  cbn. rewrite <- IH. f_equal. lia.
Qed.

Lemma Math_min_pred l :
  l <> [] ->
  ResourceGroup.Math_min (map (fun r => r - 1) l) = ResourceGroup.Math_min l - 1.
Proof. destruct l as [| x xs]; [done |]. intros _. apply fold_min_pred. Qed.

Lemma group_consume_step w g G m :
  reachable w ->
  groupHeap w !! g = Some G ->
  ResourceGroup.remaining G w = Normal m ->
  0 < m ->
  (forall p, p ∈ groupPools G -> ResourceGroup.poolRemaining w p <= 2 ^ 53) ->
  exists w',
    ResourceGroup.consume g w = (Normal true, w') /\
    reachable w' /\
    groupHeap w' !! g = Some G /\
    ResourceGroup.remaining G w' = Normal (m - 1) /\
    (forall p, p ∈ groupPools G -> ResourceGroup.poolRemaining w' p <= 2 ^ 53).
Proof.
  intros Hreach Hg Hrem Hpos Hsafe.
  assert (groupPools G <> []) as Hne.
  { intros E. by rewrite (group_remaining_empty G w E) in Hrem. }
  destruct (reachable_groupsOwnPools w Hreach g G Hg) as [Hnd Hown].
  assert (ResourceGroup.exhausted G w = Normal false) as Hex.
  { unfold ResourceGroup.exhausted, bindC. rewrite Hrem. f_equal. by apply Z.leb_gt. }
  pose proof (proj1 (proj2 (exhausted_members G w Hne)) Hex) as Hall.
  assert (ResourceGroup.consume g w =
          (Normal true, ResourceGroup.consumeEach (groupPools G) w)) as E.
  { unfold ResourceGroup.consume. by rewrite Hg, Hex. }
  assert (forall q, q ∈ groupPools G ->
            ResourceGroup.poolRemaining (ResourceGroup.consumeEach (groupPools G) w) q
            = ResourceGroup.poolRemaining w q - 1) as Hdraw.
  { intros q Hq. rewrite consumeEach_members; [| done | | done].
    - apply doubleMinusOne_exact. by apply Hsafe.
    - intros r Hr. split; [by apply Hown | by apply Hall]. }
  exists (ResourceGroup.consumeEach (groupPools G) w).
  split; [done |]. split; [| split; [| split]].
  - replace (ResourceGroup.consumeEach (groupPools G) w)
      with (exec (GroupConsume g) w) by (cbn; by rewrite E).
    by apply reachable_exec.
  - by rewrite consumeEach_groupHeap.
  - rewrite (group_remaining_members G _ Hne).
    rewrite (group_remaining_members G w Hne) in Hrem. injection Hrem as <-.
    f_equal. rewrite <- Math_min_pred.
    + f_equal. rewrite map_map. apply map_ext_in. intros q Hq.
      apply list_elem_of_In in Hq. by apply Hdraw.
    + intros E'. apply Hne. by apply map_eq_nil in E'.
  - intros q Hq. rewrite (Hdraw q Hq). specialize (Hsafe q Hq). lia.
Qed.

(** X9.  In a reachable state, if a group's [remaining] is [m] and no
    member's counter is above 2^53, then [consume()] succeeds exactly [m]
    times in a row: [m] calls return [true], after them [remaining] is [0],
    and the next call returns [false] and changes nothing. *)
Theorem group_consume_until_exhausted (m : nat) :
  forall (w : World) (g : GroupId) (G : GroupObj),
    reachable w ->
    groupHeap w !! g = Some G ->
    ResourceGroup.remaining G w = Normal (Z.of_nat m) ->
    (forall p, p ∈ groupPools G -> ResourceGroup.poolRemaining w p <= 2 ^ 53) ->
    exists w',
      groupConsumeTimes m g w = (repeat (Normal true) m, w') /\
      ResourceGroup.remaining G w' = Normal 0 /\
      ResourceGroup.consume g w' = (Normal false, w').
Proof.
  induction m as [| m IH]; intros w g G Hreach Hg Hrem Hsafe.
  - exists w. split; [done |]. split; [done |].
    unfold ResourceGroup.consume, ResourceGroup.exhausted, bindC. by rewrite Hg, Hrem.
  - destruct (group_consume_step w g G _ Hreach Hg Hrem)
      as (w1 & E & Hreach1 & Hg1 & Hrem1 & Hsafe1); [lia | done |].
    replace (Z.of_nat (S m) - 1) with (Z.of_nat m) in Hrem1 by lia.
    destruct (IH w1 g G Hreach1 Hg1 Hrem1 Hsafe1) as (w' & E' & Hrem' & Hlast).
    exists w'. cbn [groupConsumeTimes repeat]. by rewrite E, E'.
Qed.

Lemma group_consume_until_exhausted_witness :
  let w := run twoMembers init in
  reachable w /\
  groupHeap w !! 0%nat = Some (mkGroup [0%nat; 1%nat] 9%nat) /\
  ResourceGroup.remaining (mkGroup [0%nat; 1%nat] 9%nat) w = Normal 2 /\
  exists w',
    groupConsumeTimes 2 0%nat w = ([Normal true; Normal true], w') /\
    ResourceGroup.consume 0%nat w' = (Normal false, w').
Proof.
  cbv zeta.
  assert (reachable (run twoMembers init)) as Hreach by (by eexists).
  assert (groupHeap (run twoMembers init) !! 0%nat = Some (mkGroup [0%nat; 1%nat] 9%nat))
    as Hg by (vm_compute; reflexivity).
  assert (ResourceGroup.remaining (mkGroup [0%nat; 1%nat] 9%nat) (run twoMembers init)
          = Normal (Z.of_nat 2)) as Hrem by (vm_compute; reflexivity).
  split; [exact Hreach |]. split; [exact Hg |]. split; [exact Hrem |].
  destruct (group_consume_until_exhausted 2 _ _ _ Hreach Hg Hrem) as (w' & E & _ & Hlast).
  { intros p Hp. cbn in Hp.
    apply elem_of_cons in Hp as [-> | Hp]; [by vm_compute |].
    apply list_elem_of_singleton in Hp as ->. by vm_compute. }
  exists w'. split; [exact E | exact Hlast].
Defined.

(** ** Pools do not interfere *)

Lemma consume_timers_other (w : World) p q :
  p <> q ->
  (forall t to, timers w !! t = Some to -> (t < nextTimer w)%nat) ->
  armed (snd (ResourcePool.consume q w)) p <-> armed w p.
Proof.
  intros Hne Hissued.
  destruct (poolHeap w !! q) as [o |] eqn:Hq.
  - destruct (Z_lt_le_dec 0 (currentPoolSize o)) as [Hlt | Hle].
    + destruct (cycles o) as [t |] eqn:Hc.
      * by rewrite (consume_recorded q o t w Hq Hlt Hc).
      * rewrite (consume_idle q o w Hq Hlt Hc). cbn. split.
        -- intros (u & tu & Hu & Htarget). cbn in Hu.
           apply lookup_insert_Some in Hu as [[<- <-] | [_ Hu]];
             [by cbn in Htarget | by exists u, tu].
        -- intros (u & tu & Hu & Htarget). exists u, tu. split; [| done]. cbn.
           rewrite lookup_insert_ne; [done |]. specialize (Hissued _ _ Hu). lia.
    + by rewrite (consume_exhausted q o w Hq Hle).
  - by rewrite (consume_dangling q w Hq).
Qed.

Lemma consumeEach_armed_other l : forall w p,
  reachable w -> p ∉ l ->
  armed (ResourceGroup.consumeEach l w) p <-> armed w p.
Proof.
  induction l as [| q l IH]; intros w p Hreach Hp; [done |].
  apply not_elem_of_cons in Hp as [Hne Hp]. cbn.
  rewrite IH; [| by apply (reachable_exec (Consume q)) | done].
  destruct (reachable_handlesIssued w Hreach) as [Hissued _].
  by apply consume_timers_other.
Qed.

(** X10.  Pools do not interfere.  In a reachable state, [consume()] on
    another pool, [consume()] on a group the pool is not a member of, and the
    elapsing of another pool's cycle leave a pool's counter and timer-handle
    record as they are; a cycle is armed for the pool afterwards exactly
    when one was armed before. *)
Theorem other_pools_do_not_interfere (w : World) (p : PoolId) :
  reachable w ->
  (forall q, q <> p ->
     poolHeap (snd (ResourcePool.consume q w)) !! p = poolHeap w !! p /\
     (armed (snd (ResourcePool.consume q w)) p <-> armed w p)) /\
  (forall g G, groupHeap w !! g = Some G -> p ∉ groupPools G ->
     poolHeap (snd (ResourceGroup.consume g w)) !! p = poolHeap w !! p /\
     (armed (snd (ResourceGroup.consume g w)) p <-> armed w p)) /\
  (forall t to, timers w !! t = Some to -> target to <> p ->
     poolHeap (Host.fire t w) !! p = poolHeap w !! p /\
     (armed (Host.fire t w) p <-> armed w p)).
Proof.
  intros Hreach.
  destruct (reachable_handlesIssued w Hreach) as [Hissued _].
  split; [| split].
  - intros q Hne. split; [by apply consume_other |].
    by apply consume_timers_other.
  - intros g G Hg Hp. unfold ResourceGroup.consume. rewrite Hg.
    destruct (ResourceGroup.exhausted G w) as [[|] | msg | e]; cbn; try done.
    split; [by apply consumeEach_other | by apply consumeEach_armed_other].
  - intros t to Ht Hne.
    destruct (poolHeap w !! target to) as [o |] eqn:Ho.
    + rewrite (fire_pending t to o w Ht Ho). cbv zeta.
      assert (forall wx, poolHeap wx = <[target to := mkPool (poolSizes o) (intervals o)
                                          (callbacks o) None (poolSizes o)]> (poolHeap w) ->
                timers wx = delete t (timers w) ->
                poolHeap wx !! p = poolHeap w !! p /\ (armed wx p <-> armed w p)) as Hshape.
      { intros wx Hheap Htm. split; [rewrite Hheap; by apply lookup_insert_ne |].
        unfold armed. rewrite Htm. split.
        - intros (u & tu & Hu & Htarget).
          apply lookup_delete_Some in Hu as [_ Hu]. by exists u, tu.
        - intros (u & tu & Hu & Htarget). exists u, tu. split; [| done].
          rewrite lookup_delete_ne; [done | congruence]. }
      destruct (ResourcePool.exhausted o).
      * match goal with |- context [Host.call ?f ?wx] =>
          destruct (call_events f wx) as (evs & -> & _) end.
        by apply Hshape.
      * by apply Hshape.
    + rewrite (fire_dangling t to w Ht Ho). split; [done |].
      unfold armed. cbn. split.
      * intros (u & tu & Hu & Htarget).
        apply lookup_delete_Some in Hu as [_ Hu]. by exists u, tu.
      * intros (u & tu & Hu & Htarget). exists u, tu. split; [| done].
        rewrite lookup_delete_ne; [done | congruence].
Qed.

Lemma other_pools_witness :
  let w := run (twoMembers ++ [Consume 0%nat]) init in
  reachable w /\
  poolHeap (snd (ResourcePool.consume 1%nat w)) !! 0%nat = poolHeap w !! 0%nat /\
  (armed (snd (ResourcePool.consume 1%nat w)) 0%nat <-> armed w 0%nat).
Proof.
  cbv zeta.
  assert (reachable (run (twoMembers ++ [Consume 0%nat]) init)) as Hreach by (by eexists).
  split; [exact Hreach |].
  destruct (other_pools_do_not_interfere _ 0%nat Hreach) as (Hconsume & _).
  apply (Hconsume 1%nat). lia.
Defined.

(** ** ResourceGroup's constructor *)

(** X11.  [new ResourceGroup(callback)] throws [INVALID_CALLBACK_TYPE] and
    changes nothing when [callback] is not a function.  Otherwise it makes a
    group that did not exist, without members, and changes nothing else; on
    this group reading [remaining] and calling [consume()] throw
    [NO_RESOURCE_POOLS_FOUND], [destroy()] does nothing, and after a first
    [add(c, interval)] with positive integers below 10^21 [remaining] is
    [c]. *)
Theorem new_group_starts_without_members (callback : JsValue nat) (w : World) :
  (utils.isFunction callback = false ->
     ResourceGroup.constructor callback w = (Throw ErrorMessages.INVALID_CALLBACK_TYPE, w)) /\
  (forall name, callback = JsFunction name ->
     exists g,
       groupHeap w !! g = None /\
       ResourceGroup.constructor callback w = (Normal g, setGroup g (mkGroup [] name) w) /\
       let w1 := setGroup g (mkGroup [] name) w in
       ResourceGroup.remaining (mkGroup [] name) w1
         = Throw ErrorMessages.NO_RESOURCE_POOLS_FOUND /\
       ResourceGroup.consume g w1 = (Throw ErrorMessages.NO_RESOURCE_POOLS_FOUND, w1) /\
       ResourceGroup.destroy g w1 = w1 /\
       forall (qc qi : Q) (c i : Z),
         (qc == inject_Z c)%Q -> (qi == inject_Z i)%Q ->
         0 < c < 10 ^ 21 -> 0 < i < 10 ^ 21 ->
         exists w2 G2,
           ResourceGroup.add (Fn:=Callback) g (JsNumber qc) (JsNumber qi) w1 = (Normal g, w2) /\
           groupHeap w2 !! g = Some G2 /\
           ResourceGroup.remaining G2 w2 = Normal c).
Proof.
  split.
  - by destruct callback.
  - intros name ->. exists (fresh (dom (groupHeap w))).
    split; [apply fresh_group_free |]. split; [done |]. cbv zeta.
    set (g := fresh (dom (groupHeap w))).
    set (w1 := setGroup g (mkGroup [] name) w).
    assert (groupHeap w1 !! g = Some (mkGroup [] name)) as Hg
      by (cbn; apply lookup_insert_eq).
    split; [done |]. split; [| split].
    + unfold ResourceGroup.consume. by rewrite Hg.
    + unfold ResourceGroup.destroy. by rewrite Hg.
    + intros qc qi c i Hc Hi Hcb Hib.
      rewrite (add_accepts g _ qc qi c i w1 Hg Hc Hi Hcb Hib).
      eexists _, _. split; [done |]. split; [cbn; apply lookup_insert_eq |].
      unfold ResourceGroup.remaining, ResourceGroup.poolRemaining. cbn.
      by rewrite lookup_insert_eq.
Qed.

(** ** The earlier draft of the pool *)

Lemma draft_validate_accepts (qc qi : Q) (c i : Z) (f : nat) :
  (qc == inject_Z c)%Q -> (qi == inject_Z i)%Q ->
  0 < c < 10 ^ 21 -> 0 < i < 10 ^ 21 ->
  Draft.validate (JsNumber qc) (JsNumber qi) (JsFunction f) = Normal (c, i, f).
Proof.
  intros Hc Hi Hcb Hib. unfold Draft.validate.
  destruct (accepts_number (Fn:=nat) qc c Hc Hcb) as (-> & -> & ->).
  destruct (accepts_number (Fn:=nat) qi i Hi Hib) as (-> & -> & ->).
  done.
Qed.

(** X12.  The draft's constructor checks its arguments in the same order as
    the final one and throws at the first check that fails, leaving the
    state alone, but with five messages that differ from one another: an
    interval that is not an integer has a message of its own.  A check that
    cannot convert its argument ends the constructor with what the
    conversion throws.  On success, that is for positive integers below
    10^21 and a function, the new pool has no stored amount: [remaining] is
    [undefined] and the pool is not exhausted. *)
Theorem draft_constructor_has_five_messages
    (poolSize interval callback : JsValue nat) (w : Draft.World) :
  let result := Draft.constructor poolSize interval callback w in
  (utils.isPositive poolSize = Normal false ->
     result = (Throw "Invalid poolSize value. Must be positive.", w)) /\
  (utils.isPositive poolSize = Normal true -> utils.isInt poolSize = Normal false ->
     result = (Throw "Invalid poolSize value. Must be integer.", w)) /\
  (utils.isPositive poolSize = Normal true -> utils.isInt poolSize = Normal true ->
   utils.isPositive interval = Normal false ->
     result = (Throw "Invalid interval value. Must be positive.", w)) /\
  (utils.isPositive poolSize = Normal true -> utils.isInt poolSize = Normal true ->
   utils.isPositive interval = Normal true -> utils.isInt interval = Normal false ->
     result = (Throw "Invalid interval value. Must be integer.", w)) /\
  (utils.isPositive poolSize = Normal true -> utils.isInt poolSize = Normal true ->
   utils.isPositive interval = Normal true -> utils.isInt interval = Normal true ->
   utils.isFunction callback = false ->
     result = (Throw "Invalid callback value. Must be function.", w)) /\
  ((forall r, propagates (utils.isPositive poolSize) r -> result = (r, w)) /\
   (forall r, utils.isPositive poolSize = Normal true ->
      propagates (utils.isInt poolSize) r -> result = (r, w)) /\
   (forall r, utils.isPositive poolSize = Normal true ->
      utils.isInt poolSize = Normal true ->
      propagates (utils.isPositive interval) r -> result = (r, w)) /\
   (forall r, utils.isPositive poolSize = Normal true ->
      utils.isInt poolSize = Normal true ->
      utils.isPositive interval = Normal true ->
      propagates (utils.isInt interval) r -> result = (r, w))) /\
  (forall (qc qi : Q) (c i : Z) (f : nat),
     poolSize = JsNumber qc -> (qc == inject_Z c)%Q -> 0 < c < 10 ^ 21 ->
     interval = JsNumber qi -> (qi == inject_Z i)%Q -> 0 < i < 10 ^ 21 ->
     callback = JsFunction f ->
     exists p,
       Draft.poolHeap w !! p = None /\
       result = (Normal p, Draft.setPool p (Draft.mkPool c i f None Draft.Undefined) w) /\
       Draft.remaining (Draft.mkPool c i f None Draft.Undefined) = Draft.Undefined /\
       Draft.exausted (Draft.mkPool c i f None Draft.Undefined) = false) /\
  NoDup ["Invalid poolSize value. Must be positive.";
         "Invalid poolSize value. Must be integer.";
         "Invalid interval value. Must be positive.";
         "Invalid interval value. Must be integer.";
         "Invalid callback value. Must be function."]%string.
Proof.
  cbv zeta. unfold Draft.constructor, Draft.validate.
  split; [| split; [| split; [| split; [| split; [| split; [| split]]]]]].
  - by intros ->.
  - by intros -> ->.
  - by intros -> -> ->.
  - by intros -> -> -> ->.
  - intros -> -> -> -> Hf. cbn. by destruct callback.
  - split; [| split; [| split]].
    + intros r Hr. destruct (utils.isPositive poolSize); cbn in *; by subst.
    + intros r -> Hr. cbn.
      destruct (utils.isInt poolSize); cbn in *; by subst.
    + intros r -> -> Hr. cbn.
      destruct (utils.isPositive interval); cbn in *; by subst.
    + intros r -> -> -> Hr. cbn.
      destruct (utils.isInt interval); cbn in *; by subst.
  - intros qc qi c i f -> Hc Hcb -> Hi Hib ->.
    pose proof (draft_validate_accepts qc qi c i f Hc Hi Hcb Hib) as E.
    unfold Draft.validate in E. rewrite E.
    eexists. split; [| done]. apply not_elem_of_dom, is_fresh.
  - apply NoDup_ListNoDup. repeat constructor; cbn; intuition discriminate.
Qed.

Lemma draft_world_eta (w : Draft.World) :
  Draft.mkWorld (Draft.poolHeap w) (Draft.timers w) (Draft.nextTimer w) (Draft.trace w) = w.
Proof. by destruct w. Qed.

Lemma draft_consume_nan p o t w :
  Draft.poolHeap w !! p = Some o ->
  Draft.currentPoolSize o = Draft.NotANumber ->
  Draft.cycles o = Some t ->
  Draft.consume p w = (true, w).
Proof.
  intros Hp Ha Hc. unfold Draft.consume. rewrite Hp.
  unfold Draft.exausted, Draft.remaining. rewrite Ha. cbn. rewrite Hc.
  f_equal. unfold Draft.setPool.
  assert (Draft.setCurrent o Draft.NotANumber = o) as ->.
  { destruct o. cbn in *. by subst. }
  rewrite insert_id by done. apply draft_world_eta.
Qed.

Lemma draft_consumeTimes_nan p o t w (n : nat) :
  Draft.poolHeap w !! p = Some o ->
  Draft.currentPoolSize o = Draft.NotANumber ->
  Draft.cycles o = Some t ->
  Draft.consumeTimes n p w = (repeat true n, w).
Proof.
  intros Hp Ha Hc. induction n as [| n IH]; [done |].
  cbn [Draft.consumeTimes repeat].
  by rewrite (draft_consume_nan p o t w Hp Ha Hc), IH.
Qed.

(** X13.  A draft pool as its constructor leaves it ([remaining] is
    [undefined], no cycle) never refuses: any number of [consume()] calls in
    a row all return [true]; they leave [remaining] at [NaN], the pool not
    exhausted, and exactly one timeout armed.  When that timeout is
    delivered the pool is filled for the first time: [remaining] becomes the
    capacity, and the closure ends without an error. *)
Theorem draft_fresh_pool_never_refuses
    (w : Draft.World) (p : PoolId) (o : Draft.Pool) (n : nat) :
  Draft.poolHeap w !! p = Some o ->
  Draft.remaining o = Draft.Undefined ->
  Draft.cycles o = None ->
  exists w',
    Draft.consumeTimes (S n) p w = (repeat true (S n), w') /\
    Draft.poolHeap w' !! p =
      Some (Draft.mkPool (Draft.poolSizes o) (Draft.intervals o) (Draft.callbacks o)
                         (Some (Draft.nextTimer w)) Draft.NotANumber) /\
    Draft.timers w' =
      <[Draft.nextTimer w := mkTimeout p (timerDelay (Draft.intervals o))]>
        (Draft.timers w) /\
    Draft.poolHeap (Draft.fire (Draft.nextTimer w) w') !! p =
      Some (Draft.mkPool (Draft.poolSizes o) (Draft.intervals o) (Draft.callbacks o)
                         None (Draft.Num (Draft.poolSizes o))) /\
    Draft.trace (Draft.fire (Draft.nextTimer w) w') = Draft.trace w ++ [Draft.Elapsed p].
Proof.
  intros Hp Ha Hc. unfold Draft.remaining in Ha.
  set (o1 := Draft.mkPool (Draft.poolSizes o) (Draft.intervals o) (Draft.callbacks o)
                          (Some (Draft.nextTimer w)) Draft.NotANumber).
  set (w1 := Draft.mkWorld (<[p := o1]> (Draft.poolHeap w))
                           (<[Draft.nextTimer w :=
                                mkTimeout p (timerDelay (Draft.intervals o))]>
                              (Draft.timers w))
                           (S (Draft.nextTimer w)) (Draft.trace w)).
  assert (Draft.consume p w = (true, w1)) as E1.
  { unfold Draft.consume. rewrite Hp.
    unfold Draft.exausted, Draft.remaining. rewrite Ha. cbn. by rewrite Hc. }
  assert (Draft.poolHeap w1 !! p = Some o1) as Hp1 by (cbn; apply lookup_insert_eq).
  exists w1. cbn [Draft.consumeTimes repeat]. rewrite E1.
  rewrite (draft_consumeTimes_nan p o1 (Draft.nextTimer w) w1 n Hp1 eq_refl eq_refl).
  split; [done |]. split; [done |]. split; [done |].
  unfold Draft.fire. cbn [Draft.timers w1]. rewrite lookup_insert_eq.
  unfold Draft.cycleElapsed. cbn. rewrite lookup_insert_eq. cbn.
  by rewrite lookup_insert_eq.
Qed.

Lemma draft_fresh_pool_witness :
  let w := Draft.run [Draft.NewPool (num 1) (num 5) (JsFunction 7%nat)] Draft.init in
  Draft.poolHeap w !! 0%nat = Some (Draft.mkPool 1 5 7%nat None Draft.Undefined) /\
  exists w',
    Draft.consumeTimes 3 0%nat w = ([true; true; true], w') /\
    Draft.trace (Draft.fire (Draft.nextTimer w) w') = [Draft.Elapsed 0%nat].
Proof.
  cbv zeta.
  assert (Draft.poolHeap
            (Draft.run [Draft.NewPool (num 1) (num 5) (JsFunction 7%nat)] Draft.init) !! 0%nat
          = Some (Draft.mkPool 1 5 7%nat None Draft.Undefined)) as Hp
    by (vm_compute; reflexivity).
  split; [exact Hp |].
  destruct (draft_fresh_pool_never_refuses _ _ _ 2%nat Hp eq_refl eq_refl)
    as (w' & E & _ & _ & _ & Htrace).
  exists w'. split; [exact E | exact Htrace].
Defined.

Lemma draft_fire_shape t to o w :
  Draft.timers w !! t = Some to ->
  Draft.poolHeap w !! target to = Some o ->
  Draft.fire t w =
    Draft.mkWorld
      (<[target to := Draft.mkPool (Draft.poolSizes o) (Draft.intervals o)
                        (Draft.callbacks o) None (Draft.Num (Draft.poolSizes o))]>
         (Draft.poolHeap w))
      (delete t (Draft.timers w)) (Draft.nextTimer w)
      (Draft.trace w ++
       Draft.Elapsed (target to) ::
       (if Draft.exausted o then [Draft.TypeError (target to)] else [])).
Proof.
  intros Ht Hp. unfold Draft.fire. rewrite Ht.
  unfold Draft.cycleElapsed. cbn. rewrite Hp. cbn.
  change (Draft.exausted (Draft.setCycle o None)) with (Draft.exausted o).
  destruct (Draft.exausted o); [| done].
  unfold Draft.log, Draft.setPool. cbn. by rewrite <- app_assoc.
Qed.

Lemma draft_exec_trace op w :
  exists evs,
    Draft.trace (Draft.exec op w) = Draft.trace w ++ evs /\
    Forall (fun e => ~ Draft.isCalled e) evs.
Proof.
  destruct op as [poolSize interval callback | p | t]; cbn [Draft.exec].
  - exists []. split; [| constructor]. rewrite app_nil_r.
    unfold Draft.constructor.
    by destruct (Draft.validate poolSize interval callback) as [[[? ?] ?] | |].
  - exists []. split; [| constructor]. rewrite app_nil_r.
    unfold Draft.consume.
    destruct (Draft.poolHeap w !! p) as [o |]; [| done].
    destruct (Draft.exausted o); [done |]. cbn.
    by destruct (Draft.cycles o).
  - destruct (Draft.timers w !! t) as [to |] eqn:Ht.
    + destruct (Draft.poolHeap w !! target to) as [o |] eqn:Hp.
      * rewrite (draft_fire_shape t to o w Ht Hp). cbn. eexists. split; [done |].
        destruct (Draft.exausted o); repeat constructor; by intros [].
      * exists []. split; [| constructor]. rewrite app_nil_r.
        unfold Draft.fire. rewrite Ht. unfold Draft.cycleElapsed. cbn. by rewrite Hp.
    + exists []. split; [| constructor]. rewrite app_nil_r.
      unfold Draft.fire. by rewrite Ht.
Qed.

Lemma draft_run_trace ops : forall w,
  Forall (fun e => ~ Draft.isCalled e) (Draft.trace w) ->
  Forall (fun e => ~ Draft.isCalled e) (Draft.trace (Draft.run ops w)).
Proof.
  induction ops as [| op ops IH]; intros w Hw; [done |].
  cbn. apply IH.
  destruct (draft_exec_trace op w) as (evs & -> & Hevs).
  by apply Forall_app.
Qed.

(** X14.  In the draft the callback given to the constructor is never
    called.  When a pool's cycle elapses, its [cycles] entry is deleted and
    [remaining] is set to the capacity; if the pool was exhausted, the
    closure then looks for the callback under a receiver that is not a pool,
    finds none, and ends in a [TypeError].  In no program of constructor
    calls, [consume()] calls and timer deliveries does a callback run. *)
Theorem draft_cycle_never_calls_back :
  (forall (w : Draft.World) (t : TimerId) (to : Timeout) (o : Draft.Pool),
     Draft.timers w !! t = Some to ->
     Draft.poolHeap w !! target to = Some o ->
     Draft.poolHeap (Draft.fire t w) !! target to =
       Some (Draft.mkPool (Draft.poolSizes o) (Draft.intervals o) (Draft.callbacks o)
                          None (Draft.Num (Draft.poolSizes o))) /\
     Draft.timers (Draft.fire t w) = delete t (Draft.timers w) /\
     Draft.trace (Draft.fire t w) =
       Draft.trace w ++
       Draft.Elapsed (target to) ::
       (if Draft.exausted o then [Draft.TypeError (target to)] else [])) /\
  (forall ops name, Draft.Called name ∉ Draft.trace (Draft.run ops Draft.init)).
Proof.
  split.
  - intros w t to o Ht Hp. rewrite (draft_fire_shape t to o w Ht Hp). cbn.
    by rewrite lookup_insert_eq.
  - intros ops name Hin.
    pose proof (draft_run_trace ops Draft.init (Forall_nil_2 _)) as Hall.
    rewrite Forall_forall in Hall. by apply (Hall _ Hin).
Qed.

(** ** Two more invariants of the reachable states *)

Lemma delaysAreIntervals_prim b w w' :
  prim b w w' -> delaysAreIntervals w -> delaysAreIntervals w'.
Proof.
  unfold delaysAreIntervals.
  destruct 1 as [w p o Hp Hc Hfull Hpos Hms | w p o t Hp Hlt Hc | w p o Hp Hlt Hc
    | w t to o evs Ht Hp Hevs | w p o t Hp Hc | w t to Ht Hp | w g name Hg
    | w g G p o Hg Hp Hc Hfull Hpos Hms];
    intros Inv u tu Hu; cbn in *.
  - destruct (Inv _ _ Hu) as (ou & Hou & Hd).
    exists ou. split; [| done]. rewrite lookup_insert_ne; [done | congruence].
  - destruct (Inv _ _ Hu) as (ou & Hou & Hd).
    destruct (decide (p = target tu)) as [Heq | Hne].
    + rewrite <- Heq in *. rewrite lookup_insert_eq.
      eexists. split; [done |]. cbn. congruence.
    + exists ou. by rewrite lookup_insert_ne.
  - apply lookup_insert_Some in Hu as [[<- <-] | [Hne Hu]]; cbn.
    + rewrite lookup_insert_eq. by eexists.
    + destruct (Inv _ _ Hu) as (ou & Hou & Hd).
      destruct (decide (p = target tu)) as [Heq | Hne'].
      * rewrite <- Heq in *. rewrite lookup_insert_eq.
        eexists. split; [done |]. cbn. congruence.
      * exists ou. by rewrite lookup_insert_ne.
  - apply lookup_delete_Some in Hu as [Hne Hu].
    destruct (Inv _ _ Hu) as (ou & Hou & Hd).
    destruct (decide (target to = target tu)) as [Heq | Hne'].
    + rewrite <- Heq in *. rewrite lookup_insert_eq.
      eexists. split; [done |]. cbn. congruence.
    + exists ou. by rewrite lookup_insert_ne.
  - apply lookup_delete_Some in Hu as [Hne Hu]. by apply (Inv _ _ Hu).
  - apply lookup_delete_Some in Hu as [Hne Hu]. by apply (Inv _ _ Hu).
  - by apply (Inv _ _ Hu).
  - destruct (Inv _ _ Hu) as (ou & Hou & Hd).
    exists ou. split; [| done]. rewrite lookup_insert_ne; [done | congruence].
Qed.

Lemma groupsDisjoint_prim b w w' :
  prim b w w' -> groupsOwnPools w -> groupsDisjoint w -> groupsDisjoint w'.
Proof.
  unfold groupsDisjoint, groupsOwnPools.
  destruct 1 as [w p o Hp Hc Hfull Hpos Hms | w p o t Hp Hlt Hc | w p o Hp Hlt Hc
    | w t to o evs Ht Hp Hevs | w p o t Hp Hc | w t to Ht Hp | w g name Hg
    | w g G p o Hg Hp Hc Hfull Hpos Hms];
    intros Hown Inv g1 g2 G1 G2 q H1 H2 Hq1 Hq2; cbn in H1, H2;
    try (by apply (Inv _ _ _ _ _ H1 H2 Hq1 Hq2)).
  - apply lookup_insert_Some in H1 as [[<- <-] | [Hne1 H1]];
      [by apply elem_of_nil in Hq1 |].
    apply lookup_insert_Some in H2 as [[<- <-] | [Hne2 H2]];
      [by apply elem_of_nil in Hq2 |].
    by apply (Inv _ _ _ _ _ H1 H2 Hq1 Hq2).
  - assert (forall h H, groupHeap w !! h = Some H -> p ∉ groupPools H) as Hfresh.
    { intros h H Hh Hin. destruct (Hown h H Hh) as [_ Hex].
      destruct (Hex p Hin) as [x Hx]. congruence. }
    apply lookup_insert_Some in H1 as [[<- <-] | [Hne1 H1]];
      apply lookup_insert_Some in H2 as [[<- <-] | [Hne2 H2]]; try done; cbn in *.
    + apply elem_of_app in Hq1 as [Hq1 | Hq1].
      * by apply (Inv _ _ _ _ _ Hg H2 Hq1 Hq2).
      * apply list_elem_of_singleton in Hq1 as ->. by destruct (Hfresh _ _ H2).
    + apply elem_of_app in Hq2 as [Hq2 | Hq2].
      * by apply (Inv _ _ _ _ _ H1 Hg Hq1 Hq2).
      * apply list_elem_of_singleton in Hq2 as ->. by destruct (Hfresh _ _ H1).
    + by apply (Inv _ _ _ _ _ H1 H2 Hq1 Hq2).
Qed.

Lemma groupsDisjoint_trail c w w' :
  trail c w w' -> groupsOwnPools w -> groupsDisjoint w -> groupsDisjoint w'.
Proof.
  induction 1 as [| b w1 w2 w3 Hp Hb _ IH]; [done |].
  intros Hown Hd.
  apply IH; [by eapply groupsOwnPools_prim | by eapply groupsDisjoint_prim].
Qed.

Lemma delaysAreIntervals_trail c w w' :
  trail c w w' -> delaysAreIntervals w -> delaysAreIntervals w'.
Proof. induction 1; eauto using delaysAreIntervals_prim. Qed.

Lemma reachable_delaysAreIntervals w : reachable w -> delaysAreIntervals w.
Proof.
  intros [ops ->].
  eapply delaysAreIntervals_trail; [apply run_trail |].
  intros t to H. cbn [init timers] in H. by rewrite lookup_empty in H.
Qed.

(** X15.  In every reachable state each pending timeout belongs to an
    existing pool, and its delay is that pool's interval when the interval is
    at most 2^31 - 1, the longest delay of a Node.js timer, and 1 ms when the
    interval is above it; the capacity and the interval of every pool are
    positive. *)
Theorem pending_timeouts_use_the_interval (w : World) :
  reachable w ->
  (forall t to, timers w !! t = Some to ->
     exists o,
       poolHeap w !! target to = Some o /\
       delay to = timerDelay (intervals o) /\
       (intervals o <= TIMEOUT_MAX -> delay to = intervals o) /\
       (TIMEOUT_MAX < intervals o -> delay to = 1)) /\
  (forall p o, poolHeap w !! p = Some o -> 0 < poolSizes o /\ 0 < intervals o).
Proof.
  intros Hreach. split.
  - intros t to Ht.
    destruct (reachable_delaysAreIntervals w Hreach t to Ht) as (o & Ho & Hd).
    pose proof (reachable_intervalsPositive w Hreach _ o Ho) as Hms.
    exists o. split; [done |]. split; [done |]. rewrite Hd. split.
    + intros Hmax. apply timerDelay_in_range. lia.
    + apply timerDelay_above.
  - intros p o Hp. split.
    + by apply (reachable_capacitiesPositive w Hreach p).
    + by apply (reachable_intervalsPositive w Hreach p).
Qed.

Lemma pending_timeouts_witness :
  let w := run (onePool ++ [Consume 0%nat]) init in
  reachable w /\
  exists o, poolHeap w !! 0%nat = Some o /\ delay (mkTimeout 0%nat 5) = intervals o.
Proof.
  cbv zeta.
  assert (reachable (run (onePool ++ [Consume 0%nat]) init)) as Hreach by (by eexists).
  split; [exact Hreach |].
  destruct (pending_timeouts_use_the_interval _ Hreach) as [Hdelay _].
  destruct (Hdelay 0%nat (mkTimeout 0%nat 5)) as (o & Ho & Hd & Hsmall & _);
    [vm_compute; reflexivity |].
  exists o. split; [exact Ho |]. apply Hsmall.
  cbn in Ho. vm_compute in Ho. injection Ho as <-. by vm_compute.
Defined.

(** X16.  In every reachable state a group exclusively owns its members:
    they are existing pools, no pool occurs twice in a group, and no pool is
    a member of two groups. *)
Theorem groups_own_their_members (w : World) :
  reachable w ->
  (forall g G, groupHeap w !! g = Some G ->
     NoDup (groupPools G) /\
     forall p, p ∈ groupPools G -> is_Some (poolHeap w !! p)) /\
  (forall g1 g2 G1 G2 p,
     groupHeap w !! g1 = Some G1 -> groupHeap w !! g2 = Some G2 ->
     p ∈ groupPools G1 -> p ∈ groupPools G2 -> g1 = g2).
Proof.
  intros Hreach. split; [by apply reachable_groupsOwnPools |].
  destruct Hreach as [ops ->].
  eapply groupsDisjoint_trail;
    [apply run_trail | apply groupsOwnPools_init |].
  intros g1 g2 G1 G2 p H. cbn [init groupHeap] in H. by rewrite lookup_empty in H.
Qed.

Lemma groups_own_witness :
  let w := run twoMembers init in
  reachable w /\
  groupHeap w !! 0%nat = Some (mkGroup [0%nat; 1%nat] 9%nat) /\
  NoDup [0%nat; 1%nat].
Proof.
  cbv zeta.
  assert (reachable (run twoMembers init)) as Hreach by (by eexists).
  assert (groupHeap (run twoMembers init) !! 0%nat = Some (mkGroup [0%nat; 1%nat] 9%nat))
    as Hg by (vm_compute; reflexivity).
  split; [exact Hreach |]. split; [exact Hg |].
  destruct (groups_own_their_members _ Hreach) as [Hown _].
  apply (Hown _ _ Hg).
Defined.
